(** * The stress-test load generator and the monitoring service

    A shallow embedding of the repository's two programs:

    - the load generator ([CONFIG], [parseArgs], [api], [makeRequest],
      [executeConcurrentRequests], [runStressTest], [calculatePercentile],
      [printStatistics], and the script run as the main module);
    - the Express service (the [/health], [/pi] and [/] routes, the 404
      handler).

    JavaScript numbers are IEEE-754 doubles.  Two representations are used:

    - [num], the integer fragment (integers, NaN, the two infinities), for the
      values that come out of [parseInt] and for the integer arithmetic of the
      batch scheduler;
    - Rocq's primitive [float] (binary64, evaluated by the kernel) for the
      elapsed times, the percentile index, the rates of the report and
      [Math.PI]. *)

From Stdlib Require Import ZArith Floats String Ascii List Bool Lia.
From Stdlib Require Import DecimalString.
From stdpp Require Import base option list sorting gmap strings.

Import ListNotations.
Local Open Scope string_scope.
Local Open Scope Z_scope.

(* ===================================================================== *)
(** * JavaScript numbers: the integer fragment *)
(* ===================================================================== *)

(** The numbers of the scheduler are results of [parseInt] and of [+], [-],
    [*], [Math.min] and [Math.ceil(a / b)] on them.  All of these stay within
    the integers, NaN and the infinities once a quotient is taken together
    with the [Math.ceil] around it: the quotient is never used on its own.

    Limits of the fragment: integers are exact (a double is, up to 2^53), and
    there is one zero (JavaScript's [-0] reads as [0]). *)
Inductive num : Type :=
| Int (z : Z)
| NaN
| PInf
| NInf.

Module Num.

Definition eq_dec (a b : num) : {a = b} + {a <> b}.
Proof. decide equality. apply Z.eq_dec. Defined.

(** [-a] *)
Definition neg (a : num) : num :=
  match a with
  | Int z => Int (- z)
  | NaN => NaN
  | PInf => NInf
  | NInf => PInf
  end.

(** [a + b] *)
Definition add (a b : num) : num :=
  match a, b with
  | NaN, _ | _, NaN => NaN
  | Int x, Int y => Int (x + y)
  | PInf, NInf | NInf, PInf => NaN
  | PInf, _ | _, PInf => PInf
  | NInf, _ | _, NInf => NInf
  end.

(** [a - b] *)
Definition sub (a b : num) : num := add a (neg b).

(** The sign of a number that is not NaN: [-1], [0] or [1]. *)
Definition sgn (a : num) : Z :=
  match a with
  | Int z => Z.sgn z
  | PInf => 1
  | NInf => -1
  | NaN => 0
  end.

(** [a * b]: infinity times zero is NaN. *)
Definition mul (a b : num) : num :=
  match a, b with
  | NaN, _ | _, NaN => NaN
  | Int x, Int y => Int (x * y)
  | _, _ =>
      match sgn a * sgn b with
      | 0 => NaN
      | Zpos _ => PInf
      | Zneg _ => NInf
      end
  end.

(** [Math.ceil(a / b)].  For integers [x] and [y <> 0] the quotient of the
    doubles rounds to a double with the same ceiling as the exact quotient
    (below 2^53), which is [- ((- x) / y)] with Rocq's floor division. *)
Definition ceil_div (a b : num) : num :=
  match a, b with
  | NaN, _ | _, NaN => NaN
  | Int x, Int y =>
      if y =? 0 then
        match x with
        | 0 => NaN
        | Zpos _ => PInf
        | Zneg _ => NInf
        end
      else Int (- ((- x) / y))
  | Int _, _ => Int 0
  | _, Int y => if (0 <=? y) then a else neg a
  | _, _ => NaN
  end.

(** [a < b]; false as soon as one side is NaN. *)
Definition ltb (a b : num) : bool :=
  match a, b with
  | NaN, _ | _, NaN => false
  | Int x, Int y => x <? y
  | NInf, NInf => false
  | NInf, _ => true
  | _, NInf => false
  | PInf, _ => false
  | _, PInf => true
  end.

(** [a <= b]; false as soon as one side is NaN. *)
Definition leb (a b : num) : bool :=
  match a, b with
  | NaN, _ | _, NaN => false
  | Int x, Int y => x <=? y
  | NInf, _ => true
  | _, NInf => false
  | _, PInf => true
  | PInf, _ => false
  end.

(** [a > b] and [a >= b] *)
Definition gtb (a b : num) : bool := ltb b a.
Definition geb (a b : num) : bool := leb b a.

(** [Math.min(a, b)]: NaN as soon as one argument is. *)
Definition min (a b : num) : num :=
  match a, b with
  | NaN, _ | _, NaN => NaN
  | _, _ => if ltb b a then b else a
  end.

(** [ToBoolean]: zero and NaN are falsy. *)
Definition truthy (a : num) : bool :=
  match a with
  | Int 0 | NaN => false
  | _ => true
  end.

(** [a || d] *)
Definition or_else (a d : num) : num := if truthy a then a else d.

(** [String(a)], as a template literal prints it. *)
Definition to_string (a : num) : string :=
  match a with
  | Int z => NilZero.string_of_int (Z.to_int z)
  | NaN => "NaN"
  | PInf => "Infinity"
  | NInf => "-Infinity"
  end.

End Num.

(* ===================================================================== *)
(** * [parseInt] *)
(* ===================================================================== *)

Module ParseInt.

(** White space that [parseInt] skips (the ASCII part of it). *)
Definition is_space (c : ascii) : bool :=
  let n := nat_of_ascii c in
  ((9 <=? n) && (n <=? 13))%nat || (n =? 32)%nat.

Fixpoint skip_spaces (s : string) : string :=
  match s with
  | String c s' => if is_space c then skip_spaces s' else s
  | EmptyString => s
  end.

(** The value of a digit in the given radix, if it is one. *)
Definition digit (radix : Z) (c : ascii) : option Z :=
  let n := Z.of_nat (nat_of_ascii c) in
  let v :=
    if (48 <=? n) && (n <=? 57) then Some (n - 48)
    else if (97 <=? n) && (n <=? 122) then Some (n - 87)
    else if (65 <=? n) && (n <=? 90) then Some (n - 55)
    else None in
  match v with
  | Some d => if d <? radix then Some d else None
  | None => None
  end.

(** The longest prefix of digits, read in the radix; [None] when the prefix
    is empty. *)
Fixpoint digits (radix : Z) (acc : option Z) (s : string) : option Z :=
  match s with
  | String c s' =>
      match digit radix c with
      | Some d => digits radix (Some (radix * default 0 acc + d)) s'
      | None => acc
      end
  | EmptyString => acc
  end.

(** [parseInt(s)] of a string, without a radix argument. *)
Definition of_string (s : string) : num :=
  let s := skip_spaces s in
  let '(negative, s) :=
    match s with
    | String "-" s' => (true, s')
    | String "+" s' => (false, s')
    | _ => (false, s)
    end in
  let '(radix, s) :=
    match s with
    | String "0" (String "x" s') | String "0" (String "X" s') => (16, s')
    | _ => (10, s)
    end in
  match digits radix None s with
  | Some v => Int (if negative : bool then - v else v)
  | None => NaN
  end.

End ParseInt.

(** [parseInt(v)] where [v] is a string or [undefined] ([None]):
    [undefined] is first turned into the string "undefined". *)
Definition parseInt (v : option string) : num :=
  ParseInt.of_string (default "undefined" v).

(* ===================================================================== *)
(** * Configuration *)
(* ===================================================================== *)

(** [process.env]: a dictionary from names to strings. *)
Abbreviation Env := (gmap string string).

Record Config : Type := mkConfig {
  baseURL : option string;          (* [None] is [undefined] *)
  endpoint : string;
  concurrentRequests : num;
  totalRequests : num;
  delayBetweenBatches : num;
  timeout : num;
  verbose : bool
}.

(** [s || d] on a string or [undefined]: the empty string is falsy. *)
Definition str_or_else (s : option string) (d : string) : string :=
  match s with
  | Some "" | None => d
  | Some v => v
  end.

(** The [CONFIG] object as the module builds it when it is loaded. *)
Definition CONFIG (env : Env) : Config :=
  {| baseURL := Some (str_or_else (env !! "BASE_URL") "http://localhost:3000");
     endpoint := "/pi";
     concurrentRequests := Num.or_else (parseInt (env !! "CONCURRENT_REQUESTS")) (Int 10);
     totalRequests := Num.or_else (parseInt (env !! "TOTAL_REQUESTS")) (Int 100);
     delayBetweenBatches := Num.or_else (parseInt (env !! "DELAY_BETWEEN_BATCHES")) (Int 1000);
     timeout := Num.or_else (parseInt (env !! "TIMEOUT")) (Int 5000);
     verbose := bool_decide (env !! "VERBOSE" = Some "true") |}.

Definition set_baseURL (v : option string) (c : Config) : Config :=
  mkConfig v (endpoint c) (concurrentRequests c) (totalRequests c)
           (delayBetweenBatches c) (timeout c) (verbose c).
Definition set_concurrentRequests (v : num) (c : Config) : Config :=
  mkConfig (baseURL c) (endpoint c) v (totalRequests c)
           (delayBetweenBatches c) (timeout c) (verbose c).
Definition set_totalRequests (v : num) (c : Config) : Config :=
  mkConfig (baseURL c) (endpoint c) (concurrentRequests c) v
           (delayBetweenBatches c) (timeout c) (verbose c).
Definition set_delayBetweenBatches (v : num) (c : Config) : Config :=
  mkConfig (baseURL c) (endpoint c) (concurrentRequests c) (totalRequests c)
           v (timeout c) (verbose c).
Definition set_timeout (v : num) (c : Config) : Config :=
  mkConfig (baseURL c) (endpoint c) (concurrentRequests c) (totalRequests c)
           (delayBetweenBatches c) v (verbose c).
Definition set_verbose (v : bool) (c : Config) : Config :=
  mkConfig (baseURL c) (endpoint c) (concurrentRequests c) (totalRequests c)
           (delayBetweenBatches c) (timeout c) v.

(** What [parseArgs] leaves behind: the process has exited ([--help]), or the
    configuration is updated and some warnings were logged. *)
Inductive Parsed : Type :=
| Exit (code : Z)
| Args (c : Config) (warnings : list string).

Definition warn (w : string) (p : Parsed) : Parsed :=
  match p with
  | Exit code => Exit code
  | Args c ws => Args c (w :: ws)
  end.

(** [parseArgs], on [process.argv.slice(2)].  A flag that takes a value reads
    [args[++i]], which is [undefined] past the end of the list. *)
Fixpoint parseArgs (c : Config) (args : list string) : Parsed :=
  match args with
  | [] => Args c []
  | arg :: rest =>
      (* [CONFIG.field = f(args[++i])], then on with the loop *)
      let with_value (set : option string -> Config) : Parsed :=
        match rest with
        | [] => Args (set None) []
        | value :: rest' => parseArgs (set (Some value)) rest'
        end in
      if String.eqb arg "--help" || String.eqb arg "-h" then Exit 0
      else if String.eqb arg "--concurrent" then
        with_value (fun v => set_concurrentRequests (parseInt v) c)
      else if String.eqb arg "--total" then
        with_value (fun v => set_totalRequests (parseInt v) c)
      else if String.eqb arg "--delay" then
        with_value (fun v => set_delayBetweenBatches (parseInt v) c)
      else if String.eqb arg "--timeout" then
        with_value (fun v => set_timeout (parseInt v) c)
      else if String.eqb arg "--base-url" then
        with_value (fun v => set_baseURL v c)
      else if String.eqb arg "--verbose" then
        parseArgs (set_verbose true c) rest
      else if String.prefix "--" arg then
        warn ("Unknown option: " +:+ arg) (parseArgs c rest)
      else parseArgs c rest
  end.

(** The configuration a run starts from: defaults, then the environment, then
    the command line. *)
Definition resolve (env : Env) (argv : list string) : Parsed :=
  parseArgs (CONFIG env) argv.

(* ===================================================================== *)
(** * JavaScript numbers: doubles *)
(* ===================================================================== *)

(** Elapsed times, rates and percentile ranks are doubles that are not
    integers; they are computed on Rocq's primitive floats, with [Prim2SF]
    giving the sign, mantissa and exponent where the exact value is needed
    ([Math.ceil], [toFixed], indexing). *)
Module F64.

(** The double nearest to an integer (exact below 2^53). *)
Definition of_Z (z : Z) : float :=
  SF2Prim (binary_normalize prec emax z 0 false).

Definition of_nat (n : nat) : float := of_Z (Z.of_nat n).

(** A number of the integer fragment as a double. *)
Definition of_num (a : num) : float :=
  match a with
  | Int z => of_Z z
  | NaN => nan
  | PInf => infinity
  | NInf => neg_infinity
  end.

(** [Math.ceil(x)].  A finite [x] is [m * 2^e] up to its sign; it is an
    integer already when [0 <= e].  A negative [x] rounds towards zero, and
    to [-0] when it is above [-1]. *)
Definition Math_ceil (x : float) : float :=
  match Prim2SF x with
  | S754_finite s m e =>
      if 0 <=? e then x
      else
        let q := Z.pos m / 2 ^ (- e) in
        let exact := Z.pos m mod 2 ^ (- e) =? 0 in
        if s then (- of_Z q)%float
        else of_Z (if exact then q else q + 1)
  | _ => x
  end.

(** [Math.min(a, b)] and [Math.max(a, b)]: NaN as soon as one argument is,
    and [-0] is below [+0]. *)
Definition Math_min (a b : float) : float :=
  if is_nan a || is_nan b then nan
  else if (a <? b)%float then a
  else if (b <? a)%float then b
  else if get_sign a then a else b.

Definition Math_max (a b : float) : float :=
  if is_nan a || is_nan b then nan
  else if (a <? b)%float then b
  else if (b <? a)%float then a
  else if get_sign a then b else a.

(** [ToBoolean(x)]: [+0], [-0] and NaN are falsy. *)
Definition truthy (x : float) : bool :=
  match Prim2SF x with
  | S754_zero _ | S754_nan => false
  | _ => true
  end.

(** The array index a number denotes, as a property key: a non-negative
    integer ([-0] is the key "0"). *)
Definition index (i : float) : option Z :=
  match Prim2SF i with
  | S754_zero _ => Some 0
  | S754_finite false m e =>
      if 0 <=? e then Some (Z.pos m * 2 ^ e)
      else if Z.pos m mod 2 ^ (- e) =? 0 then Some (Z.pos m / 2 ^ (- e))
      else None
  | _ => None
  end.

(** [arr[i]]: the element, or [undefined] ([None]). *)
Definition get {A : Type} (arr : list A) (i : float) : option A :=
  match index i with
  | Some z => if z <? Z.of_nat (length arr) then arr !! Z.to_nat z else None
  | None => None
  end.

(** The decimal digits of a natural number. *)
Definition decimal (n : Z) : string :=
  NilZero.string_of_uint (N.to_uint (Z.to_N n)).

Fixpoint zeros (k : nat) : string :=
  match k with
  | O => ""
  | S k' => String "0" (zeros k')
  end.

(** The digits of [n] with a point before the last [f] of them, padded with
    zeros on the left to at least one digit before the point. *)
Definition fixed_point (n : Z) (f : nat) : string :=
  let m := decimal n in
  let m := zeros (S f - String.length m) +:+ m in
  match f with
  | O => m
  | _ =>
      let k := String.length m in
      substring 0 (k - f) m +:+ "." +:+ substring (k - f) f m
  end.

(** [x.toFixed(f)].  [n] is the integer nearest to [|x| * 10^f], the larger
    one of two.  [None] stands for what is not modelled: the RangeError for
    [f] outside 0..100, and finite values from 10^21 on, which print in
    exponent notation. *)
Definition toFixed (x : float) (f : Z) : option string :=
  if (f <? 0) || (100 <? f) then None
  else
    match Prim2SF x with
    | S754_nan => Some "NaN"
    | S754_infinity s => Some (if s then "-Infinity" else "Infinity")
    | S754_zero _ => Some (fixed_point 0 (Z.to_nat f))
    | S754_finite s m e =>
        if (of_Z (10 ^ 21) <=? abs x)%float then None
        else
          let n :=
            if 0 <=? e then Z.pos m * 2 ^ e * 10 ^ f
            else (2 * (Z.pos m * 10 ^ f) + 2 ^ (- e)) / (2 * 2 ^ (- e)) in
          Some ((if s then "-" else "") +:+ fixed_point n (Z.to_nat f))
    end.

End F64.

(** [Math.PI] *)
Definition Math_PI : float := 0x1.921fb54442d18p+1%float.

(* ===================================================================== *)
(** * Statistics and the request executor *)
(* ===================================================================== *)

(** An entry of [stats.errors]. *)
Record ErrorEntry : Type := mkError {
  requestId : num;
  error : string;
  responseTime : float
}.

(** The [stats] object.  The three counters only ever hold integers and are
    kept as such. *)
Module Stats.
Record t : Type := mk {
  totalRequests : Z;
  successfulRequests : Z;
  failedRequests : Z;
  totalResponseTime : float;
  minResponseTime : float;
  maxResponseTime : float;
  responseTimes : list float;
  startTime : float;
  endTime : float;
  errors : list ErrorEntry
}.
End Stats.

Definition stats : Stats.t :=
  {| Stats.totalRequests := 0;
     Stats.successfulRequests := 0;
     Stats.failedRequests := 0;
     Stats.totalResponseTime := 0%float;
     Stats.minResponseTime := infinity;
     Stats.maxResponseTime := 0%float;
     Stats.responseTimes := [];
     Stats.startTime := 0%float;
     Stats.endTime := 0%float;
     Stats.errors := [] |}.

(** How [await api.get(CONFIG.endpoint)] ends, with the time measured by the
    two calls of [performance.now()] around it: a response, or an exception
    (time-out, connection error, a status the client rejects). *)
Inductive Outcome : Type :=
| Resolved (status : Z) (elapsed : float)
| Rejected (message : string) (elapsed : float).

(** The object [makeRequest] returns. *)
Inductive Result : Type :=
| Success (elapsed : float) (status : Z)
| Failure (elapsed : float) (message : string).

(** [makeRequest(requestId)], from the point where the request settles.  The
    body runs to its end without being interleaved with another request:
    the [try] or the [catch] branch, then the [finally] block.  The verbose
    log lines are left out. *)
Definition makeRequest (requestId : num) (o : Outcome) (s : Stats.t)
  : Stats.t * Result :=
  let '(s, result) :=
    match o with
    | Resolved status responseTime =>
        (* try *)
        ({| Stats.totalRequests := Stats.totalRequests s;
            Stats.successfulRequests := Stats.successfulRequests s + 1;
            Stats.failedRequests := Stats.failedRequests s;
            Stats.totalResponseTime := (Stats.totalResponseTime s + responseTime)%float;
            Stats.minResponseTime := F64.Math_min (Stats.minResponseTime s) responseTime;
            Stats.maxResponseTime := F64.Math_max (Stats.maxResponseTime s) responseTime;
            Stats.responseTimes := Stats.responseTimes s ++ [responseTime];
            Stats.startTime := Stats.startTime s;
            Stats.endTime := Stats.endTime s;
            Stats.errors := Stats.errors s |},
         Success responseTime status)
    | Rejected message responseTime =>
        (* catch *)
        ({| Stats.totalRequests := Stats.totalRequests s;
            Stats.successfulRequests := Stats.successfulRequests s;
            Stats.failedRequests := Stats.failedRequests s + 1;
            Stats.totalResponseTime := Stats.totalResponseTime s;
            Stats.minResponseTime := Stats.minResponseTime s;
            Stats.maxResponseTime := Stats.maxResponseTime s;
            Stats.responseTimes := Stats.responseTimes s;
            Stats.startTime := Stats.startTime s;
            Stats.endTime := Stats.endTime s;
            Stats.errors :=
              Stats.errors s ++ [mkError requestId message responseTime] |},
         Failure responseTime message)
    end in
  (* finally *)
  ({| Stats.totalRequests := Stats.totalRequests s + 1;
      Stats.successfulRequests := Stats.successfulRequests s;
      Stats.failedRequests := Stats.failedRequests s;
      Stats.totalResponseTime := Stats.totalResponseTime s;
      Stats.minResponseTime := Stats.minResponseTime s;
      Stats.maxResponseTime := Stats.maxResponseTime s;
      Stats.responseTimes := Stats.responseTimes s;
      Stats.startTime := Stats.startTime s;
      Stats.endTime := Stats.endTime s;
      Stats.errors := Stats.errors s |},
   result).

(** A sequence of requests settling one after the other, each with its
    identifier and its outcome. *)
Definition settle_all (completions : list (num * Outcome)) (s : Stats.t)
  : Stats.t :=
  foldl (fun s c => fst (makeRequest (fst c) (snd c) s)) s completions.

(** What the program cannot decide: how the request dispatched at offset [i]
    of batch [b] ends, in which order the requests of a batch settle (a
    rearrangement of their offsets), and the clock at the start and at the
    end of the run. *)
Record World : Type := mkWorld {
  net : Z -> Z -> Outcome;
  settle : Z -> list Z -> list Z;
  settle_perm : forall b offsets, settle b offsets ≡ₚ offsets;
  clock_start : float;
  clock_end : float
}.

(** The values [i] takes in [for (let i = 0; i < batchSize; i++)]; [None]
    when the loop has no end. *)
Definition offsets (batchSize : num) : option (list Z) :=
  match batchSize with
  | Int k => Some (seqZ 0 k)
  | PInf => None
  | NaN | NInf => Some []
  end.

(** [batchNumber * batchSize + i + 1] *)
Definition request_id (batchNumber : Z) (batchSize : num) (i : Z) : num :=
  Num.add (Num.add (Num.mul (Int batchNumber) batchSize) (Int i)) (Int 1).

(** [executeConcurrentRequests(batchNumber, batchSize)]: the identifiers in
    the order the requests are dispatched, the results [Promise.all] gives
    (in that order too), and the statistics once every request has settled. *)
Definition executeConcurrentRequests (w : World) (batchNumber : Z)
    (batchSize : num) (s : Stats.t)
  : option (list num * list Result * Stats.t) :=
  ofs ← offsets batchSize;
  let requestId := request_id batchNumber batchSize in
  let results :=
    (fun i => snd (makeRequest (requestId i) (net w batchNumber i) s)) <$> ofs in
  let completions :=
    (fun i => (requestId i, net w batchNumber i)) <$> settle w batchNumber ofs in
  Some (requestId <$> ofs, results, settle_all completions s).

(* ===================================================================== *)
(** * Reporting *)
(* ===================================================================== *)

(** [Array.prototype.sort] with a comparator, as an insertion sort: an
    element goes behind every element that the comparator does not place
    after it, so equal elements keep their order (the sort is stable, and a
    comparator result of NaN counts as zero).  For a consistent comparator
    this is the result of every sorting algorithm. *)
Fixpoint insert_sorted {A : Type} (cmp : A -> A -> float) (x : A) (l : list A)
  : list A :=
  match l with
  | [] => [x]
  | y :: l' =>
      if (0 <? cmp y x)%float then x :: l else y :: insert_sorted cmp x l'
  end.

Definition Array_sort {A : Type} (cmp : A -> A -> float) (arr : list A)
  : list A :=
  foldl (fun acc x => insert_sorted cmp x acc) [] arr.

(** [values.sort((a, b) => a - b)].  The array is sorted in place: a caller
    that holds [values] sees this list afterwards. *)
Definition sort_ascending (values : list float) : list float :=
  Array_sort (fun a b => (a - b)%float) values.

(** [v || 0] where [v] is a number or [undefined]. *)
Definition or_zero (v : option float) : float :=
  match v with
  | Some x => if F64.truthy x then x else 0%float
  | None => 0%float
  end.

(** The index [calculatePercentile] reads, for a percentile and a count. *)
Definition percentile_index (percentile : float) (count : nat) : float :=
  (F64.Math_ceil ((percentile / 100) * F64.of_nat count) - 1)%float.

Definition calculatePercentile (values : list float) (percentile : float)
  : float :=
  let sorted := sort_ascending values in
  let index := percentile_index percentile (length sorted) in
  or_zero (F64.get sorted index).

(** [s.split(':')[0]] *)
Fixpoint before_colon (s : string) : string :=
  match s with
  | EmptyString => ""
  | String c s' => if Ascii.eqb c ":" then "" else String c (before_colon s')
  end.

(** [errorTypes[key] = (errorTypes[key] || 0) + 1], the keys kept in the
    order of their first insertion. *)
Fixpoint count_key (key : string) (errorTypes : list (string * Z))
  : list (string * Z) :=
  match errorTypes with
  | [] => [(key, 1)]
  | (k, n) :: rest =>
      if String.eqb k key then (k, n + 1) :: rest
      else (k, n) :: count_key key rest
  end.

Definition error_key (e : ErrorEntry) : string :=
  match before_colon (error e) with
  | "" => error e
  | k => k
  end.

(** [`${label}${x.toFixed(2)}${unit}`] *)
Definition line (label : string) (x : float) (unit : string) : option string :=
  (fun digits => label +:+ digits +:+ unit) <$> F64.toFixed x 2.

(** The lines of the response-time section. *)
Record ResponseTimeLines : Type := mkResponseTimeLines {
  average : option string;
  minimum : option string;
  maximum : option string;
  percentile_50 : option string;
  percentile_90 : option string;
  percentile_95 : option string;
  percentile_99 : option string
}.

(** What [printStatistics] prints, line by line (the rules, the heading, the
    target and the empty lines apart).  The duration is kept as a number:
    its line shows [formatDuration] of it.  A line is [None] where
    [toFixed] is not modelled. *)
Record Report : Type := mkReport {
  total_duration : float;
  total_requests : string;
  successful : string;
  failed : string;
  success_rate : option string;
  requests_per_second : option string;
  response_time_statistics : option ResponseTimeLines;
  error_summary : list string
}.

Definition printStatistics (s : Stats.t) : Report :=
  let duration := (Stats.endTime s - Stats.startTime s)%float in
  let avgResponseTime :=
    if 0 <? Stats.successfulRequests s
    then (Stats.totalResponseTime s / F64.of_Z (Stats.successfulRequests s))%float
    else 0%float in
  let successRate :=
    (F64.of_Z (Stats.successfulRequests s) / F64.of_Z (Stats.totalRequests s)
     * 100)%float in
  let requestsPerSecond :=
    (F64.of_Z (Stats.totalRequests s) / (duration / 1000))%float in
  {| total_duration := duration;
     total_requests :=
       "Total Requests: " +:+ Num.to_string (Int (Stats.totalRequests s));
     successful :=
       "Successful: " +:+ Num.to_string (Int (Stats.successfulRequests s));
     failed := "Failed: " +:+ Num.to_string (Int (Stats.failedRequests s));
     success_rate := line "Success Rate: " successRate "%";
     requests_per_second := line "Requests/Second: " requestsPerSecond "";
     response_time_statistics :=
       if 0 <? Stats.successfulRequests s then
         let times := Stats.responseTimes s in
         let p50 := calculatePercentile times 50 in
         (* from here on [stats.responseTimes] is the sorted array *)
         let times := sort_ascending times in
         let p90 := calculatePercentile times 90 in
         let times := sort_ascending times in
         let p95 := calculatePercentile times 95 in
         let times := sort_ascending times in
         let p99 := calculatePercentile times 99 in
         Some {| average := line "  Average: " avgResponseTime "ms";
                 minimum := line "  Minimum: " (Stats.minResponseTime s) "ms";
                 maximum := line "  Maximum: " (Stats.maxResponseTime s) "ms";
                 percentile_50 := line "  50th Percentile: " p50 "ms";
                 percentile_90 := line "  90th Percentile: " p90 "ms";
                 percentile_95 := line "  95th Percentile: " p95 "ms";
                 percentile_99 := line "  99th Percentile: " p99 "ms" |}
       else None;
     error_summary :=
       let errorTypes :=
         foldl (fun errorTypes e => count_key (error_key e) errorTypes) []
               (Stats.errors s) in
       (fun entry => "  " +:+ fst entry +:+ ": "
                     +:+ Num.to_string (Int (snd entry)) +:+ " occurrences")
         <$> errorTypes |}.

(* ===================================================================== *)
(** * The batch scheduler *)
(* ===================================================================== *)

(** What a run does, in order: the lines it logs (level and message, without
    the time stamp), the batches it issues, the pauses between them.  The
    lines that show a measured duration are left out. *)
Inductive Event : Type :=
| Log (level message : string)
| Batch (batchNumber : Z) (batchSize : num) (requestIds : list num)
| Sleep (ms : num).

(** The line logged before a batch is dispatched. *)
Definition starting (batch : Z) (numBatches currentBatchSize : num) : Event :=
  Log "INFO" ("Starting batch " +:+ Num.to_string (Int (batch + 1))
              +:+ "/" +:+ Num.to_string numBatches +:+ " with "
              +:+ Num.to_string currentBatchSize +:+ " requests").

(** The delay after a batch: none after the last one, none when the
    configured delay is not positive. *)
Definition pause (c : Config) (batch : Z) (numBatches : num) : list Event :=
  if Num.ltb (Int batch) (Num.sub numBatches (Int 1))
     && Num.gtb (delayBetweenBatches c) (Int 0)
  then [Log "INFO" ("Waiting " +:+ Num.to_string (delayBetweenBatches c)
                    +:+ "ms before next batch...");
        Sleep (delayBetweenBatches c)]
  else [].

(** [Math.min(requestsPerBatch, CONFIG.totalRequests - batch * requestsPerBatch)] *)
Definition currentBatchSize (c : Config) (requestsPerBatch : num) (batch : Z)
  : num :=
  let remainingRequests :=
    Num.sub (totalRequests c) (Num.mul (Int batch) requestsPerBatch) in
  Num.min requestsPerBatch remainingRequests.

(** The loop of [runStressTest] from iteration [batch] on.  [fuel] bounds the
    number of iterations; the result is [None] when it does not suffice, or
    when a batch has no end. *)
Fixpoint batch_loop (fuel : nat) (w : World) (c : Config)
    (numBatches requestsPerBatch : num) (batch : Z) (s : Stats.t)
  : option (Stats.t * list Event) :=
  match fuel with
  | O => None
  | S fuel =>
      if Num.ltb (Int batch) numBatches then
        let size := currentBatchSize c requestsPerBatch batch in
        if Num.leb size (Int 0) then Some (s, []) (* break *)
        else
          '(ids, _, s) ← executeConcurrentRequests w batch size s;
          '(s, events) ← batch_loop fuel w c numBatches requestsPerBatch
                                    (batch + 1) s;
          Some (s, starting batch numBatches size :: Batch batch size ids
                     :: pause c batch numBatches ++ events)
      else Some (s, [])
  end.

Definition set_startTime (v : float) (s : Stats.t) : Stats.t :=
  Stats.mk (Stats.totalRequests s) (Stats.successfulRequests s)
           (Stats.failedRequests s) (Stats.totalResponseTime s)
           (Stats.minResponseTime s) (Stats.maxResponseTime s)
           (Stats.responseTimes s) v (Stats.endTime s) (Stats.errors s).
Definition set_endTime (v : float) (s : Stats.t) : Stats.t :=
  Stats.mk (Stats.totalRequests s) (Stats.successfulRequests s)
           (Stats.failedRequests s) (Stats.totalResponseTime s)
           (Stats.minResponseTime s) (Stats.maxResponseTime s)
           (Stats.responseTimes s) (Stats.startTime s) v (Stats.errors s).

(** The two numbers the loop is run with. *)
Definition numBatches (c : Config) : num :=
  Num.ceil_div (totalRequests c) (concurrentRequests c).
Definition requestsPerBatch (c : Config) : num :=
  Num.ceil_div (totalRequests c) (numBatches c).

(** The outcome of a run: the final statistics, what happened, and the
    report. *)
Record Run : Type := mkRun {
  final : Stats.t;
  trace : list Event;
  report : Report
}.

(** [runStressTest()], on the statistics [s] found at its start.  Nothing in
    the [try] block throws (a failed request is caught in [makeRequest]), so
    the [catch] with [process.exit(1)] is not reached. *)
Definition runStressTest (fuel : nat) (w : World) (c : Config) (s : Stats.t)
  : option Run :=
  let s := set_startTime (clock_start w) s in
  let executing :=
    Log "INFO" ("Executing " +:+ Num.to_string (numBatches c)
                +:+ " batches with ~" +:+ Num.to_string (requestsPerBatch c)
                +:+ " requests per batch") in
  '(s, events) ← batch_loop fuel w c (numBatches c) (requestsPerBatch c) 0 s;
  let s := set_endTime (clock_end w) s in
  Some {| final := s; trace := executing :: events;
          report := printStatistics s |}.

(** The sizes of the batches a run issued, and the identifiers of its
    requests, both in the order of dispatch. *)
Definition batch_sizes (events : list Event) : list num :=
  omap (fun e => match e with Batch _ size _ => Some size | _ => None end)
       events.

Definition dispatched_ids (events : list Event) : list num :=
  events ≫= (fun e => match e with Batch _ _ ids => ids | _ => [] end).

(** The sum of a list of sizes that are all integers. *)
Definition sum_sizes (sizes : list num) : num :=
  foldr Num.add (Int 0) sizes.

(* ===================================================================== *)
(** * The script as a whole *)
(* ===================================================================== *)

(** The axios instance [api].  It is created when the module is loaded, from
    the values [CONFIG] holds then. *)
Record Client : Type := mkClient {
  client_baseURL : option string;
  client_timeout : num;
  client_headers : list (string * string)
}.

Definition api (c : Config) : Client :=
  {| client_baseURL := baseURL c;
     client_timeout := timeout c;
     client_headers := [("User-Agent", "Stress-Test-Script/1.0")] |}.

(** The lines [runStressTest] prints about the configuration before it
    starts. *)
Definition banner (c : Config) : list string :=
  ["Target: " +:+ default "undefined" (baseURL c) +:+ endpoint c;
   "Concurrent Requests: " +:+ Num.to_string (concurrentRequests c);
   "Total Requests: " +:+ Num.to_string (totalRequests c);
   "Batch Delay: " +:+ Num.to_string (delayBetweenBatches c) +:+ "ms";
   "Timeout: " +:+ Num.to_string (timeout c) +:+ "ms"].

(** How the script ends when it is run as the main module: [--help] exits;
    otherwise the run is made with the client built at load time and the
    configuration [parseArgs] leaves. *)
Inductive Ended : Type :=
| Exited (code : Z)
| Completed (client : Client) (warnings printed : list string) (run : Run).

Definition main (fuel : nat) (w : World) (env : Env) (argv : list string)
  : option Ended :=
  (* the module is loaded *)
  let c := CONFIG env in
  let s := stats in
  let client := api c in
  (* [parseArgs(); runStressTest()] *)
  match parseArgs c argv with
  | Exit code => Some (Exited code)
  | Args c warnings =>
      Completed client warnings (banner c) <$> runStressTest fuel w c s
  end.

(* ===================================================================== *)
(** * The service *)
(* ===================================================================== *)

Module Service.

#[local] Unset Elimination Schemes.
Inductive Json : Type :=
| JString (s : string)
| JNumber (x : float)
| JArray (items : list Json)
| JObject (fields : list (string * Json)).
#[local] Set Elimination Schemes.

(** A field of an object; [None] when the value is not an object or has no
    such field. *)
Fixpoint assoc {A : Type} (key : string) (l : list (string * A))
  : option A :=
  match l with
  | [] => None
  | (k, v) :: l' => if String.eqb k key then Some v else assoc key l'
  end.

Definition field (name : string) (j : Json) : option Json :=
  match j with
  | JObject fields => assoc name fields
  | _ => None
  end.

Record Request : Type := mkRequest {
  method : string;
  path : string
}.

(** The response object: the status code (200 until [status] is called)
    and the body once [json] has sent it. *)
Record Response : Type := mkResponse {
  statusCode : Z;
  body : option Json
}.

Definition res : Response := {| statusCode := 200; body := None |}.

(** [res.status(code)] and [res.json(value)] *)
Definition status (code : Z) (r : Response) : Response :=
  {| statusCode := code; body := body r |}.
Definition json (value : Json) (r : Response) : Response :=
  {| statusCode := statusCode r; body := Some value |}.

(** What a handler reads from the process: [new Date().toISOString()],
    [process.uptime()] and [process.env.NODE_ENV]. *)
Record Process : Type := mkProcess {
  now : string;
  uptime : float;
  NODE_ENV : option string
}.

(** [app.get('/health', ...)] *)
Definition health (p : Process) (req : Request) (r : Response) : Response :=
  json (JObject [("status", JString "OK");
                 ("timestamp", JString (now p));
                 ("uptime", JNumber (uptime p));
                 ("environment",
                  JString (str_or_else (NODE_ENV p) "development"))])
       (status 200 r).

(** [app.get('/pi', ...)].  [toFixed(9)] of a number below 10^21 is a
    string; the [default] is never used. *)
Definition pi (p : Process) (req : Request) (r : Response) : Response :=
  let pi := Math_PI in
  let piFirst10Digits := default "" (F64.toFixed pi 9) in
  json (JObject [("pi", JString piFirst10Digits);
                 ("digits", JNumber 10);
                 ("timestamp", JString (now p))])
       r.

(** [app.get('/', ...)] *)
Definition root (p : Process) (req : Request) (r : Response) : Response :=
  json (JObject [("message",
                  JString "Monitoring API with New Relic Integration");
                 ("version", JString "1.0.0");
                 ("endpoints",
                  JObject [("health", JString "/health");
                           ("pi", JString "/pi")])])
       r.

(** The last middleware: the 404 handler. *)
Definition not_found (p : Process) (req : Request) (r : Response)
  : Response :=
  json (JObject [("error", JString "Endpoint not found");
                 ("availableEndpoints",
                  JArray [JString "/health"; JString "/pi"; JString "/"])])
       (status 404 r).

(** The routes in the order they are registered.  A route matches a GET of
    exactly its path (Express' case-insensitive and trailing-slash matching
    is left out). *)
Definition routes
  : list (string * (Process -> Request -> Response -> Response)) :=
  [("/health", health); ("/pi", pi); ("/", root)].

Definition app (p : Process) (req : Request) : Response :=
  let matching :=
    if String.eqb (method req) "GET" then assoc (path req) routes
    else None in
  match matching with
  | Some handler => handler p req res
  | None => not_found p req res
  end.

End Service.


(* ===================================================================== *)
(** * Vocabulary of the properties *)
(* ===================================================================== *)

(** The counters agree: every request counted is a success or a failure. *)
Definition counts_agree (s : Stats.t) : Prop :=
  Stats.totalRequests s = Stats.successfulRequests s + Stats.failedRequests s.

(** The ceiling of [a / b] for [0 <= a] and [0 < b], as arithmetic writes
    it. *)
Definition ceiling (a b : Z) : Z := (a + b - 1) / b.

(** The batch sizes the ceiling formula describes:
    [numBatches = ceil(total / concurrency)] batches of
    [requestsPerBatch = ceil(total / numBatches)] requests, the last ones cut
    to what remains. *)
Definition formula_sizes (concurrency total : Z) : list Z :=
  let numBatches := ceiling total concurrency in
  let requestsPerBatch := ceiling total numBatches in
  filter (fun size => 0 < size)
         ((fun b => Z.min requestsPerBatch (total - b * requestsPerBatch))
            <$> seqZ 0 numBatches).

(** Chunking by the concurrency level: full batches of [concurrency]
    requests, then one batch with the remainder. *)
Definition naive_chunks (concurrency total : Z) : list Z :=
  replicate (Z.to_nat (total / concurrency)) concurrency
  ++ (if total mod concurrency =? 0 then [] else [total mod concurrency]).

(** Identifiers that never decrease along the order of dispatch. *)
Definition monotone (ids : list num) : Prop :=
  forall (i j : nat) (a b : num),
    (i < j)%nat -> ids !! i = Some a -> ids !! j = Some b -> Num.leb a b = true.

(** A list of numbers in ascending order: every element is at most each of
    the elements behind it. *)
Definition ascending (l : list float) : Prop :=
  StronglySorted (fun a b => (a <=? b)%float = true) l.

(** What a comparator says about [a] and [b] is true of them for the order
    [le]: [b] is below [a] when the comparator is positive, [a] is below [b]
    when it is not. *)
Definition agrees {A : Type} (cmp : A -> A -> float) (le : A -> A -> Prop)
    (a b : A) : Prop :=
  if (0 <? cmp a b)%float then le b a else le a b.

(** A value that [v || 0] leaves as it is: any number but NaN and [-0]. *)
Definition kept_by_or_zero (v : float) : bool :=
  match Prim2SF v with
  | S754_nan | S754_zero true => false
  | _ => true
  end.

(** A finite number, read on its sign, mantissa and exponent. *)
Definition sf_finite (x : spec_float) : bool :=
  match x with
  | S754_zero _ | S754_finite _ _ _ => true
  | _ => false
  end.

Definition finite (a : float) : bool := sf_finite (Prim2SF a).

(** A finite number other than [-0]: what an elapsed time is. *)
Definition ordinary (v : float) : bool := finite v && kept_by_or_zero v.

(** [Math.ceil(a / b)] in the integer fragment and on doubles give the same
    number, for every [a] up to [amax] and every [b] up to [bmax]. *)
Definition ceil_div_agrees (amax bmax : nat) : bool :=
  forallb (fun a =>
             forallb (fun b =>
                        PrimFloat.Leibniz.eqb
                          (F64.of_num (Num.ceil_div (Int a) (Int b)))
                          (F64.Math_ceil (F64.of_Z a / F64.of_Z b)%float))
                     (seqZ 0 (Z.of_nat bmax + 1)))
          (seqZ 0 (Z.of_nat amax + 1)).

(** For every whole percentile from 1 to [pmax] and every count from 1 to
    [nmax], [ceil(percentile / 100 * count) - 1] is an index below the
    count. *)
Definition index_in_range (pmax nmax : nat) : bool :=
  forallb (fun p =>
             forallb (fun n =>
                        match F64.index (percentile_index (F64.of_Z p)
                                                          (Z.to_nat n)) with
                        | Some i => i <? n
                        | None => false
                        end)
                     (seqZ 1 (Z.of_nat nmax)))
          (seqZ 1 (Z.of_nat pmax)).

(** The configuration that [--concurrent k --total t] gives on top of the
    defaults. *)
Definition configured (k t : Z) : Config :=
  set_totalRequests (Int t) (set_concurrentRequests (Int k) (CONFIG ∅)).

(** A world for the examples: every request is answered with status 200
    after 12.5 ms, the requests of a batch settle in the order of their
    dispatch, and the run takes two seconds. *)
Definition steady : World :=
  {| net := fun _ _ => Resolved 200 12.5%float;
     settle := fun _ offsets => offsets;
     settle_perm := fun _ offsets => reflexivity offsets;
     clock_start := 1000.5%float;
     clock_end := 3000.5%float |}.


(** An integer well within the range where doubles are exact: the scheduler
    adds and multiplies such numbers without rounding. *)
Definition safe (z : Z) : bool := Z.abs z <=? 2 ^ 52.

(** A number as [parseInt] gives it: a safe integer or NaN. *)
Definition parsed (a : num) : bool :=
  match a with
  | Int z => safe z
  | NaN => true
  | _ => false
  end.

(** A number above zero. *)
Definition above_zero (a : num) : bool := Num.gtb a (Int 0).

(** The numbers of the batches a run issued and the pauses it made, in
    order. *)
Definition batch_numbers (events : list Event) : list Z :=
  omap (fun e => match e with Batch b _ _ => Some b | _ => None end) events.

Definition sleeps (events : list Event) : list num :=
  omap (fun e => match e with Sleep ms => Some ms | _ => None end) events.

(** What iteration [b] of the loop does when its batch is not empty, for [t]
    requests in all, [n] batches and [r] requests per batch. *)
Definition iteration (c : Config) (t n r b : Z) : list Event :=
  let size := Z.min r (t - b * r) in
  starting b (Int n) (Int size)
    :: Batch b (Int size) (request_id b (Int size) <$> seqZ 0 size)
    :: pause c b (Int n).

(** A number of iterations that is enough for the loop of a run. *)
Definition enough_fuel (c : Config) : nat :=
  match totalRequests c with
  | Int t => S (Z.to_nat t)
  | _ => 1
  end.

(** The time measured for a request. *)
Definition elapsed_time (o : Outcome) : float :=
  match o with
  | Resolved _ elapsed | Rejected _ elapsed => elapsed
  end.

(** Of a sequence of requests that settled: the times of those that were
    answered, and the entries of those that failed, in order. *)
Definition resolved_times (completions : list (num * Outcome)) : list float :=
  omap (fun c => match snd c with
                 | Resolved _ elapsed => Some elapsed
                 | Rejected _ _ => None
                 end) completions.

Definition rejections (completions : list (num * Outcome)) : list ErrorEntry :=
  omap (fun c => match snd c with
                 | Resolved _ _ => None
                 | Rejected message elapsed => Some (mkError (fst c) message elapsed)
                 end) completions.

(** The lists of the statistics have one entry per request counted, and the
    total is the sum of the recorded times, added up in their order. *)
Definition consistent (s : Stats.t) : Prop :=
  Z.of_nat (length (Stats.responseTimes s)) = Stats.successfulRequests s
  /\ Z.of_nat (length (Stats.errors s)) = Stats.failedRequests s
  /\ Stats.totalResponseTime s
     = foldl (fun total x => (total + x)%float) 0%float (Stats.responseTimes s).

(** A world that differs from [steady] in the order in which the requests of
    a batch settle: the last one dispatched settles first. *)
Definition reversed : World :=
  {| net := net steady;
     settle := fun _ offsets => reverse offsets;
     settle_perm := fun _ offsets => reverse_Permutation offsets;
     clock_start := clock_start steady;
     clock_end := clock_end steady |}.

(** A world where every other request of a batch runs into the time-out. *)
Definition flaky : World :=
  {| net := fun _ i => if Z.even i then Resolved 200 12.5%float
                       else Rejected "timeout of 5000ms exceeded" 5000.5%float;
     settle := fun _ offsets => reverse offsets;
     settle_perm := fun _ offsets => reverse_Permutation offsets;
     clock_start := clock_start steady;
     clock_end := clock_end steady |}.

(** The minimum and the maximum are numbers, and every recorded time lies
    between them. *)
Definition bounded_times (s : Stats.t) : Prop :=
  is_nan (Stats.minResponseTime s) = false
  /\ is_nan (Stats.maxResponseTime s) = false
  /\ Forall (fun x => (Stats.minResponseTime s <=? x)%float = true
                      /\ (x <=? Stats.maxResponseTime s)%float = true)
            (Stats.responseTimes s).

(** The options [parseArgs] knows. *)
Definition known_options : list string :=
  ["--help"; "-h"; "--concurrent"; "--total"; "--delay"; "--timeout";
   "--base-url"; "--verbose"].

(** One step of the loop of [parseArgs]: what [arg] does to the
    configuration [c], and the configuration [c1] and the arguments [rest1]
    the loop goes on with. *)
Inductive Step (c : Config) (arg : string) (c1 : Config)
    (ws ws1 : list string) : Prop :=
| step_concurrent (v : option string) :
    arg = "--concurrent" -> c1 = set_concurrentRequests (parseInt v) c ->
    ws = ws1 -> Step c arg c1 ws ws1
| step_total (v : option string) :
    arg = "--total" -> c1 = set_totalRequests (parseInt v) c ->
    ws = ws1 -> Step c arg c1 ws ws1
| step_delay (v : option string) :
    arg = "--delay" -> c1 = set_delayBetweenBatches (parseInt v) c ->
    ws = ws1 -> Step c arg c1 ws ws1
| step_timeout (v : option string) :
    arg = "--timeout" -> c1 = set_timeout (parseInt v) c ->
    ws = ws1 -> Step c arg c1 ws ws1
| step_base_url (v : option string) :
    arg = "--base-url" -> c1 = set_baseURL v c ->
    ws = ws1 -> Step c arg c1 ws ws1
| step_verbose :
    arg = "--verbose" -> c1 = set_verbose true c ->
    ws = ws1 -> Step c arg c1 ws ws1
| step_unknown :
    arg ∉ known_options -> String.prefix "--" arg = true -> c1 = c ->
    ws = ("Unknown option: " +:+ arg) :: ws1 -> Step c arg c1 ws ws1
| step_ignored :
    arg ∉ known_options -> String.prefix "--" arg = false -> c1 = c ->
    ws = ws1 -> Step c arg c1 ws ws1.


(** A setting changes only if its flag is among the arguments; the endpoint
    never changes, and [verbose] is never switched off. *)
Definition changed_by_flags_only (args : list string) (c c' : Config) : Prop :=
  endpoint c' = endpoint c
  /\ ("--concurrent" ∉ args -> concurrentRequests c' = concurrentRequests c)
  /\ ("--total" ∉ args -> totalRequests c' = totalRequests c)
  /\ ("--delay" ∉ args -> delayBetweenBatches c' = delayBetweenBatches c)
  /\ ("--timeout" ∉ args -> timeout c' = timeout c)
  /\ ("--base-url" ∉ args -> baseURL c' = baseURL c)
  /\ ("--verbose" ∉ args -> verbose c' = verbose c)
  /\ (verbose c = true -> verbose c' = true).


(** The object [errorTypes] that [printStatistics] builds from the errors. *)
Definition errorTypes (errors : list ErrorEntry) : list (string * Z) :=
  foldl (fun errorTypes e => count_key (error_key e) errorTypes) [] errors.

(** The names that every object inherits from [Object.prototype].  Looking
    one of them up in the fresh object [errorTypes] finds the inherited
    value, not [undefined]; the association list stands for the object when
    no key is among them. *)
Definition inherited_names : list string :=
  ["constructor"; "__defineGetter__"; "__defineSetter__"; "hasOwnProperty";
   "__lookupGetter__"; "__lookupSetter__"; "isPrototypeOf";
   "propertyIsEnumerable"; "toString"; "valueOf"; "__proto__";
   "toLocaleString"].

(** A key that the fresh object does not inherit. *)
Definition own_key (key : string) : bool :=
  negb (existsb (String.eqb key) inherited_names).

(** The sum of the counts of an association list. *)
Definition occurrences (errorTypes : list (string * Z)) : Z :=
  foldr (fun entry total => snd entry + total) 0 errorTypes.

(** [result.success] *)
Definition success (r : Result) : bool :=
  match r with
  | Success _ _ => true
  | Failure _ _ => false
  end.

(** The number of results of a batch that are successes, and that are
    failures. *)
Definition successes (results : list Result) : Z :=
  Z.of_nat (length (List.filter success results)).
Definition failures (results : list Result) : Z :=
  Z.of_nat (length (List.filter (fun r => negb (success r)) results)).

(** The paths a JSON value lists: the strings of an array, or of the fields
    of an object. *)
Definition advertised (j : Service.Json) : list string :=
  match j with
  | Service.JArray items =>
      omap (fun item => match item with Service.JString s => Some s | _ => None end)
           items
  | Service.JObject fields =>
      omap (fun entry => match snd entry with Service.JString s => Some s | _ => None end)
           fields
  | _ => []
  end.

(** A number other than NaN. *)
Definition not_NaN (v : float) : bool := negb (is_nan v).

(** The value of a mantissa [m] at an exponent [e], as an integer: it is
    counted in units of [2^-bias], which is below every exponent that the
    operations of binary64 go through. *)
Definition bias : Z := 2200.

Definition val (m e : Z) : Z := m * 2 ^ (e + bias).

(** A double that is the positive integer [c]. *)
Definition represents (x : spec_float) (c : Z) : Prop :=
  exists m e,
    x = S754_finite false m e /\ bounded prec emax m e = true
    /\ val (Z.pos m) e = val c 0.


(* ===================================================================== *)
(** * The definitions on concrete inputs *)
(* ===================================================================== *)

Example parseInt_examples :
  parseInt (Some "0") = Int 0 /\ parseInt (Some "250ms") = Int 250
  /\ parseInt (Some " -7") = Int (-7) /\ parseInt (Some "0x1F") = Int 31
  /\ parseInt (Some "ten") = NaN /\ parseInt (Some "") = NaN
  /\ parseInt None = NaN.
Proof. repeat split. Qed.

Example CONFIG_defaults :
  CONFIG ∅
  = {| baseURL := Some "http://localhost:3000"; endpoint := "/pi";
       concurrentRequests := Int 10; totalRequests := Int 100;
       delayBetweenBatches := Int 1000; timeout := Int 5000;
       verbose := false |}.
Proof. reflexivity. Qed.

Example parseArgs_examples :
  resolve ∅ ["--concurrent"; "5"; "--total"; "12"] = Args (configured 5 12) []
  /\ resolve ∅ ["--verbose"; "--fast"; "--timeout"]
     = Args (set_timeout NaN (set_verbose true (CONFIG ∅)))
            ["Unknown option: --fast"]
  /\ resolve ∅ ["--total"; "7"; "-h"; "--total"; "9"] = Exit 0.
Proof. repeat split. Qed.

Example Math_ceil_examples :
  F64.Math_ceil 2.25 = 3%float /\ F64.Math_ceil 3 = 3%float
  /\ F64.Math_ceil (-2.5) = (-2)%float /\ F64.Math_ceil (-0.5) = (-0)%float
  /\ F64.Math_ceil (12 / 5) = 3%float /\ F64.Math_ceil (0 / 0) = nan
  /\ F64.Math_ceil (7 / 100 * 100) = 8%float.
Proof. repeat split. Qed.

Example toFixed_examples :
  F64.toFixed 0.125 2 = Some "0.13" /\ F64.toFixed 2.5 0 = Some "3"
  /\ F64.toFixed 1234.5 2 = Some "1234.50" /\ F64.toFixed (-0.001953125) 2 = Some "-0.00"
  /\ F64.toFixed (0 / 0) 2 = Some "NaN" /\ F64.toFixed (1 / 0) 2 = Some "Infinity"
  /\ F64.toFixed (2 / 3) 4 = Some "0.6667".
Proof. repeat split. Qed.

Example sort_ascending_example :
  sort_ascending [50; 10.5; 40; 20; 30; 10.5; 0; -1.5]%float
  = [-1.5; 0; 10.5; 10.5; 20; 30; 40; 50]%float.
Proof. reflexivity. Qed.

(** Ten requests, four at a time, all answered in 12.5 ms during a run of two
    seconds. *)
Example steady_run :
  (fun r => (batch_sizes (trace r), final r, report r))
    <$> runStressTest 4 steady (configured 4 10) stats
  = Some
      ([Int 4; Int 4; Int 2],
       {| Stats.totalRequests := 10; Stats.successfulRequests := 10;
          Stats.failedRequests := 0; Stats.totalResponseTime := 125;
          Stats.minResponseTime := 12.5; Stats.maxResponseTime := 12.5;
          Stats.responseTimes := replicate 10 12.5%float;
          Stats.startTime := 1000.5; Stats.endTime := 3000.5;
          Stats.errors := [] |},
       {| total_duration := 2000;
          total_requests := "Total Requests: 10";
          successful := "Successful: 10";
          failed := "Failed: 0";
          success_rate := Some "Success Rate: 100.00%";
          requests_per_second := Some "Requests/Second: 5.00";
          response_time_statistics :=
            Some {| average := Some "  Average: 12.50ms";
                    minimum := Some "  Minimum: 12.50ms";
                    maximum := Some "  Maximum: 12.50ms";
                    percentile_50 := Some "  50th Percentile: 12.50ms";
                    percentile_90 := Some "  90th Percentile: 12.50ms";
                    percentile_95 := Some "  95th Percentile: 12.50ms";
                    percentile_99 := Some "  99th Percentile: 12.50ms" |};
          error_summary := [] |}).
Proof. vm_compute. reflexivity. Qed.

(** Three failures of two kinds are grouped by what precedes the first
    colon. *)
Example error_summary_example :
  error_summary
    (printStatistics
       (settle_all [(Int 1, Rejected "timeout of 5000ms exceeded" 5000.5);
                    (Int 2, Rejected "connect ECONNREFUSED: 127.0.0.1:3000" 1.5);
                    (Int 3, Rejected "timeout of 5000ms exceeded" 5000.25)]
                   stats))
  = ["  timeout of 5000ms exceeded: 2 occurrences";
     "  connect ECONNREFUSED: 1 occurrences"].
Proof. reflexivity. Qed.

(* ===================================================================== *)
(** * Properties of the configuration *)
(* ===================================================================== *)


(* ===================================================================== *)
(** * Properties of the request executor *)
(* ===================================================================== *)

Lemma makeRequest_counts (requestId : num) (o : Outcome) (s : Stats.t) :
  let s' := fst (makeRequest requestId o s) in
  Stats.totalRequests s' = Stats.totalRequests s + 1
  /\ (Stats.successfulRequests s' = Stats.successfulRequests s + 1
      /\ Stats.failedRequests s' = Stats.failedRequests s
      \/ Stats.successfulRequests s' = Stats.successfulRequests s
         /\ Stats.failedRequests s' = Stats.failedRequests s + 1).
Proof. destruct o; simpl; auto. Qed.

Lemma makeRequest_counts_agree (requestId : num) (o : Outcome) (s : Stats.t) :
  counts_agree s -> counts_agree (fst (makeRequest requestId o s)).
Proof.
  unfold counts_agree. intros H.
  destruct (makeRequest_counts requestId o s) as [Ht [[Hs Hf] | [Hs Hf]]];
    rewrite Ht, Hs, Hf; lia.
Qed.

Lemma settle_all_counts_agree (completions : list (num * Outcome)) (s : Stats.t) :
  counts_agree s -> counts_agree (settle_all completions s).
Proof.
  revert s. induction completions as [| [requestId o] completions IH];
    intros s H; simpl.
  - exact H.
  - apply IH, makeRequest_counts_agree, H.
Qed.

Lemma executeConcurrentRequests_counts_agree w batchNumber batchSize s ids results s' :
  executeConcurrentRequests w batchNumber batchSize s = Some (ids, results, s') ->
  counts_agree s -> counts_agree s'.
Proof.
  unfold executeConcurrentRequests. intros Hrun Hs.
  destruct (offsets batchSize) as [ofs |]; simpl in Hrun; [| discriminate].
  injection Hrun as _ _ <-. now apply settle_all_counts_agree.
Qed.

Lemma batch_loop_S fuel w c numBatches requestsPerBatch batch s :
  batch_loop (S fuel) w c numBatches requestsPerBatch batch s =
  if Num.ltb (Int batch) numBatches then
    let size := currentBatchSize c requestsPerBatch batch in
    if Num.leb size (Int 0) then Some (s, [])
    else
      match executeConcurrentRequests w batch size s with
      | Some (ids, _, s1) =>
          match batch_loop fuel w c numBatches requestsPerBatch (batch + 1) s1 with
          | Some (s2, events) =>
              Some (s2, starting batch numBatches size :: Batch batch size ids
                          :: pause c batch numBatches ++ events)
          | None => None
          end
      | None => None
      end
  else Some (s, []).
Proof.
  simpl. destruct (Num.ltb (Int batch) numBatches); [| reflexivity].
  destruct (Num.leb _ (Int 0)); [reflexivity |].
  destruct (executeConcurrentRequests w batch _ s) as [[[ids results] s1] |];
    [| reflexivity].
  simpl. now destruct (batch_loop fuel w c numBatches requestsPerBatch (batch + 1) s1)
    as [[s2 events] |].
Qed.

Lemma batch_loop_counts_agree fuel w c numBatches requestsPerBatch :
  forall batch s s' events,
    batch_loop fuel w c numBatches requestsPerBatch batch s = Some (s', events) ->
    counts_agree s -> counts_agree s'.
Proof.
  induction fuel as [| fuel IH]; intros batch s s' events Hrun Hs.
  - discriminate.
  - rewrite batch_loop_S in Hrun.
    destruct (Num.ltb (Int batch) numBatches); [| congruence].
    cbv zeta in Hrun.
    destruct (Num.leb _ (Int 0)); [congruence |].
    destruct (executeConcurrentRequests w batch _ s) as [[[ids results] s1] |] eqn:Hexec;
      [| discriminate].
    destruct (batch_loop fuel w c numBatches requestsPerBatch (batch + 1) s1)
      as [[s2 events2] |] eqn:Hrest; [| discriminate].
    injection Hrun as <- _.
    eapply IH; [exact Hrest |].
    eapply executeConcurrentRequests_counts_agree; eauto.
Qed.

(** Every request dispatched is counted once. *)
Lemma settle_all_total (completions : list (num * Outcome)) (s : Stats.t) :
  Stats.totalRequests (settle_all completions s)
  = Stats.totalRequests s + Z.of_nat (length completions).
Proof.
  revert s. induction completions as [| [requestId o] completions IH];
    intros s.
  - simpl. lia.
  - change (settle_all ((requestId, o) :: completions) s)
      with (settle_all completions (fst (makeRequest requestId o s))).
    rewrite IH. destruct (makeRequest_counts requestId o s) as [-> _].
    rewrite length_cons. lia.
Qed.

Lemma executeConcurrentRequests_total w batchNumber batchSize s ids results s' :
  executeConcurrentRequests w batchNumber batchSize s = Some (ids, results, s') ->
  Stats.totalRequests s' = Stats.totalRequests s + Z.of_nat (length ids).
Proof.
  unfold executeConcurrentRequests. intros Hrun.
  destruct (offsets batchSize) as [ofs |]; simpl in Hrun; [| discriminate].
  injection Hrun as <- _ <-. rewrite settle_all_total, !length_fmap.
  now rewrite (Permutation_length (settle_perm w batchNumber ofs)).
Qed.

Lemma dispatched_ids_iteration (c : Config) (batch : Z) (numBatches size : num)
    (ids : list num) (events : list Event) :
  dispatched_ids (starting batch numBatches size :: Batch batch size ids
                    :: pause c batch numBatches ++ events)
  = (ids ++ dispatched_ids events)%list.
Proof.
  unfold dispatched_ids, starting, pause.
  destruct (_ && _); reflexivity.
Qed.

Lemma batch_loop_total fuel w c numBatches requestsPerBatch :
  forall batch s s' events,
    batch_loop fuel w c numBatches requestsPerBatch batch s = Some (s', events) ->
    Stats.totalRequests s'
    = Stats.totalRequests s + Z.of_nat (length (dispatched_ids events)).
Proof.
  induction fuel as [| fuel IH]; intros batch s s' events Hrun.
  - discriminate.
  - rewrite batch_loop_S in Hrun.
    destruct (Num.ltb (Int batch) numBatches);
      [| injection Hrun as <- <-; simpl; lia].
    cbv zeta in Hrun.
    destruct (Num.leb _ (Int 0)); [injection Hrun as <- <-; simpl; lia |].
    destruct (executeConcurrentRequests w batch _ s) as [[[ids results] s1] |] eqn:Hexec;
      [| discriminate].
    destruct (batch_loop fuel w c numBatches requestsPerBatch (batch + 1) s1)
      as [[s2 events2] |] eqn:Hrest; [| discriminate].
    injection Hrun as <- <-.
    rewrite dispatched_ids_iteration, length_app.
    rewrite (IH _ _ _ _ Hrest), (executeConcurrentRequests_total _ _ _ _ _ _ _ Hexec).
    lia.
Qed.

(** C4: a request that settles adds one to [totalRequests] and one to exactly
    one of [successfulRequests] and [failedRequests]; so
    [totalRequests = successfulRequests + failedRequests] holds after any
    number of requests have settled, in any order and with any outcomes, and
    in the statistics a run ends with, where [totalRequests] is the number of
    requests the run dispatched. *)
Theorem total_is_successful_plus_failed :
  (forall requestId o s,
      let s' := fst (makeRequest requestId o s) in
      Stats.totalRequests s' = Stats.totalRequests s + 1
      /\ (Stats.successfulRequests s' = Stats.successfulRequests s + 1
          /\ Stats.failedRequests s' = Stats.failedRequests s
          \/ Stats.successfulRequests s' = Stats.successfulRequests s
             /\ Stats.failedRequests s' = Stats.failedRequests s + 1))
  /\ (forall completions k, counts_agree (settle_all (take k completions) stats))
  /\ (forall fuel w c,
         from_option
           (fun r => counts_agree (final r)
                     /\ Stats.totalRequests (final r)
                        = Z.of_nat (length (dispatched_ids (trace r))))
           True (runStressTest fuel w c stats)).
Proof.
  split; [| split].
  - apply makeRequest_counts.
  - intros completions k. now apply settle_all_counts_agree.
  - intros fuel w c. unfold runStressTest.
    destruct (batch_loop fuel w c (numBatches c) (requestsPerBatch c) 0 _)
      as [[s events] |] eqn:Hloop; simpl; [| exact I].
    split.
    + apply batch_loop_counts_agree in Hloop; [exact Hloop | reflexivity].
    + apply batch_loop_total in Hloop. exact Hloop.
Qed.

(** C9: a request that fails leaves [totalResponseTime], [minResponseTime],
    [maxResponseTime] and [responseTimes] as they are (and
    [successfulRequests] and the two time stamps too); it adds one to
    [failedRequests] and to [totalRequests] and one entry to [errors]. *)
Theorem failed_request_leaves_response_times (requestId : num)
    (message : string) (elapsed : float) (s : Stats.t) :
  let s' := fst (makeRequest requestId (Rejected message elapsed) s) in
  (Stats.totalResponseTime s' = Stats.totalResponseTime s
   /\ Stats.minResponseTime s' = Stats.minResponseTime s
   /\ Stats.maxResponseTime s' = Stats.maxResponseTime s
   /\ Stats.responseTimes s' = Stats.responseTimes s)
  /\ (Stats.successfulRequests s' = Stats.successfulRequests s
      /\ Stats.startTime s' = Stats.startTime s
      /\ Stats.endTime s' = Stats.endTime s)
  /\ (Stats.failedRequests s' = Stats.failedRequests s + 1
      /\ Stats.errors s' = (Stats.errors s ++ [mkError requestId message elapsed])%list
      /\ Stats.totalRequests s' = Stats.totalRequests s + 1).
Proof. simpl. repeat split. Qed.


(* ===================================================================== *)
(** * Properties of the batch scheduler *)
(* ===================================================================== *)

(** ** Ceilings *)

Lemma ceil_bounds (a b : Z) :
  0 < b -> b * (- ((- a) / b) - 1) < a <= b * - ((- a) / b).
Proof.
  intros Hb.
  pose proof (Z.div_mod (- a) b ltac:(lia)) as Hdiv.
  pose proof (Z.mod_pos_bound (- a) b Hb) as Hmod.
  nia.
Qed.

Lemma ceil_is_ceiling (a b : Z) : 0 < b -> - ((- a) / b) = ceiling a b.
Proof.
  intros Hb. unfold ceiling.
  pose proof (ceil_bounds a b Hb) as Hc.
  apply Z.div_unique with (r := a + b - 1 - b * - ((- a) / b)); lia.
Qed.

Lemma ceil_div_Int (a b : Z) :
  0 < b -> Num.ceil_div (Int a) (Int b) = Int (ceiling a b).
Proof.
  intros Hb. unfold Num.ceil_div.
  destruct (Z.eqb_spec b 0) as [-> | _]; [lia |].
  now rewrite ceil_is_ceiling.
Qed.

Lemma ceiling_bounds (a b : Z) :
  0 < b -> b * (ceiling a b - 1) < a <= b * ceiling a b.
Proof. intros Hb. rewrite <- ceil_is_ceiling by exact Hb. now apply ceil_bounds. Qed.

(** The ceiling of the integer fragment is the one doubles compute, on all
    the quotients of numbers up to 150 by numbers up to 60 (zero included). *)
Lemma ceil_div_on_doubles : ceil_div_agrees 150 60 = true.
Proof. vm_compute. reflexivity. Qed.

(** With at least one request there is at least one batch, no more batches
    than requests, and the batches have room for every request. *)
Lemma numBatches_Int (c : Config) (k t : Z) :
  concurrentRequests c = Int k -> totalRequests c = Int t -> 1 <= k ->
  numBatches c = Int (ceiling t k).
Proof.
  intros Hk Ht Hk1. unfold numBatches. rewrite Hk, Ht. apply ceil_div_Int. lia.
Qed.

Lemma requestsPerBatch_Int (c : Config) (k t : Z) :
  concurrentRequests c = Int k -> totalRequests c = Int t -> 1 <= k -> 1 <= t ->
  requestsPerBatch c = Int (ceiling t (ceiling t k))
  /\ 1 <= ceiling t k <= t
  /\ 1 <= ceiling t (ceiling t k)
  /\ t <= ceiling t k * ceiling t (ceiling t k).
Proof.
  intros Hk Ht Hk1 Ht1.
  pose proof (ceiling_bounds t k ltac:(lia)) as Hn.
  assert (1 <= ceiling t k <= t) as Hn1 by nia.
  pose proof (ceiling_bounds t (ceiling t k) ltac:(lia)) as Hr.
  unfold requestsPerBatch. rewrite (numBatches_Int c k t Hk Ht Hk1), Ht.
  rewrite ceil_div_Int by lia.
  repeat split; try lia; nia.
Qed.

(** ** The sizes the loop issues *)

(** The sizes of the batches [b], [b + 1], ..., [n - 1] when every batch
    takes [r] requests of the [t] there are and a batch that would be empty
    is not issued. *)
Lemma planned_sizes_nil (t r b n : Z) :
  1 <= r -> t - b * r <= 0 ->
  filter (fun size => 0 < size)
         ((fun b' => Z.min r (t - b' * r)) <$> seqZ b (n - b)) = [].
Proof.
  intros Hr Hrem.
  remember (Z.to_nat (n - b)) as len eqn:Hlen.
  revert b Hrem Hlen. induction len as [| len IH]; intros b Hrem Hlen.
  - now rewrite seqZ_nil by lia.
  - rewrite seqZ_cons by lia. rewrite fmap_cons, filter_cons_False by nia.
    replace (Z.pred (n - b)) with (n - Z.succ b) by lia.
    apply IH; nia.
Qed.

Lemma planned_sizes_cons (t r b n : Z) :
  1 <= r -> b < n -> 0 < Z.min r (t - b * r) ->
  filter (fun size => 0 < size)
         ((fun b' => Z.min r (t - b' * r)) <$> seqZ b (n - b))
  = Z.min r (t - b * r)
      :: filter (fun size => 0 < size)
                ((fun b' => Z.min r (t - b' * r)) <$> seqZ (b + 1) (n - (b + 1))).
Proof.
  intros Hr Hb Hsize.
  rewrite seqZ_cons by lia. rewrite fmap_cons, filter_cons_True by exact Hsize.
  now replace (Z.pred (n - b)) with (n - (b + 1)) by lia.
Qed.

Lemma batch_sizes_pause (c : Config) (batch : Z) (numBatches : num)
    (events : list Event) :
  batch_sizes (pause c batch numBatches ++ events) = batch_sizes events.
Proof. unfold pause. now destruct (_ && _). Qed.

Lemma batch_sizes_iteration (c : Config) (batch : Z) (numBatches size : num)
    (ids : list num) (events : list Event) :
  batch_sizes (starting batch numBatches size :: Batch batch size ids
                 :: pause c batch numBatches ++ events)
  = size :: batch_sizes events.
Proof. rewrite <- (batch_sizes_pause c batch numBatches events). reflexivity. Qed.

Lemma currentBatchSize_Int (c : Config) (t r b : Z) :
  totalRequests c = Int t ->
  currentBatchSize c (Int r) b = Int (Z.min r (t - b * r)).
Proof.
  intros Ht. unfold currentBatchSize. rewrite Ht. simpl.
  destruct (Z.ltb_spec (t + - (b * r)) r); f_equal; lia.
Qed.

Lemma executeConcurrentRequests_Int (w : World) (batch size : Z) (s : Stats.t) :
  exists results s',
    executeConcurrentRequests w batch (Int size) s
    = Some (request_id batch (Int size) <$> seqZ 0 size, results, s').
Proof. unfold executeConcurrentRequests. simpl. eauto. Qed.

(** The loop ends within [n - b + 1] iterations and issues the planned
    sizes. *)
Lemma batch_loop_sizes (w : World) (c : Config) (t n r : Z) :
  totalRequests c = Int t -> 1 <= r ->
  forall (fuel : nat) (b : Z) (s : Stats.t),
    b <= n -> (Z.to_nat (n - b) < fuel)%nat ->
    exists s' events,
      batch_loop fuel w c (Int n) (Int r) b s = Some (s', events)
      /\ batch_sizes events
         = Int <$> filter (fun size => 0 < size)
                          ((fun b' => Z.min r (t - b' * r)) <$> seqZ b (n - b)).
Proof.
  intros Ht Hr. induction fuel as [| fuel IH]; intros b s Hb Hfuel; [lia |].
  rewrite batch_loop_S. cbv zeta. simpl Num.ltb.
  destruct (Z.ltb_spec b n) as [Hlt | Hge].
  - rewrite (currentBatchSize_Int c t r b Ht). simpl Num.leb.
    destruct (Z.leb_spec (Z.min r (t - b * r)) 0) as [Hle | Hpos].
    + exists s, []. split; [reflexivity |].
      rewrite planned_sizes_nil by lia. reflexivity.
    + destruct (executeConcurrentRequests_Int w b (Z.min r (t - b * r)) s)
        as (results & s1 & ->).
      destruct (IH (b + 1) s1 ltac:(lia) ltac:(lia)) as (s2 & events & -> & Hsizes).
      eexists _, _. split; [reflexivity |].
      rewrite planned_sizes_cons by lia.
      rewrite batch_sizes_iteration, Hsizes. reflexivity.
  - exists s, []. split; [reflexivity |].
    now rewrite seqZ_nil by lia.
Qed.

Lemma sum_sizes_Int_cons (size : Z) (sizes : list Z) (total : Z) :
  sum_sizes (Int <$> sizes) = Int total ->
  sum_sizes (Int <$> size :: sizes) = Int (size + total).
Proof. intros H. rewrite fmap_cons. unfold sum_sizes in *. simpl. now rewrite H. Qed.

Lemma planned_sizes_sum (t r n : Z) :
  1 <= r -> t <= n * r ->
  forall b, b <= n ->
    sum_sizes (Int <$> filter (fun size => 0 < size)
                 ((fun b' => Z.min r (t - b' * r)) <$> seqZ b (n - b)))
    = Int (Z.max 0 (t - b * r)).
Proof.
  intros Hr Hroom b Hb.
  remember (Z.to_nat (n - b)) as len eqn:Hlen.
  revert b Hb Hlen. induction len as [| len IH]; intros b Hb Hlen.
  - rewrite seqZ_nil by lia. simpl. f_equal. nia.
  - destruct (Z.lt_ge_cases 0 (Z.min r (t - b * r))) as [Hpos | Hle].
    + rewrite planned_sizes_cons by lia.
      rewrite (sum_sizes_Int_cons _ _ _ (IH (b + 1) ltac:(lia) ltac:(lia))).
      f_equal. nia.
    + rewrite planned_sizes_nil by lia. simpl. f_equal. lia.
Qed.

Lemma formula_sizes_sum (k t : Z) :
  1 <= k -> 0 <= t -> sum_sizes (Int <$> formula_sizes k t) = Int t.
Proof.
  intros Hk Ht. unfold formula_sizes. cbv zeta.
  destruct (Z.eq_dec t 0) as [-> | Hnz].
  - replace (ceiling 0 k) with 0; [reflexivity |].
    unfold ceiling. symmetry. apply Z.div_small. lia.
  - pose proof (ceiling_bounds t k ltac:(lia)) as Hn.
    assert (1 <= ceiling t k) as Hn1 by nia.
    pose proof (ceiling_bounds t (ceiling t k) ltac:(lia)) as Hr.
    assert (1 <= ceiling t (ceiling t k)) as Hr1 by nia.
    pose proof (planned_sizes_sum t (ceiling t (ceiling t k)) (ceiling t k)
                  Hr1 ltac:(lia) 0 ltac:(lia)) as Hsum.
    rewrite Z.sub_0_r in Hsum. rewrite Hsum. f_equal. lia.
Qed.

(** A run on [k >= 1] requests at a time and [t >= 0] requests in all ends,
    and the batches it issues have the sizes of the ceiling formula. *)
Lemma runStressTest_sizes (w : World) (c : Config) (s : Stats.t) (k t : Z)
    (fuel : nat) :
  concurrentRequests c = Int k -> totalRequests c = Int t ->
  1 <= k -> 0 <= t -> (Z.to_nat (ceiling t k) < fuel)%nat ->
  exists r, runStressTest fuel w c s = Some r
            /\ batch_sizes (trace r) = Int <$> formula_sizes k t.
Proof.
  intros Hk Ht Hk1 Ht0 Hfuel. unfold runStressTest.
  destruct (Z.eq_dec t 0) as [-> | Hnz].
  - rewrite (numBatches_Int c k 0 Hk Ht Hk1).
    assert (ceiling 0 k = 0) as Hzero
        by (unfold ceiling; apply Z.div_small; lia).
    rewrite Hzero. destruct fuel as [| fuel]; [lia |].
    rewrite batch_loop_S. simpl. eexists. split; [reflexivity |].
    unfold formula_sizes. now rewrite Hzero.
  - destruct (requestsPerBatch_Int c k t Hk Ht Hk1 ltac:(lia))
      as (Hr & Hn1 & Hr1 & Hroom).
    rewrite (numBatches_Int c k t Hk Ht Hk1), Hr.
    destruct (batch_loop_sizes w c t (ceiling t k) (ceiling t (ceiling t k))
                Ht Hr1 fuel 0 (set_startTime (clock_start w) s)
                ltac:(lia) ltac:(lia)) as (s' & events & -> & Hsizes).
    simpl. eexists. split; [reflexivity |].
    simpl trace. rewrite Z.sub_0_r in Hsizes. exact Hsizes.
Qed.

(** C1, as the code has it: for integers [k] and [t] in the range where
    doubles are exact (safe integers), with [k >= 1] requests at a time, and
    as soon as there is one request,
    [numBatches * requestsPerBatch >= totalRequests]; and for every [t >= 0]
    the run ends and the sizes of the batches it issues add up to [t]
    exactly. *)
Theorem batch_sizes_add_up_to_total (w : World) (c : Config) (s : Stats.t)
    (k t : Z) (fuel : nat) :
  concurrentRequests c = Int k -> totalRequests c = Int t ->
  safe k = true -> safe t = true ->
  1 <= k -> 0 <= t -> (Z.to_nat t < fuel)%nat ->
  (1 <= t ->
   Num.geb (Num.mul (numBatches c) (requestsPerBatch c)) (totalRequests c) = true)
  /\ exists r, runStressTest fuel w c s = Some r
               /\ sum_sizes (batch_sizes (trace r)) = Int t.
Proof.
  intros Hk Ht _ _ Hk1 Ht0 Hfuel. split.
  - intros Ht1.
    destruct (requestsPerBatch_Int c k t Hk Ht Hk1 Ht1) as (Hr & Hn1 & Hr1 & Hroom).
    rewrite (numBatches_Int c k t Hk Ht Hk1), Hr, Ht. simpl.
    apply Z.leb_le, Hroom.
  - assert (ceiling t k <= t) as Hn.
    { destruct (Z.eq_dec t 0) as [-> | Hnz].
      - unfold ceiling. rewrite Z.div_small; lia.
      - pose proof (ceiling_bounds t k ltac:(lia)). nia. }
    destruct (runStressTest_sizes w c s k t fuel Hk Ht Hk1 Ht0 ltac:(lia))
      as (r & Hrun & Hsizes).
    exists r. split; [exact Hrun |].
    rewrite Hsizes. now apply formula_sizes_sum.
Qed.

Lemma batch_sizes_add_up_to_total_witness :
  (1 <= 12 ->
   Num.geb (Num.mul (numBatches (configured 5 12))
                    (requestsPerBatch (configured 5 12)))
           (totalRequests (configured 5 12)) = true)
  /\ exists r, runStressTest 13 steady (configured 5 12) stats = Some r
               /\ sum_sizes (batch_sizes (trace r)) = Int 12.
Proof.
  apply (batch_sizes_add_up_to_total steady (configured 5 12) stats 5 12 13);
    [reflexivity | reflexivity | reflexivity | reflexivity | lia | lia | lia].
Defined.

(** C1 as stated fails without requests: for [--concurrent 10 --total 0],
    [numBatches] is 0 and [requestsPerBatch] is [Math.ceil(0 / 0)], which is
    NaN, and so is their product; [NaN >= 0] is false. *)
Lemma no_requests_product_is_not_at_least_total :
  numBatches (configured 10 0) = Int 0
  /\ requestsPerBatch (configured 10 0) = NaN
  /\ Num.geb (Num.mul (numBatches (configured 10 0))
                      (requestsPerBatch (configured 10 0)))
             (totalRequests (configured 10 0)) = false.
Proof. repeat split. Qed.

(** Why the integers of the scheduler are taken safe: beyond 2^53 the
    quotients of doubles are rounded.  For 2^54 requests, three at a time,
    [Math.ceil(2^54 / 3)] is 6004799503160661 on doubles, one less than the
    ceiling of the integers; [Math.ceil(2^54 / 6004799503160661)] is 3; and
    6004799503160661 batches of 3 requests are one request short of 2^54. *)
Lemma ceiling_of_doubles_beyond_safe_integers :
  let t := 2 ^ 54 in
  safe t = false
  /\ Num.ceil_div (Int t) (Int 3) = Int 6004799503160662
  /\ F64.Math_ceil (F64.of_Z t / F64.of_Z 3)%float = F64.of_Z 6004799503160661
  /\ F64.Math_ceil (F64.of_Z t / F64.of_Z 6004799503160661)%float = F64.of_Z 3
  /\ 6004799503160661 * 3 = t - 1.
Proof. vm_compute. repeat split. Qed.

(** C2: with 5 requests at a time and 12 in all, a run issues exactly 3
    batches, of 4, 4 and 4 requests: the sizes of the ceiling formula
    ([numBatches = ceil(12 / 5) = 3], [requestsPerBatch = ceil(12 / 3) = 4]),
    not the chunks 5, 5 and 2 that cutting by the concurrency level gives. *)
Theorem twelve_requests_five_at_a_time (w : World) (c0 : Config) (s : Stats.t)
    (fuel : nat) :
  let c := set_totalRequests (Int 12) (set_concurrentRequests (Int 5) c0) in
  numBatches c = Int 3
  /\ requestsPerBatch c = Int 4
  /\ exists r,
      runStressTest (4 + fuel) w c s = Some r
      /\ length (batch_sizes (trace r)) = 3%nat
      /\ (batch_sizes (trace r) = [Int 5; Int 5; Int 2]
          \/ batch_sizes (trace r) = Int <$> formula_sizes 5 12)
      /\ batch_sizes (trace r) = Int <$> formula_sizes 5 12
      /\ batch_sizes (trace r) = [Int 4; Int 4; Int 4]
      /\ naive_chunks 5 12 = [5; 5; 2]
      /\ batch_sizes (trace r) <> Int <$> naive_chunks 5 12.
Proof.
  intros c. split; [reflexivity |]. split; [reflexivity |].
  destruct (runStressTest_sizes w c s 5 12 (4 + fuel)
              eq_refl eq_refl ltac:(lia) ltac:(lia))
    as (r & Hrun & Hsizes).
  { change (ceiling 12 5) with 3. lia. }
  exists r. rewrite Hsizes.
  change (formula_sizes 5 12) with [4; 4; 4].
  change (naive_chunks 5 12) with [5; 5; 2].
  repeat split; auto; discriminate.
Qed.

(** ** Request identifiers *)

(** C6 holds for its first half and fails on a short last batch.  The
    request at offset [i] of a batch is given the identifier
    [batch * batchSize + i + 1], with the size of that batch.  So for
    [--concurrent 4 --total 10], where the batches are of 4, 4 and 2
    requests, the third batch numbers its requests [2 * 2 + i + 1], that is 5
    and 6, as the second batch did.  In the order of dispatch the identifiers
    are 1 to 8 and then 5 and 6: they do not increase, and two of them
    repeat. *)
Theorem identifiers_repeat_after_short_batch :
  (forall (w : World) (batch size : Z) (s : Stats.t),
      exists results s',
        executeConcurrentRequests w batch (Int size) s
        = Some ((fun i => Int (batch * size + i + 1)) <$> seqZ 0 size,
                results, s'))
  /\ (forall (w : World) (s : Stats.t) (fuel : nat),
         exists r,
           runStressTest (4 + fuel) w (configured 4 10) s = Some r
           /\ batch_sizes (trace r) = [Int 4; Int 4; Int 2]
           /\ dispatched_ids (trace r)
              = Int <$> [1; 2; 3; 4; 5; 6; 7; 8; 5; 6]
           /\ ~ monotone (dispatched_ids (trace r))
           /\ ~ NoDup (dispatched_ids (trace r))).
Proof.
  split.
  { intros w batch size s. apply executeConcurrentRequests_Int. }
  intros w s fuel.
  change (4 + fuel)%nat with (S (S (S (S fuel)))).
  eexists. split; [reflexivity |].
  split; [reflexivity |]. split; [reflexivity |]. split.
  - intros Hmono.
    specialize (Hmono 7%nat 8%nat (Int 8) (Int 5) ltac:(lia) eq_refl eq_refl).
    discriminate.
  - intros Hnodup. apply NoDup_ListNoDup in Hnodup.
    change (List.NoDup (Int <$> [1; 2; 3; 4; 5; 6; 7; 8; 5; 6])) in Hnodup.
    simpl in Hnodup.
    repeat match goal with
           | H : List.NoDup (_ :: _) |- _ => inversion_clear H
           end.
    match goal with
    | H : ~ List.In (Int 5) _ |- _ => apply H; simpl; tauto
    end.
Qed.

(** ** A run without requests *)

Lemma no_batch_without_requests (c : Config) :
  totalRequests c = Int 0 -> Num.ltb (Int 0) (numBatches c) = false.
Proof.
  intros Ht. unfold numBatches. rewrite Ht.
  destruct (concurrentRequests c) as [k | | |]; try reflexivity.
  unfold Num.ceil_div. destruct (Z.eqb_spec k 0); [reflexivity |].
  simpl. now rewrite Z.div_0_l.
Qed.

(** C5 fails on the success rate.  With [totalRequests = 0] (whatever the
    rest of the configuration) the loop issues no batch and the three counters
    are printed as 0, and nothing throws; but the success rate is computed as
    [(0 / 0) * 100], which is NaN, and its line reads "Success Rate: NaN%",
    neither 0 nor N/A.  The throughput is [0 / (duration / 1000)]: 0.00 when
    the clock has advanced, NaN when it has not. *)
Theorem zero_requests_success_rate_is_NaN (w : World) (c0 : Config) (fuel : nat) :
  let c := set_totalRequests (Int 0) c0 in
  exists r,
    runStressTest (S fuel) w c stats = Some r
    /\ batch_sizes (trace r) = [] /\ dispatched_ids (trace r) = []
    /\ total_requests (report r) = "Total Requests: 0"
    /\ successful (report r) = "Successful: 0"
    /\ failed (report r) = "Failed: 0"
    /\ success_rate (report r) = Some "Success Rate: NaN%"
    /\ requests_per_second (report r)
       = line "Requests/Second: "
              (0 / ((clock_end w - clock_start w) / 1000))%float ""
    /\ line "Requests/Second: " (0 / ((3000.5 - 1000.5) / 1000))%float ""
       = Some "Requests/Second: 0.00"
    /\ line "Requests/Second: " (0 / ((1000.5 - 1000.5) / 1000))%float ""
       = Some "Requests/Second: NaN".
Proof.
  intros c. unfold runStressTest. rewrite batch_loop_S.
  rewrite (no_batch_without_requests c eq_refl).
  eexists. split; [reflexivity |].
  repeat split; vm_compute; reflexivity.
Qed.

(* ===================================================================== *)
(** * Properties of the service *)
(* ===================================================================== *)

(** C7: whatever the request and the state of the process, the [/pi] handler
    answers with status 200, the string "3.141592654" (which is
    [Math.PI.toFixed(9)]) in the field [pi] and the number 10 in the field
    [digits]; and the application sends every [GET /pi] to that handler. *)
Theorem pi_is_3_141592654 (p : Service.Process) (req : Service.Request) :
  F64.toFixed Math_PI 9 = Some "3.141592654"
  /\ Service.pi p req Service.res
     = {| Service.statusCode := 200;
          Service.body :=
            Some (Service.JObject
                    [("pi", Service.JString "3.141592654");
                     ("digits", Service.JNumber 10);
                     ("timestamp", Service.JString (Service.now p))]) |}
  /\ Service.app p (Service.mkRequest "GET" "/pi")
     = Service.pi p (Service.mkRequest "GET" "/pi") Service.res
  /\ Service.statusCode (Service.app p (Service.mkRequest "GET" "/pi")) = 200
  /\ (Service.body (Service.app p (Service.mkRequest "GET" "/pi"))
        ≫= Service.field "pi") = Some (Service.JString "3.141592654")
  /\ (Service.body (Service.app p (Service.mkRequest "GET" "/pi"))
        ≫= Service.field "digits") = Some (Service.JNumber 10).
Proof.
  assert (F64.toFixed Math_PI 9 = Some "3.141592654") as Hpi
      by (vm_compute; reflexivity).
  split; [exact Hpi |].
  assert (Service.pi p req Service.res
          = {| Service.statusCode := 200;
               Service.body :=
                 Some (Service.JObject
                         [("pi", Service.JString "3.141592654");
                          ("digits", Service.JNumber 10);
                          ("timestamp", Service.JString (Service.now p))]) |})
    as Hhandler by (unfold Service.pi; rewrite Hpi; reflexivity).
  split; [exact Hhandler |].
  assert (Service.app p (Service.mkRequest "GET" "/pi")
          = Service.pi p (Service.mkRequest "GET" "/pi") Service.res)
    as Happ by reflexivity.
  split; [exact Happ |].
  rewrite Happ. unfold Service.pi. rewrite Hpi. repeat split.
Qed.

(* ===================================================================== *)
(** * Properties of doubles *)
(* ===================================================================== *)

(** The difference of two finite doubles has the sign of their exact
    difference: rounding neither turns a non-zero difference into zero nor
    changes its sign.  This is read off the specification of binary64
    ([SFsub], [binary_round_aux]) that the primitive operations obey.  The
    exponents of binary64 go from [-1074] to [971], on mantissas of up to 53
    digits. *)

(** A positive number of [d] binary digits lies between [2^(d-1)] and [2^d]. *)
Lemma digits2_pos_bounds (p : positive) :
  2 ^ (Z.pos (digits2_pos p) - 1) <= Z.pos p < 2 ^ Z.pos (digits2_pos p).
Proof.
  induction p as [p IH | p IH |]; simpl digits2_pos.
  - rewrite Pos2Z.inj_succ.
    replace (Z.succ (Z.pos (digits2_pos p)) - 1) with (Z.succ (Z.pos (digits2_pos p) - 1)) by lia.
    rewrite !Z.pow_succ_r by lia. lia.
  - rewrite Pos2Z.inj_succ.
    replace (Z.succ (Z.pos (digits2_pos p)) - 1) with (Z.succ (Z.pos (digits2_pos p) - 1)) by lia.
    rewrite !Z.pow_succ_r by lia. lia.
  - simpl. lia.
Qed.

(** One step of the right shift halves the mantissa. *)
Lemma shr_1_half (mrs : shr_record) :
  0 <= shr_m mrs -> shr_m (shr_1 mrs) = shr_m mrs / 2.
Proof.
  destruct mrs as [m r s]. cbn [shr_m]. intros Hm.
  destruct m as [| [p | p |] | p]; cbn [shr_1 shr_m]; try lia.
  - reflexivity.
  - apply Z.div_unique with (r := 1); lia.
  - apply Z.div_unique with (r := 0); lia.
  - reflexivity.
Qed.

(** [p] steps of the right shift divide the mantissa by [2^p]. *)
Lemma iter_pos_shr_1 (p : positive) :
  forall mrs, 0 <= shr_m mrs ->
    shr_m (SpecFloat.iter_pos shr_1 p mrs) = shr_m mrs / 2 ^ Z.pos p.
Proof.
  induction p as [p IH | p IH |]; intros mrs Hm; simpl SpecFloat.iter_pos;
    try assert (0 < 2 ^ Z.pos p) as Hpow by (apply Z.pow_pos_nonneg; lia).
  - assert (0 <= shr_m (shr_1 mrs)) as H1
        by (rewrite shr_1_half by exact Hm; apply Z.div_pos; lia).
    assert (0 <= shr_m (SpecFloat.iter_pos shr_1 p (shr_1 mrs))) as H2
        by (rewrite IH by exact H1; apply Z.div_pos; [lia | apply Z.pow_pos_nonneg; lia]).
    rewrite IH by exact H2. rewrite IH by exact H1. rewrite shr_1_half by exact Hm.
    rewrite !Z.div_div by lia.
    f_equal. change (Z.pos p~1) with (2 * Z.pos p + 1).
    replace (2 * Z.pos p + 1) with (1 + Z.pos p + Z.pos p) by lia.
    rewrite !Z.pow_add_r by lia. change (2 ^ 1) with 2. lia.
  - assert (0 <= shr_m (SpecFloat.iter_pos shr_1 p mrs)) as H2
        by (rewrite IH by exact Hm; apply Z.div_pos; [lia | apply Z.pow_pos_nonneg; lia]).
    rewrite IH by exact H2. rewrite IH by exact Hm.
    rewrite !Z.div_div by lia.
    f_equal. change (Z.pos p~0) with (2 * Z.pos p).
    replace (2 * Z.pos p) with (Z.pos p + Z.pos p) by lia.
    rewrite Z.pow_add_r by lia. reflexivity.
  - rewrite shr_1_half by exact Hm. reflexivity.
Qed.

(** The record a shift starts from holds the mantissa. *)
Lemma shr_m_of_loc (m : Z) (l : location) : shr_m (shr_record_of_loc m l) = m.
Proof. now destruct l as [| []]. Qed.

(** Bringing a positive mantissa to its precision leaves it positive, when
    the exponent is not below the smallest one: at most all digits but one
    are shifted out. *)
Lemma shr_fexp_pos (m e : Z) (l : location) :
  0 < m -> -1074 <= e ->
  0 < shr_m (fst (shr_fexp prec emax m e l))
  /\ -1074 <= snd (shr_fexp prec emax m e l).
Proof.
  intros Hm He. unfold shr_fexp, shr.
  destruct m as [| p | p]; try lia.
  pose proof (digits2_pos_bounds p) as Hd.
  cbn [Zdigits2].
  set (d := Z.pos (digits2_pos p)) in *.
  assert (fexp prec emax (d + e) - e <= d - 1) as Hn.
  { unfold fexp, emin. change prec with 53. change emax with 1024. lia. }
  destruct (fexp prec emax (d + e) - e) as [| q | q] eqn:Hq; cbn [fst snd].
  - rewrite shr_m_of_loc. lia.
  - rewrite iter_pos_shr_1 by (rewrite shr_m_of_loc; lia).
    rewrite shr_m_of_loc. split; [| lia].
    apply Z.div_str_pos. split; [apply Z.pow_pos_nonneg; lia |].
    apply Z.le_trans with (2 ^ (d - 1)); [| lia].
    apply Z.pow_le_mono_r; lia.
  - rewrite shr_m_of_loc. lia.
Qed.

(** Rounding to nearest even does not lower the truncated mantissa. *)
Lemma round_nearest_even_ge (m : Z) (l : location) : m <= round_nearest_even m l.
Proof.
  destruct l as [| []]; simpl; try lia. destruct (Z.even m); lia.
Qed.

(** Rounding a positive integer at an exponent in range never gives zero or
    NaN, and keeps the sign. *)
Lemma binary_round_aux_sign (sx : bool) (m e : Z) (l : location) :
  0 < m -> -1074 <= e ->
  (exists m' e', binary_round_aux prec emax sx m e l = S754_finite sx m' e')
  \/ binary_round_aux prec emax sx m e l = S754_infinity sx.
Proof.
  intros Hm He. unfold binary_round_aux.
  destruct (shr_fexp_pos m e l Hm He) as [Hm1 He1].
  destruct (shr_fexp prec emax m e l) as [mrs1 e1]. cbn [fst snd] in Hm1, He1.
  pose proof (round_nearest_even_ge (shr_m mrs1) (loc_of_shr_record mrs1)) as Hr.
  destruct (shr_fexp_pos (round_nearest_even (shr_m mrs1) (loc_of_shr_record mrs1))
              e1 loc_Exact ltac:(lia) He1) as [Hm2 He2].
  destruct (shr_fexp prec emax _ e1 loc_Exact) as [mrs2 e2]. cbn [fst snd] in Hm2, He2.
  destruct (shr_m mrs2) as [| p | p]; try lia.
  destruct (e2 <=? emax - prec); eauto.
Qed.

(** Appending [d] zero bits multiplies by [2^d]. *)
Lemma iter_xO (d m : positive) : Z.pos (Pos.iter xO m d) = Z.pos m * 2 ^ Z.pos d.
Proof.
  revert m. induction d as [| d IH] using Pos.peano_ind; intros m.
  - simpl. lia.
  - rewrite Pos.iter_succ. rewrite Pos2Z.inj_xO, IH, Pos2Z.inj_succ, Z.pow_succ_r by lia. lia.
Qed.

(** Aligning a mantissa to a smaller exponent keeps the number. *)
Lemma shl_align_spec (mx : positive) (ex ez : Z) :
  ez <= ex ->
  Z.pos (fst (shl_align mx ex ez)) = Z.pos mx * 2 ^ (ex - ez)
  /\ snd (shl_align mx ex ez) = ez.
Proof.
  intros Hle. unfold shl_align.
  destruct (ez - ex) as [| d | d] eqn:Hd; cbn [fst snd]; try lia.
  - replace (ex - ez) with 0 by lia. lia.
  - rewrite iter_xO. replace (ex - ez) with (Z.pos d) by lia. lia.
Qed.

(** Aligning does not go below the smaller of the two exponents. *)
Lemma shl_align_exponent (mx : positive) (ex ez : Z) :
  Z.min ex ez <= snd (shl_align mx ex ez).
Proof. unfold shl_align. destruct (ez - ex) eqn:Hd; cbn [snd]; lia. Qed.

(** The same for [binary_round], which first aligns the mantissa. *)
Lemma binary_round_sign (sx : bool) (m : positive) (e : Z) :
  -1074 <= e ->
  (exists m' e', binary_round prec emax sx m e = S754_finite sx m' e')
  \/ binary_round prec emax sx m e = S754_infinity sx.
Proof.
  intros He. unfold binary_round.
  pose proof (shl_align_exponent m e (fexp prec emax (Z.pos (digits2_pos m) + e))) as Hez.
  destruct (shl_align m e _) as [mz ez]. cbn [snd] in Hez.
  apply binary_round_aux_sign; [lia |].
  revert Hez. unfold fexp, emin. change prec with 53. change emax with 1024. lia.
Qed.

(** The rounded integer is above zero exactly when the integer is. *)
Lemma binary_normalize_positive (z e : Z) :
  -1074 <= e ->
  SFltb (S754_zero false) (binary_normalize prec emax z e false) = (0 <? z).
Proof.
  intros He. unfold binary_normalize. destruct z as [| p | p].
  - reflexivity.
  - destruct (binary_round_sign false p e He) as [(m' & e' & ->) | ->]; reflexivity.
  - destruct (binary_round_sign true p e He) as [(m' & e' & ->) | ->]; reflexivity.
Qed.

(** What a valid finite double says about its mantissa and exponent: at most
    53 digits, and exactly 53 above the smallest exponent. *)
Lemma bounded_facts (m : positive) (e : Z) :
  bounded prec emax m e = true ->
  -1074 <= e
  /\ Z.pos (digits2_pos m) <= 53
  /\ (-1074 < e -> Z.pos (digits2_pos m) = 53).
Proof.
  unfold bounded, canonical_mantissa, fexp, emin.
  change prec with 53. change emax with 1024.
  intros H. apply andb_true_iff in H as [H _]. apply Z.eqb_eq in H. lia.
Qed.

(** Among canonical mantissas the one with the smaller exponent is the
    smaller number. *)
Lemma canonical_lt (mx my : positive) (ex ey : Z) :
  bounded prec emax mx ex = true -> bounded prec emax my ey = true ->
  ex < ey -> Z.pos mx < Z.pos my * 2 ^ (ey - ex).
Proof.
  intros Hx Hy Hlt.
  destruct (bounded_facts mx ex Hx) as (Hex & Hdx & _).
  destruct (bounded_facts my ey Hy) as (_ & _ & Hdy).
  specialize (Hdy ltac:(lia)).
  pose proof (digits2_pos_bounds mx) as Hmx.
  pose proof (digits2_pos_bounds my) as Hmy.
  rewrite Hdy in Hmy.
  assert (2 ^ Z.pos (digits2_pos mx) <= 2 ^ 53) as Hpx
      by (apply Z.pow_le_mono_r; lia).
  assert (2 ^ 1 <= 2 ^ (ey - ex)) as Hpe by (apply Z.pow_le_mono_r; lia).
  change (2 ^ (53 - 1)) with 4503599627370496 in Hmy.
  change (2 ^ 53) with 9007199254740992 in Hpx, Hmy.
  change (2 ^ 1) with 2 in Hpe.
  nia.
Qed.

(** The order of two finite numbers, read on their mantissas brought to the
    smaller of the two exponents. *)
Lemma SFleb_finite (sx sy : bool) (mx my : positive) (ex ey : Z) :
  bounded prec emax mx ex = true -> bounded prec emax my ey = true ->
  SFleb (S754_finite sx mx ex) (S754_finite sy my ey)
  = (cond_Zopp sx (Z.pos mx * 2 ^ (ex - Z.min ex ey))
     <=? cond_Zopp sy (Z.pos my * 2 ^ (ey - Z.min ex ey))).
Proof.
  intros Hx Hy. unfold SFleb, SFcompare.
  assert (0 < 2 ^ (ex - Z.min ex ey)) as Hpx by (apply Z.pow_pos_nonneg; lia).
  assert (0 < 2 ^ (ey - Z.min ex ey)) as Hpy by (apply Z.pow_pos_nonneg; lia).
  symmetry.
  destruct (Z.compare_spec ex ey) as [Heq | Hlt | Hgt].
  - subst ey. rewrite Z.min_id, Z.sub_diag in *. change (2 ^ 0) with 1.
    rewrite !Z.mul_1_r. rewrite Pos.compare_cont_spec. simpl Pos.switch_Eq.
    destruct sx, sy; cbn [cond_Zopp];
      destruct (Pos.compare_spec mx my); cbn [CompOpp];
      try (apply Z.leb_le; lia); apply Z.leb_gt; lia.
  - pose proof (canonical_lt mx my ex ey Hx Hy Hlt) as Hc.
    rewrite Z.min_l in * by lia. rewrite Z.sub_diag in *. change (2 ^ 0) with 1.
    rewrite Z.mul_1_r.
    destruct sx, sy; cbn [cond_Zopp];
      try (apply Z.leb_le; lia); apply Z.leb_gt; lia.
  - pose proof (canonical_lt my mx ey ex Hy Hx Hgt) as Hc.
    rewrite Z.min_r in * by lia. rewrite Z.sub_diag in *. change (2 ^ 0) with 1.
    rewrite Z.mul_1_r.
    destruct sx, sy; cbn [cond_Zopp];
      try (apply Z.leb_le; lia); apply Z.leb_gt; lia.
Qed.

(** The comparator [a - b] on finite doubles: when the difference is above
    zero, [b <= a]; when it is not, [a <= b]. *)
Lemma SFsub_tells_order (x y : spec_float) :
  valid_binary x = true -> valid_binary y = true ->
  sf_finite x = true -> sf_finite y = true ->
  (if SFltb (S754_zero false) (SF64sub x y) then SFleb y x else SFleb x y) = true.
Proof.
  intros Hvx Hvy Hfx Hfy.
  destruct x as [sx | sx | | sx mx ex]; try discriminate;
    destruct y as [sy | sy | | sy my ey]; try discriminate.
  - now destruct sx, sy.
  - now destruct sx, sy.
  - now destruct sx, sy.
  - cbn [valid_binary] in Hvx, Hvy.
    destruct (bounded_facts mx ex Hvx) as (Hex & _).
    destruct (bounded_facts my ey Hvy) as (Hey & _).
    unfold SF64sub, SFsub. cbv zeta.
    rewrite binary_normalize_positive by lia.
    rewrite (SFleb_finite sx sy mx my ex ey Hvx Hvy).
    rewrite (SFleb_finite sy sx my mx ey ex Hvy Hvx).
    rewrite (Z.min_comm ey ex).
    destruct (shl_align_spec mx ex (Z.min ex ey) ltac:(lia)) as [-> _].
    destruct (shl_align_spec my ey (Z.min ex ey) ltac:(lia)) as [-> _].
    destruct (Z.ltb_spec 0 (cond_Zopp sx (Z.pos mx * 2 ^ (ex - Z.min ex ey))
                            - cond_Zopp sy (Z.pos my * 2 ^ (ey - Z.min ex ey))));
      apply Z.leb_le; lia.
Qed.

(** The same on the primitive operations. *)
Lemma difference_tells_order (a b : float) :
  finite a = true -> finite b = true ->
  (if (0 <? a - b)%float then (b <=? a)%float else (a <=? b)%float) = true.
Proof.
  intros Ha Hb. rewrite ltb_spec, !leb_spec, sub_spec.
  change (Prim2SF 0) with (S754_zero false).
  apply SFsub_tells_order; auto using Prim2SF_valid.
Qed.

(** The order of doubles is transitive. *)
Lemma SFleb_trans (x y z : spec_float) :
  SFleb x y = true -> SFleb y z = true -> SFleb x z = true.
Proof.
  unfold SFleb, SFcompare.
  destruct x as [[|] | [|] | | [|] mx ex], y as [[|] | [|] | | [|] my ey],
      z as [[|] | [|] | | [|] mz ez];
    try discriminate; try reflexivity;
    rewrite ?Pos.compare_cont_spec; cbn [Pos.switch_Eq];
    destruct (Z.compare_spec ex ey); try discriminate;
    destruct (Z.compare_spec ey ez); try discriminate;
    destruct (Z.compare_spec ex ez); try reflexivity; try lia;
    destruct (Pos.compare_spec mx my); try discriminate;
    destruct (Pos.compare_spec my mz); try discriminate;
    destruct (Pos.compare_spec mx mz); try reflexivity; try discriminate; lia.
Qed.

(** The same on the primitive operation. *)
Lemma leb_trans (a b c : float) :
  (a <=? b)%float = true -> (b <=? c)%float = true -> (a <=? c)%float = true.
Proof. rewrite !leb_spec. apply SFleb_trans. Qed.

(* ===================================================================== *)
(** * Properties of the percentile *)
(* ===================================================================== *)

(** ** Sorting *)

Lemma insert_sorted_perm {A : Type} (cmp : A -> A -> float) (x : A) (l : list A) :
  insert_sorted cmp x l ≡ₚ x :: l.
Proof.
  induction l as [| y l IH]; simpl; [reflexivity |].
  destruct (0 <? cmp y x)%float; [reflexivity |].
  rewrite IH. apply Permutation_swap.
Qed.

Lemma Array_sort_perm {A : Type} (cmp : A -> A -> float) (arr : list A) :
  Array_sort cmp arr ≡ₚ arr.
Proof.
  unfold Array_sort.
  enough (forall acc, foldl (fun acc x => insert_sorted cmp x acc) acc arr
                      ≡ₚ arr ++ acc) as H
      by (rewrite H; now rewrite app_nil_r).
  induction arr as [| x arr IH]; intros acc; simpl; [reflexivity |].
  rewrite IH, insert_sorted_perm. symmetry. apply Permutation_middle.
Qed.

Section Ordered.
Context {A : Type} (cmp : A -> A -> float) (le : A -> A -> Prop).

Lemma insert_sorted_HdRel (y x : A) (l : list A) :
  le y x -> HdRel le y l -> HdRel le y (insert_sorted cmp x l).
Proof.
  intros Hyx Hhd. destruct l as [| z l]; simpl.
  - now constructor.
  - destruct (0 <? cmp z x)%float; constructor; [exact Hyx |].
    now inversion Hhd.
Qed.

Lemma insert_sorted_Sorted (x : A) (l : list A) :
  (forall y, y ∈ l -> agrees cmp le y x) ->
  Sorted le l -> Sorted le (insert_sorted cmp x l).
Proof.
  intros Hagree Hsorted. induction l as [| y l IH]; simpl.
  - repeat constructor.
  - pose proof (Hagree y ltac:(left)) as Hyx. unfold agrees in Hyx.
    inversion Hsorted as [| ? ? Hl Hhd]; subst.
    destruct (0 <? cmp y x)%float.
    + constructor; [exact Hsorted | now constructor].
    + constructor.
      * apply IH; [| exact Hl]. intros z Hz. apply Hagree. now right.
      * now apply insert_sorted_HdRel.
Qed.

Lemma Array_sort_Sorted (arr : list A) :
  (forall a b, a ∈ arr -> b ∈ arr -> agrees cmp le a b) ->
  Sorted le (Array_sort cmp arr).
Proof.
  intros Hagree. unfold Array_sort.
  enough (forall todo acc,
             (forall a, a ∈ acc -> a ∈ arr) -> (forall a, a ∈ todo -> a ∈ arr) ->
             Sorted le acc ->
             Sorted le (foldl (fun acc x => insert_sorted cmp x acc) acc todo)) as H
      by (apply H; [intros a Ha; inversion Ha | auto | constructor]).
  induction todo as [| x todo IH]; intros acc Hacc Htodo Hsorted; simpl;
    [exact Hsorted |].
  apply IH.
  - intros a Ha. rewrite insert_sorted_perm in Ha.
    apply elem_of_cons in Ha as [-> | Ha]; [apply Htodo; left | now apply Hacc].
  - intros a Ha. apply Htodo. now right.
  - apply insert_sorted_Sorted; [| exact Hsorted].
    intros y Hy. apply Hagree; [now apply Hacc | apply Htodo; left].
Qed.
End Ordered.

Lemma sort_ascending_perm (values : list float) :
  sort_ascending values ≡ₚ values.
Proof. apply Array_sort_perm. Qed.

Lemma finite_agrees (values : list float) :
  forallb finite values = true ->
  forall a b, a ∈ values -> b ∈ values ->
    agrees (fun a b => (a - b)%float) (fun a b => (a <=? b)%float = true) a b.
Proof.
  intros H a b Ha Hb. rewrite forallb_forall in H.
  pose proof (difference_tells_order a b
                (H a (proj1 (list_elem_of_In _ _) Ha))
                (H b (proj1 (list_elem_of_In _ _) Hb))) as Hab.
  unfold agrees. now destruct (0 <? a - b)%float.
Qed.

Lemma sort_ascending_ascending (values : list float) :
  forallb finite values = true -> ascending (sort_ascending values).
Proof.
  intros H. apply Sorted_StronglySorted.
  - intros a b c. apply leb_trans.
  - apply Array_sort_Sorted. now apply finite_agrees.
Qed.

Lemma forallb_ordinary (values : list float) :
  forallb ordinary values = true ->
  forallb finite values = true /\ forallb kept_by_or_zero values = true.
Proof.
  rewrite !forallb_forall. intros H.
  split; intros v Hv; apply H in Hv; unfold ordinary in Hv;
    apply andb_true_iff in Hv; tauto.
Qed.

(** ** Reading the sorted array *)

Lemma get_elem_of {A : Type} (arr : list A) (i : float) (v : A) :
  F64.get arr i = Some v -> v ∈ arr.
Proof.
  unfold F64.get. destruct (F64.index i) as [z |]; [| discriminate].
  destruct (z <? Z.of_nat (length arr)); [| discriminate].
  apply list_elem_of_lookup_2.
Qed.

Lemma index_nonneg (i : float) (z : Z) : F64.index i = Some z -> 0 <= z.
Proof.
  unfold F64.index.
  destruct (Prim2SF i) as [| | | [|] m e]; try discriminate.
  - intros [= <-]. lia.
  - destruct (Z.leb_spec 0 e);
      [intros [= <-]; apply Z.mul_nonneg_nonneg; [lia | apply Z.pow_nonneg; lia] |].
    destruct (_ =? 0); [| discriminate].
    intros [= <-]. apply Z.div_pos; [lia |]. apply Z.pow_pos_nonneg; lia.
Qed.

Lemma get_in_range {A : Type} (arr : list A) (i : float) (z : Z) :
  F64.index i = Some z -> z < Z.of_nat (length arr) ->
  F64.get arr i = arr !! Z.to_nat z /\ is_Some (arr !! Z.to_nat z).
Proof.
  intros Hi Hz. pose proof (index_nonneg i z Hi) as Hz0.
  unfold F64.get. rewrite Hi.
  destruct (Z.ltb_spec z (Z.of_nat (length arr))); [| lia].
  split; [reflexivity |]. apply lookup_lt_is_Some. lia.
Qed.

Lemma get_nil {A : Type} (i : float) : F64.get (@nil A) i = None.
Proof.
  unfold F64.get. destruct (F64.index i) as [z |] eqn:Hi; [| reflexivity].
  apply index_nonneg in Hi.
  destruct (Z.ltb_spec z (Z.of_nat (length (@nil A)))) as [Hlt | _];
    [simpl in Hlt; lia | reflexivity].
Qed.

Lemma percentile_of_nothing (percentile : float) :
  calculatePercentile [] percentile = 0%float.
Proof.
  unfold calculatePercentile. change (sort_ascending []) with (@nil float).
  now rewrite get_nil.
Qed.

Lemma or_zero_kept (v : float) :
  kept_by_or_zero v = true -> or_zero (Some v) = v.
Proof.
  unfold kept_by_or_zero, or_zero, F64.truthy.
  destruct (Prim2SF v) as [[|] | | |] eqn:Hv; try discriminate; try reflexivity.
  intros _. apply Prim2SF_inj. now rewrite Hv.
Qed.

Lemma or_zero_get (values : list float) (i : float) :
  forallb kept_by_or_zero values = true ->
  or_zero (F64.get values i) = default 0%float (F64.get values i).
Proof.
  intros Hkept. destruct (F64.get values i) as [v |] eqn:Hget; [| reflexivity].
  apply or_zero_kept. rewrite forallb_forall in Hkept.
  apply Hkept, list_elem_of_In, (get_elem_of _ _ _ Hget).
Qed.

Lemma forallb_perm {A : Type} (f : A -> bool) (l l' : list A) :
  l ≡ₚ l' -> forallb f l = true -> forallb f l' = true.
Proof.
  intros Hperm. rewrite !forallb_forall. intros H x Hx.
  apply H. apply list_elem_of_In. rewrite Hperm. now apply list_elem_of_In.
Qed.

(** C3: the values are sorted in ascending order and the result is the
    element at index [ceil(percentile / 100 * count) - 1] of the sorted
    array, or 0 when there is no element at that index.  This is for values
    as elapsed times are: finite numbers, [-0] apart.  For 10, 20, 30, 40, 50
    the 50th percentile is 30 and the 90th is 50. *)
Theorem percentile_is_nearest_rank (values : list float) (percentile : float) :
  forallb ordinary values = true ->
  let sorted := sort_ascending values in
  let count := F64.of_nat (length values) in
  (sorted ≡ₚ values /\ ascending sorted)
  /\ calculatePercentile values percentile
     = default 0%float
         (F64.get sorted (F64.Math_ceil (percentile / 100 * count) - 1)%float)
  /\ calculatePercentile [10; 20; 30; 40; 50]%float 50 = 30%float
  /\ calculatePercentile [10; 20; 30; 40; 50]%float 90 = 50%float.
Proof.
  intros Hordinary sorted count.
  destruct (forallb_ordinary values Hordinary) as [Hfinite Hkept].
  pose proof (sort_ascending_perm values) as Hperm.
  split; [split |]; [exact Hperm | now apply sort_ascending_ascending |].
  split; [| split; reflexivity].
  subst sorted count. unfold calculatePercentile, percentile_index.
  rewrite (Permutation_length Hperm).
  apply or_zero_get. symmetry in Hperm. exact (forallb_perm _ _ _ Hperm Hkept).
Qed.

Lemma percentile_is_nearest_rank_witness :
  let values := [40; 10.5; 50; 20; 30.25; 20]%float in
  let sorted := sort_ascending values in
  let count := F64.of_nat (length values) in
  (sorted ≡ₚ values /\ ascending sorted)
  /\ calculatePercentile values 95
     = default 0%float
         (F64.get sorted (F64.Math_ceil (95 / 100 * count) - 1)%float)
  /\ calculatePercentile [10; 20; 30; 40; 50]%float 50 = 30%float
  /\ calculatePercentile [10; 20; 30; 40; 50]%float 90 = 50%float.
Proof.
  apply (percentile_is_nearest_rank [40; 10.5; 50; 20; 30.25; 20]%float 95);
    reflexivity.
Defined.

(** ** The result as an element of the list *)

Lemma percentile_element_or_zero (values : list float) (percentile : float) :
  calculatePercentile values percentile = 0%float
  \/ calculatePercentile values percentile ∈ values.
Proof.
  unfold calculatePercentile.
  destruct (F64.get _ _) as [v |] eqn:Hget; simpl; [| now left].
  destruct (F64.truthy v); [right | now left].
  rewrite <- (sort_ascending_perm values). exact (get_elem_of _ _ _ Hget).
Qed.

Lemma float_neq (x y : float) : (x =? y)%float = false -> is_nan x = false -> x <> y.
Proof.
  intros Hxy Hx ->. unfold is_nan in Hx. rewrite Hxy in Hx. discriminate.
Qed.

(** Whole percentiles select an element: checked for 1 to 100 and for up
    to 64 values. *)
Lemma whole_percentiles_index_in_range : index_in_range 100 64 = true.
Proof. vm_compute. reflexivity. Qed.

(** C10 as stated fails in two ways.  A percentile so small that
    [percentile / 100] is rounded to 0 gives the index [-1], and a value that
    is NaN is replaced by 0: in both cases the result is 0, which is not in
    the list. *)
Lemma percentile_outside_the_list :
  let tiny := 0x1p-1074%float in
  ((0 <? tiny)%float = true /\ (tiny <=? 100)%float = true)
  /\ (tiny / 100)%float = 0%float
  /\ percentile_index tiny 1 = (-1)%float
  /\ calculatePercentile [5%float] tiny = 0%float
  /\ ~ calculatePercentile [5%float] tiny ∈ [5%float]
  /\ calculatePercentile [nan] 50 = 0%float
  /\ ~ calculatePercentile [nan] 50 ∈ [nan].
Proof.
  cbv zeta. repeat split.
  - change (calculatePercentile [5%float] 0x1p-1074) with 0%float.
    intros H. apply list_elem_of_singleton in H. revert H. now apply float_neq.
  - change (calculatePercentile [nan] 50) with 0%float.
    intros H. apply list_elem_of_singleton in H. revert H. now apply float_neq.
Qed.

(* ===================================================================== *)
(** * More on the batch scheduler *)
(* ===================================================================== *)

(** With [k >= 1] requests at a time and [t >= 1] requests: the batches are
    no larger than [k], and all of them are needed. *)
Lemma plan_bounds (k t : Z) :
  1 <= k -> 1 <= t ->
  let n := ceiling t k in
  let r := ceiling t n in
  1 <= n <= t /\ 1 <= r <= k /\ (n - 1) * r < t <= n * r.
Proof.
  intros Hk Ht n r.
  pose proof (ceiling_bounds t k ltac:(lia)) as Hn. fold n in Hn.
  assert (1 <= n <= t) as Hn1 by nia.
  pose proof (ceiling_bounds t n ltac:(lia)) as Hr. fold r in Hr.
  assert (1 <= r) as Hr1 by nia.
  assert (r <= k) as Hrk by nia.
  repeat split; try lia; nia.
Qed.

(** When every batch up to the last is non-empty, the loop runs its [n]
    iterations. *)
Lemma batch_loop_trace (w : World) (c : Config) (t n r : Z) :
  totalRequests c = Int t -> 1 <= r -> (n - 1) * r < t ->
  forall (fuel : nat) (b : Z) (s : Stats.t),
    0 <= b <= n -> (Z.to_nat (n - b) < fuel)%nat ->
    exists s',
      batch_loop fuel w c (Int n) (Int r) b s
      = Some (s', seqZ b (n - b) ≫= iteration c t n r).
Proof.
  intros Ht Hr Hall. induction fuel as [| fuel IH]; intros b s Hb Hfuel; [lia |].
  rewrite batch_loop_S. cbv zeta. simpl Num.ltb.
  destruct (Z.ltb_spec b n) as [Hlt | Hge].
  - rewrite (currentBatchSize_Int c t r b Ht). simpl Num.leb.
    destruct (Z.leb_spec (Z.min r (t - b * r)) 0) as [Hle | Hpos]; [nia |].
    destruct (executeConcurrentRequests_Int w b (Z.min r (t - b * r)) s)
      as (results & s1 & ->).
    destruct (IH (b + 1) s1 ltac:(lia) ltac:(lia)) as (s2 & ->).
    exists s2. f_equal. f_equal.
    rewrite (seqZ_cons b) by lia.
    replace (Z.pred (n - b)) with (n - (b + 1)) by lia.
    replace (Z.succ b) with (b + 1) by lia.
    reflexivity.
  - exists s. now rewrite seqZ_nil by lia.
Qed.

(** A run with [k >= 1] requests at a time and [t >= 1] requests in all. *)
Lemma runStressTest_trace (w : World) (c : Config) (s : Stats.t) (k t : Z)
    (fuel : nat) :
  concurrentRequests c = Int k -> totalRequests c = Int t ->
  1 <= k -> 1 <= t -> (Z.to_nat t < fuel)%nat ->
  exists run line,
    runStressTest fuel w c s = Some run
    /\ trace run
       = Log "INFO" line
           :: (seqZ 0 (ceiling t k)
                 ≫= iteration c t (ceiling t k) (ceiling t (ceiling t k))).
Proof.
  intros Hk Ht Hk1 Ht1 Hfuel.
  destruct (plan_bounds k t Hk1 Ht1) as (Hn & Hr & Hall & _).
  destruct (requestsPerBatch_Int c k t Hk Ht Hk1 Ht1) as (Hrpb & _).
  unfold runStressTest.
  rewrite (numBatches_Int c k t Hk Ht Hk1), Hrpb.
  destruct (batch_loop_trace w c t (ceiling t k) (ceiling t (ceiling t k))
              Ht ltac:(lia) Hall fuel 0 (set_startTime (clock_start w) s)
              ltac:(lia) ltac:(lia)) as (s' & ->).
  simpl. eexists _, _. split; [reflexivity |].
  simpl. now rewrite Z.sub_0_r.
Qed.

Lemma batch_numbers_iterations (c : Config) (t n r : Z) (l : list Z) :
  batch_numbers (l ≫= iteration c t n r) = l.
Proof.
  induction l as [| b l IH]; [reflexivity |].
  rewrite bind_cons. unfold batch_numbers in *. rewrite omap_app, IH.
  unfold iteration, starting, pause. destruct (_ && _); reflexivity.
Qed.

Lemma batch_sizes_iterations (c : Config) (t n r : Z) (l : list Z) :
  batch_sizes (l ≫= iteration c t n r)
  = (fun b => Int (Z.min r (t - b * r))) <$> l.
Proof.
  induction l as [| b l IH]; [reflexivity |].
  rewrite bind_cons, fmap_cons, <- IH.
  unfold iteration. cbv zeta. rewrite <- app_comm_cons, <- app_comm_cons.
  apply batch_sizes_iteration.
Qed.

Lemma dispatched_ids_iterations (c : Config) (t n r : Z) (l : list Z) :
  dispatched_ids (l ≫= iteration c t n r)
  = l ≫= (fun b => (fun i => Int (b * Z.min r (t - b * r) + i + 1))
                     <$> seqZ 0 (Z.min r (t - b * r))).
Proof.
  induction l as [| b l IH]; [reflexivity |].
  rewrite !bind_cons, <- IH.
  unfold iteration. cbv zeta. rewrite <- app_comm_cons, <- app_comm_cons.
  apply dispatched_ids_iteration.
Qed.

Lemma sleeps_iterations (c : Config) (t n r : Z) (l : list Z) :
  sleeps (l ≫= iteration c t n r)
  = l ≫= (fun b => if (b <? n - 1) && Num.gtb (delayBetweenBatches c) (Int 0)
                   then [delayBetweenBatches c] else []).
Proof.
  induction l as [| b l IH]; [reflexivity |].
  rewrite !bind_cons, <- IH. unfold sleeps. rewrite omap_app. f_equal.
  unfold iteration, starting, pause. simpl Num.sub. simpl Num.ltb.
  replace (n + - (1)) with (n - 1) by lia.
  destruct (_ && _); reflexivity.
Qed.

Lemma fmap_constant {A B : Type} (f : A -> B) (y : B) (l : list A) :
  Forall (fun x => f x = y) l -> f <$> l = replicate (length l) y.
Proof.
  induction 1 as [| x l Hx _ IH]; [reflexivity |].
  rewrite fmap_cons, Hx, IH. reflexivity.
Qed.

Lemma bind_constant {A B : Type} (f : A -> list B) (y : B) (l : list A) :
  Forall (fun x => f x = [y]) l -> l ≫= f = replicate (length l) y.
Proof.
  induction 1 as [| x l Hx _ IH]; [reflexivity |].
  rewrite bind_cons, Hx, IH. reflexivity.
Qed.

Lemma bind_nothing {A B : Type} (f : A -> list B) (l : list A) :
  Forall (fun x => f x = []) l -> l ≫= f = [].
Proof.
  induction 1 as [| x l Hx _ IH]; [reflexivity |].
  rewrite bind_cons, Hx, IH. reflexivity.
Qed.

Lemma seqZ_last (n : Z) : 1 <= n -> seqZ 0 n = (seqZ 0 (n - 1) ++ [n - 1])%list.
Proof.
  intros Hn. replace n with ((n - 1) + 1) at 1 by lia.
  rewrite seqZ_app by lia. reflexivity.
Qed.

Lemma seqZ_all (P : Z -> Prop) (m n : Z) :
  (forall b, m <= b < m + n -> P b) -> Forall P (seqZ m n).
Proof.
  intros H. apply Forall_forall. intros b Hb.
  apply list_elem_of_lookup_1 in Hb as [i Hi].
  apply lookup_seqZ in Hi. apply H. lia.
Qed.

(** All batches are full but the last one, which takes what remains. *)
Lemma planned_sizes (t n r : Z) :
  1 <= n -> 1 <= r -> (n - 1) * r < t <= n * r ->
  (fun b => Int (Z.min r (t - b * r))) <$> seqZ 0 n
  = Int <$> (replicate (Z.to_nat (n - 1)) r ++ [t - (n - 1) * r])%list.
Proof.
  intros Hn Hr Ht. rewrite seqZ_last by exact Hn.
  rewrite !fmap_app, fmap_replicate. f_equal.
  - rewrite (fmap_constant _ (Int r)).
    + now rewrite length_seqZ.
    + apply seqZ_all. intros b Hb. f_equal. nia.
  - simpl. f_equal. f_equal. lia.
Qed.

Lemma planned_sleeps (c : Config) (n : Z) :
  1 <= n ->
  seqZ 0 n ≫= (fun b => if (b <? n - 1) && Num.gtb (delayBetweenBatches c) (Int 0)
                        then [delayBetweenBatches c] else [])
  = if Num.gtb (delayBetweenBatches c) (Int 0)
    then replicate (Z.to_nat (n - 1)) (delayBetweenBatches c) else [].
Proof.
  intros Hn. destruct (Num.gtb _ _).
  - rewrite seqZ_last by exact Hn. rewrite bind_app.
    rewrite (bind_constant _ (delayBetweenBatches c)).
    + rewrite length_seqZ. simpl. rewrite Z.ltb_irrefl. simpl.
      now rewrite app_nil_r.
    + apply seqZ_all. intros b Hb.
      destruct (Z.ltb_spec b (n - 1)); [reflexivity | lia].
  - apply bind_nothing, seqZ_all. intros b _. now rewrite andb_false_r.
Qed.

Lemma seqZ_from (a n : Z) (f : Z -> num) :
  (forall i, f i = Int (a + i)) -> f <$> seqZ 0 n = Int <$> seqZ a n.
Proof.
  intros Hf. rewrite <- (Z.add_0_r a) at 1.
  rewrite <- (fmap_add_seqZ a 0), <- list_fmap_compose.
  apply list_fmap_ext. intros _ i _. apply Hf.
Qed.

(** Consecutive full batches number their requests consecutively. *)
Lemma full_batches_ids (r : Z) (m : nat) :
  0 <= r ->
  seqZ 0 (Z.of_nat m) ≫= (fun b => (fun i => Int (b * r + i + 1)) <$> seqZ 0 r)
  = Int <$> seqZ 1 (Z.of_nat m * r).
Proof.
  intros Hr. induction m as [| m IH]; [reflexivity |].
  rewrite seqZ_S, bind_app, IH. simpl.
  replace (Z.of_nat (S m) * r) with (Z.of_nat m * r + r) by lia.
  rewrite seqZ_app by lia. rewrite fmap_app, app_nil_r. f_equal.
  apply seqZ_from. intros i. f_equal. lia.
Qed.

Lemma planned_ids (t n r : Z) :
  1 <= n -> 1 <= r -> (n - 1) * r < t <= n * r ->
  let l := t - (n - 1) * r in
  seqZ 0 n ≫= (fun b => (fun i => Int (b * Z.min r (t - b * r) + i + 1))
                          <$> seqZ 0 (Z.min r (t - b * r)))
  = Int <$> (seqZ 1 ((n - 1) * r) ++ seqZ ((n - 1) * l + 1) l)%list.
Proof.
  intros Hn Hr Ht l. rewrite seqZ_last by exact Hn.
  rewrite bind_app, fmap_app. f_equal.
  - rewrite <- (Z2Nat.id (n - 1)) by lia.
    rewrite <- full_batches_ids by lia.
    apply Forall_bind_ext. apply seqZ_all. intros b Hb.
    replace (Z.min r (t - b * r)) with r by nia. reflexivity.
  - simpl. rewrite app_nil_r.
    replace (Z.min r (t - (n - 1) * r)) with l by (unfold l; lia).
    apply seqZ_from. intros i. f_equal. lia.
Qed.

Lemma runStressTest_final (fuel : nat) (w : World) (c : Config) (s : Stats.t)
    (run : Run) :
  runStressTest fuel w c s = Some run ->
  Stats.totalRequests (final run)
  = Stats.totalRequests s + Z.of_nat (length (dispatched_ids (trace run)))
  /\ (counts_agree s -> counts_agree (final run)).
Proof.
  unfold runStressTest. intros Hrun.
  destruct (batch_loop fuel w c (numBatches c) (requestsPerBatch c) 0 _)
    as [[s' events] |] eqn:Hloop; [| discriminate].
  injection Hrun as <-. split.
  - apply batch_loop_total in Hloop. exact Hloop.
  - intros Hs. apply batch_loop_counts_agree in Hloop; exact Hloop || exact Hs.
Qed.

Lemma formula_sizes_bounds (k t : Z) :
  1 <= k -> 0 <= t -> Forall (fun size => 1 <= size <= k) (formula_sizes k t).
Proof.
  intros Hk Ht. unfold formula_sizes. cbv zeta.
  destruct (Z.eq_dec t 0) as [-> | Hnz].
  - replace (ceiling 0 k) with 0; [constructor |].
    unfold ceiling. symmetry. apply Z.div_small. lia.
  - destruct (plan_bounds k t Hk ltac:(lia)) as (_ & Hr & _).
    apply Forall_forall. intros size Hin.
    apply list_elem_of_filter in Hin as [Hpos Hin].
    apply list_elem_of_fmap in Hin as (b & -> & _). lia.
Qed.

(** X1: with [k >= 1] requests at a time and [t >= 0] requests in all
    (safe integers), a run ends and every batch it issues has at least one
    request and at most [k]: the configured concurrency is never exceeded. *)
Theorem batches_within_concurrency (w : World) (c : Config) (s : Stats.t)
    (k t : Z) (fuel : nat) :
  concurrentRequests c = Int k -> totalRequests c = Int t ->
  safe k = true -> safe t = true ->
  1 <= k -> 0 <= t -> (Z.to_nat t < fuel)%nat ->
  exists run,
    runStressTest fuel w c s = Some run
    /\ Forall (fun size => exists z, size = Int z /\ 1 <= z <= k)
              (batch_sizes (trace run)).
Proof.
  intros Hk Ht _ _ Hk1 Ht0 Hfuel.
  assert (ceiling t k <= t) as Hn.
  { destruct (Z.eq_dec t 0) as [-> | Hnz].
    - unfold ceiling. rewrite Z.div_small; lia.
    - pose proof (ceiling_bounds t k ltac:(lia)). nia. }
  destruct (runStressTest_sizes w c s k t fuel Hk Ht Hk1 Ht0 ltac:(lia))
    as (run & Hrun & Hsizes).
  exists run. split; [exact Hrun |].
  rewrite Hsizes. apply Forall_fmap.
  eapply Forall_impl; [apply (formula_sizes_bounds k t Hk1 Ht0) |].
  intros z Hz. simpl. eauto.
Qed.

Lemma batches_within_concurrency_witness :
  exists run,
    runStressTest 11 steady (configured 4 10) stats = Some run
    /\ Forall (fun size => exists z, size = Int z /\ 1 <= z <= 4)
              (batch_sizes (trace run)).
Proof.
  apply (batches_within_concurrency steady (configured 4 10) stats 4 10 11);
    [reflexivity | reflexivity | reflexivity | reflexivity | lia | lia | lia].
Defined.

(** X2: with [k >= 1] and [t >= 1], a run issues exactly
    [numBatches = ceil(t / k)] batches, numbered from 0 in order; all but
    the last have [requestsPerBatch = ceil(t / numBatches)] requests, and the
    last has what remains, between 1 and [requestsPerBatch].  The [break] of
    the loop is never taken. *)
Theorem all_batches_full_but_the_last (w : World) (c : Config) (s : Stats.t)
    (k t : Z) (fuel : nat) :
  concurrentRequests c = Int k -> totalRequests c = Int t ->
  safe k = true -> safe t = true ->
  1 <= k -> 1 <= t -> (Z.to_nat t < fuel)%nat ->
  let n := ceiling t k in
  let r := ceiling t n in
  numBatches c = Int n /\ requestsPerBatch c = Int r
  /\ 1 <= t - (n - 1) * r <= r
  /\ exists run,
      runStressTest fuel w c s = Some run
      /\ batch_numbers (trace run) = seqZ 0 n
      /\ batch_sizes (trace run)
         = Int <$> (replicate (Z.to_nat (n - 1)) r ++ [t - (n - 1) * r])%list.
Proof.
  intros Hk Ht _ _ Hk1 Ht1 Hfuel n r.
  destruct (plan_bounds k t Hk1 Ht1) as (Hn & Hr & Hall).
  fold n in Hn, Hr, Hall. fold r in Hr, Hall.
  destruct (requestsPerBatch_Int c k t Hk Ht Hk1 Ht1) as (Hrpb & _).
  split; [exact (numBatches_Int c k t Hk Ht Hk1) |].
  split; [exact Hrpb |]. split; [lia |].
  destruct (runStressTest_trace w c s k t fuel Hk Ht Hk1 Ht1 Hfuel)
    as (run & line & Hrun & Htrace).
  fold n r in Htrace.
  exists run. split; [exact Hrun |]. rewrite Htrace. split.
  - change (batch_numbers (Log "INFO" line :: ?l)) with (batch_numbers l).
    apply batch_numbers_iterations.
  - change (batch_sizes (Log "INFO" line :: ?l)) with (batch_sizes l).
    rewrite batch_sizes_iterations. apply planned_sizes; lia.
Qed.

Lemma all_batches_full_but_the_last_witness :
  let n := ceiling 10 4 in
  let r := ceiling 10 n in
  numBatches (configured 4 10) = Int n /\ requestsPerBatch (configured 4 10) = Int r
  /\ 1 <= 10 - (n - 1) * r <= r
  /\ exists run,
      runStressTest 11 steady (configured 4 10) stats = Some run
      /\ batch_numbers (trace run) = seqZ 0 n
      /\ batch_sizes (trace run)
         = Int <$> (replicate (Z.to_nat (n - 1)) r ++ [10 - (n - 1) * r])%list.
Proof.
  apply (all_batches_full_but_the_last steady (configured 4 10) stats 4 10 11);
    [reflexivity | reflexivity | reflexivity | reflexivity | lia | lia | lia].
Defined.

Lemma iteration_last (c : Config) (t n r : Z) :
  iteration c t n r (n - 1)
  = [starting (n - 1) (Int n) (Int (Z.min r (t - (n - 1) * r)));
     Batch (n - 1) (Int (Z.min r (t - (n - 1) * r)))
           (request_id (n - 1) (Int (Z.min r (t - (n - 1) * r)))
              <$> seqZ 0 (Z.min r (t - (n - 1) * r)))].
Proof.
  unfold iteration, pause. simpl Num.sub. simpl Num.ltb.
  replace (n - 1 <? n + - (1)) with false by (symmetry; apply Z.ltb_ge; lia).
  reflexivity.
Qed.

(** X3: with [k >= 1] and [t >= 1], a run pauses [numBatches - 1] times,
    each time for the configured delay, when that delay is above zero, and
    never when it is not (zero, negative or NaN); the last thing it does
    before the report is the last batch: no pause follows it. *)
Theorem pauses_between_batches_only (w : World) (c : Config) (s : Stats.t)
    (k t : Z) (fuel : nat) :
  concurrentRequests c = Int k -> totalRequests c = Int t ->
  safe k = true -> safe t = true ->
  1 <= k -> 1 <= t -> (Z.to_nat t < fuel)%nat ->
  exists run,
    runStressTest fuel w c s = Some run
    /\ sleeps (trace run)
       = (if Num.gtb (delayBetweenBatches c) (Int 0)
          then replicate (Z.to_nat (ceiling t k - 1)) (delayBetweenBatches c)
          else [])
    /\ exists size ids,
        last (trace run) = Some (Batch (ceiling t k - 1) size ids).
Proof.
  intros Hk Ht _ _ Hk1 Ht1 Hfuel.
  destruct (plan_bounds k t Hk1 Ht1) as (Hn & Hr & Hall).
  destruct (runStressTest_trace w c s k t fuel Hk Ht Hk1 Ht1 Hfuel)
    as (run & line & Hrun & Htrace).
  exists run. split; [exact Hrun |]. rewrite Htrace. split.
  - change (sleeps (Log "INFO" line :: ?l)) with (sleeps l).
    rewrite sleeps_iterations. apply planned_sleeps. lia.
  - rewrite seqZ_last by lia.
    rewrite bind_app, bind_cons. change (@nil Z ≫= iteration c t (ceiling t k) (ceiling t (ceiling t k))) with (@nil Event).
    rewrite app_nil_r, iteration_last.
    eexists _, _.
    rewrite app_comm_cons.
    change (?a :: ?b :: []) with ([a] ++ [b])%list.
    rewrite app_assoc. apply last_snoc.
Qed.

Lemma pauses_between_batches_only_witness :
  exists run,
    runStressTest 11 steady (configured 4 10) stats = Some run
    /\ sleeps (trace run)
       = (if Num.gtb (delayBetweenBatches (configured 4 10)) (Int 0)
          then replicate (Z.to_nat (ceiling 10 4 - 1))
                         (delayBetweenBatches (configured 4 10))
          else [])
    /\ exists size ids,
        last (trace run) = Some (Batch (ceiling 10 4 - 1) size ids).
Proof.
  apply (pauses_between_batches_only steady (configured 4 10) stats 4 10 11);
    [reflexivity | reflexivity | reflexivity | reflexivity | lia | lia | lia].
Defined.

(** X4: the identifiers a run hands out, in the order of dispatch, with
    [n] batches of [r] requests and a last batch of [l] requests: [1] to
    [(n - 1) * r] for the full batches, then [(n - 1) * l + 1] to [n * l]
    for the last one.  When the last batch is full too ([t = n * r]) they are
    [1] to [t]. *)
Theorem identifiers_of_a_run (w : World) (c : Config) (s : Stats.t)
    (k t : Z) (fuel : nat) :
  concurrentRequests c = Int k -> totalRequests c = Int t ->
  safe k = true -> safe t = true ->
  1 <= k -> 1 <= t -> (Z.to_nat t < fuel)%nat ->
  let n := ceiling t k in
  let r := ceiling t n in
  let l := t - (n - 1) * r in
  exists run,
    runStressTest fuel w c s = Some run
    /\ dispatched_ids (trace run)
       = Int <$> (seqZ 1 ((n - 1) * r) ++ seqZ ((n - 1) * l + 1) l)%list
    /\ (t = n * r -> dispatched_ids (trace run) = Int <$> seqZ 1 t).
Proof.
  intros Hk Ht _ _ Hk1 Ht1 Hfuel n r l.
  destruct (plan_bounds k t Hk1 Ht1) as (Hn & Hr & Hall).
  fold n in Hn, Hr, Hall. fold r in Hr, Hall.
  destruct (runStressTest_trace w c s k t fuel Hk Ht Hk1 Ht1 Hfuel)
    as (run & line & Hrun & Htrace).
  fold n r in Htrace.
  assert (dispatched_ids (trace run)
          = Int <$> (seqZ 1 ((n - 1) * r) ++ seqZ ((n - 1) * l + 1) l)%list)
    as Hids.
  { rewrite Htrace.
    change (dispatched_ids (Log "INFO" line :: ?l)) with (dispatched_ids l).
    rewrite dispatched_ids_iterations. apply planned_ids; lia. }
  exists run. split; [exact Hrun |]. split; [exact Hids |].
  intros Hfull. rewrite Hids. f_equal.
  replace l with r by (unfold l; lia).
  transitivity (seqZ 1 ((n - 1) * r + r)); [| f_equal; lia].
  rewrite seqZ_app by nia. f_equal. f_equal. lia.
Qed.

Lemma identifiers_of_a_run_witness :
  let n := ceiling 10 4 in
  let r := ceiling 10 n in
  let l := 10 - (n - 1) * r in
  exists run,
    runStressTest 11 steady (configured 4 10) stats = Some run
    /\ dispatched_ids (trace run)
       = Int <$> (seqZ 1 ((n - 1) * r) ++ seqZ ((n - 1) * l + 1) l)%list
    /\ (10 = n * r -> dispatched_ids (trace run) = Int <$> seqZ 1 10).
Proof.
  apply (identifiers_of_a_run steady (configured 4 10) stats 4 10 11);
    [reflexivity | reflexivity | reflexivity | reflexivity | lia | lia | lia].
Defined.

(** Unless both numbers are positive the loop stops in its first
    iteration. *)
Lemma batch_loop_idle (w : World) (c : Config) (s : Stats.t) (fuel : nat) :
  parsed (concurrentRequests c) = true -> parsed (totalRequests c) = true ->
  above_zero (concurrentRequests c) && above_zero (totalRequests c) = false ->
  batch_loop (S fuel) w c (numBatches c) (requestsPerBatch c) 0 s = Some (s, []).
Proof.
  intros Hk Ht Hpos. rewrite batch_loop_S.
  unfold requestsPerBatch, numBatches, currentBatchSize.
  destruct (concurrentRequests c) as [k | | |], (totalRequests c) as [t | | |];
    try discriminate; try reflexivity.
  unfold above_zero in Hpos. simpl in Hpos.
  destruct (Z.eqb_spec k 0) as [-> | Hk0].
  - destruct t as [| t | t]; reflexivity.
  - assert (forall a b, b <> 0 -> Num.ceil_div (Int a) (Int b) = Int (- (- a / b)))
      as Hceil.
    { intros a b Hb. unfold Num.ceil_div.
      destruct (Z.eqb_spec b 0); [contradiction | reflexivity]. }
    rewrite !(Hceil t k Hk0). simpl Num.ltb.
    destruct (Z.ltb_spec 0 (- (- t / k))) as [Hn | Hn]; [| reflexivity].
    assert (k < 0 /\ t < 0) as [Hkneg Htneg].
    { pose proof (Z.div_mod (- t) k Hk0).
      destruct (Z.lt_ge_cases 0 k).
      - pose proof (Z.mod_pos_bound (- t) k ltac:(lia)). nia.
      - pose proof (Z.mod_neg_bound (- t) k ltac:(lia)). nia. }
    cbv zeta. rewrite Hceil by lia.
    pose proof (Z.div_mod (- t) (- (- t / k)) ltac:(lia)).
    pose proof (Z.mod_pos_bound (- t) (- (- t / k)) ltac:(lia)).
    simpl.
    replace (Num.leb _ (Int 0)) with true; [reflexivity |].
    symmetry.
    match goal with
    | |- Num.leb (if ?b then _ else _) _ = true => destruct b
    end; simpl; apply Z.leb_le; nia.
Qed.



(** X6: a run always ends.  For every configuration whose concurrency and
    total are safe integers or NaN, [totalRequests + 1] iterations of the
    loop are enough (one iteration when the total is NaN). *)
Theorem run_always_ends (w : World) (c : Config) (s : Stats.t) (fuel : nat) :
  parsed (concurrentRequests c) = true -> parsed (totalRequests c) = true ->
  (enough_fuel c <= fuel)%nat ->
  exists run, runStressTest fuel w c s = Some run.
Proof.
  intros Hk Ht Hfuel.
  destruct (above_zero (concurrentRequests c) && above_zero (totalRequests c))
    eqn:Hpos.
  - apply andb_prop in Hpos as [Hkpos Htpos].
    unfold enough_fuel in Hfuel. unfold above_zero in Hkpos, Htpos.
    destruct (concurrentRequests c) as [k | | |] eqn:Ek; try discriminate.
    destruct (totalRequests c) as [t | | |] eqn:Et; try discriminate.
    simpl in Hkpos, Htpos. apply Z.ltb_lt in Hkpos, Htpos.
    pose proof (ceiling_bounds t k ltac:(lia)).
    destruct (runStressTest_sizes w c s k t fuel Ek Et ltac:(lia) ltac:(lia))
      as (run & Hrun & _); [nia | eauto].
  - assert (exists fuel', fuel = S fuel') as [fuel' ->].
    { unfold enough_fuel in Hfuel. destruct fuel; [| eauto].
      destruct (totalRequests c); lia. }
    pose proof (batch_loop_idle w c (set_startTime (clock_start w) s) fuel'
                  Hk Ht Hpos) as Hloop.
    unfold runStressTest. rewrite Hloop. simpl. eauto.
Qed.

Lemma run_always_ends_witness :
  exists run, runStressTest 11 steady (configured (-3) 10) stats = Some run.
Proof.
  apply (run_always_ends steady (configured (-3) 10) stats 11);
    [reflexivity | reflexivity | vm_compute; lia].
Defined.

(** X7: with [k >= 1] and [t >= 0], on fresh statistics, the run
    dispatches exactly [t] requests, and when the loop has ended
    [stats.totalRequests] is [t] and so is
    [successfulRequests + failedRequests]. *)
Theorem every_request_counted_once (w : World) (c : Config) (k t : Z)
    (fuel : nat) :
  concurrentRequests c = Int k -> totalRequests c = Int t ->
  safe k = true -> safe t = true ->
  1 <= k -> 0 <= t -> (Z.to_nat t < fuel)%nat ->
  exists run,
    runStressTest fuel w c stats = Some run
    /\ Z.of_nat (length (dispatched_ids (trace run))) = t
    /\ Stats.totalRequests (final run) = t
    /\ Stats.successfulRequests (final run) + Stats.failedRequests (final run) = t.
Proof.
  intros Hk Ht Hsk _ Hk1 Ht0 Hfuel.
  assert (exists run, runStressTest fuel w c stats = Some run
                      /\ Z.of_nat (length (dispatched_ids (trace run))) = t)
    as (run & Hrun & Hlen).
  { destruct (Z.eq_dec t 0) as [-> | Hnz].
    - destruct fuel as [| fuel]; [lia |].
      unfold runStressTest. rewrite batch_loop_idle.
      + simpl. eexists. split; reflexivity.
      + rewrite Hk. exact Hsk.
      + now rewrite Ht.
      + rewrite Ht. apply andb_false_r.
    - destruct (plan_bounds k t Hk1 ltac:(lia)) as (Hn & Hr & Hall).
      destruct (runStressTest_trace w c stats k t fuel Hk Ht Hk1 ltac:(lia) Hfuel)
        as (run & line & Hrun & Htrace).
      exists run. split; [exact Hrun |]. rewrite Htrace.
      change (dispatched_ids (Log "INFO" line :: ?l)) with (dispatched_ids l).
      rewrite dispatched_ids_iterations, planned_ids by lia.
      rewrite length_fmap, length_app, !length_seqZ. nia. }
  exists run. split; [exact Hrun |]. split; [exact Hlen |].
  destruct (runStressTest_final fuel w c stats run Hrun) as [Htotal Hagree].
  specialize (Hagree eq_refl). unfold counts_agree in Hagree.
  rewrite <- Hagree, Htotal, Hlen. simpl. lia.
Qed.

Lemma every_request_counted_once_witness :
  exists run,
    runStressTest 11 steady (configured 4 10) stats = Some run
    /\ Z.of_nat (length (dispatched_ids (trace run))) = 10
    /\ Stats.totalRequests (final run) = 10
    /\ Stats.successfulRequests (final run) + Stats.failedRequests (final run) = 10.
Proof.
  apply (every_request_counted_once steady (configured 4 10) 4 10 11);
    [reflexivity | reflexivity | reflexivity | reflexivity | lia | lia | lia].
Defined.

(* ===================================================================== *)
(** * More on the statistics *)
(* ===================================================================== *)

Lemma settle_all_cons (requestId : num) (o : Outcome)
    (completions : list (num * Outcome)) (s : Stats.t) :
  settle_all ((requestId, o) :: completions) s
  = settle_all completions (fst (makeRequest requestId o s)).
Proof. reflexivity. Qed.

Lemma settle_all_records (completions : list (num * Outcome)) (s : Stats.t) :
  let s' := settle_all completions s in
  Stats.responseTimes s'
  = (Stats.responseTimes s ++ resolved_times completions)%list
  /\ Stats.errors s' = (Stats.errors s ++ rejections completions)%list
  /\ Stats.successfulRequests s'
     = Stats.successfulRequests s + Z.of_nat (length (resolved_times completions))
  /\ Stats.failedRequests s'
     = Stats.failedRequests s + Z.of_nat (length (rejections completions))
  /\ Stats.totalResponseTime s'
     = foldl (fun total x => (total + x)%float) (Stats.totalResponseTime s)
             (resolved_times completions).
Proof.
  revert s. induction completions as [| [requestId o] completions IH]; intros s.
  - simpl. rewrite !app_nil_r. repeat split; lia.
  - cbv zeta. rewrite settle_all_cons.
    destruct (IH (fst (makeRequest requestId o s))) as (Ht & He & Hs & Hf & Hsum).
    rewrite Ht, He, Hs, Hf, Hsum.
    destruct o as [status elapsed | message elapsed]; simpl;
      rewrite <- ?app_assoc; repeat split; lia.
Qed.

(** What every request keeps true is true at the end of a batch and at the
    end of the loop. *)
Section Invariant.
Context (P : Stats.t -> Prop).
Hypothesis makeRequest_keeps :
  forall requestId o s, P s -> P (fst (makeRequest requestId o s)).

Lemma settle_all_keeps (completions : list (num * Outcome)) (s : Stats.t) :
  P s -> P (settle_all completions s).
Proof.
  revert s. induction completions as [| [requestId o] completions IH];
    intros s Hs; [exact Hs |].
  rewrite settle_all_cons. apply IH, makeRequest_keeps, Hs.
Qed.

Lemma executeConcurrentRequests_keeps w batchNumber batchSize s ids results s' :
  executeConcurrentRequests w batchNumber batchSize s = Some (ids, results, s') ->
  P s -> P s'.
Proof.
  unfold executeConcurrentRequests. intros Hrun Hs.
  destruct (offsets batchSize) as [ofs |]; simpl in Hrun; [| discriminate].
  injection Hrun as _ _ <-. now apply settle_all_keeps.
Qed.

Lemma batch_loop_keeps fuel w c numBatches requestsPerBatch :
  forall batch s s' events,
    batch_loop fuel w c numBatches requestsPerBatch batch s = Some (s', events) ->
    P s -> P s'.
Proof.
  induction fuel as [| fuel IH]; intros batch s s' events Hrun Hs.
  - discriminate.
  - rewrite batch_loop_S in Hrun.
    destruct (Num.ltb (Int batch) numBatches); [| congruence].
    cbv zeta in Hrun.
    destruct (Num.leb _ (Int 0)); [congruence |].
    destruct (executeConcurrentRequests w batch _ s) as [[[ids results] s1] |] eqn:Hexec;
      [| discriminate].
    destruct (batch_loop fuel w c numBatches requestsPerBatch (batch + 1) s1)
      as [[s2 events2] |] eqn:Hrest; [| discriminate].
    injection Hrun as <- _.
    eapply IH; [exact Hrest |].
    eapply executeConcurrentRequests_keeps; eauto.
Qed.

End Invariant.

Lemma makeRequest_consistent (requestId : num) (o : Outcome) (s : Stats.t) :
  consistent s -> consistent (fst (makeRequest requestId o s)).
Proof.
  unfold consistent. intros (Ht & He & Hsum).
  destruct o as [status elapsed | message elapsed]; simpl;
    rewrite ?length_app, ?foldl_app; simpl; rewrite <- ?Hsum;
    repeat split; lia.
Qed.

(** X8: after any sequence of requests has settled on fresh statistics,
    [responseTimes] holds the times of the answered requests in the order
    they settled, [errors] one entry (identifier, message, time) per failed
    request in that order, the two counters are the lengths of these lists,
    and [totalResponseTime] is the sum of the recorded times, added up from 0
    in that order. *)
Theorem statistics_record_every_outcome (completions : list (num * Outcome)) :
  let s := settle_all completions stats in
  Stats.responseTimes s = resolved_times completions
  /\ Stats.errors s = rejections completions
  /\ Stats.successfulRequests s = Z.of_nat (length (resolved_times completions))
  /\ Stats.failedRequests s = Z.of_nat (length (rejections completions))
  /\ Stats.totalResponseTime s
     = foldl (fun total x => (total + x)%float) 0%float
             (resolved_times completions).
Proof. apply (settle_all_records completions stats). Qed.

Lemma runStressTest_consistent (fuel : nat) (w : World) (c : Config)
    (run : Run) :
  runStressTest fuel w c stats = Some run -> consistent (final run).
Proof.
  unfold runStressTest. intros Hrun.
  destruct (batch_loop fuel w c (numBatches c) (requestsPerBatch c) 0 _)
    as [[s' events] |] eqn:Hloop; [| discriminate].
  injection Hrun as <-.
  apply (batch_loop_keeps consistent makeRequest_consistent) in Hloop.
  - exact Hloop.
  - repeat split.
Qed.

(** X9: when the loop of a run started on fresh statistics has ended (the
    statistics [printStatistics] is given), [responseTimes] has
    [successfulRequests] entries, [errors] has [failedRequests] entries, and
    [totalResponseTime] is the sum of [responseTimes]. *)
Theorem run_keeps_statistics_consistent (fuel : nat) (w : World) (c : Config)
    (run : Run) :
  runStressTest fuel w c stats = Some run -> consistent (final run).
Proof. apply runStressTest_consistent. Qed.

Lemma run_keeps_statistics_consistent_witness :
  exists run,
    runStressTest 4 flaky (configured 4 10) stats = Some run
    /\ consistent (final run).
Proof.
  eexists. split; [reflexivity |].
  apply (run_keeps_statistics_consistent 4 flaky (configured 4 10) _ eq_refl).
Defined.

Lemma settle_all_app (l1 l2 : list (num * Outcome)) (s : Stats.t) :
  settle_all (l1 ++ l2) s = settle_all l2 (settle_all l1 s).
Proof. unfold settle_all. apply foldl_app. Qed.

(** X10: the order in which the requests of a batch settle does not
    matter for the counters.  Two executions of the same batch whose requests
    end the same way give the same identifiers, the same results and the same
    three counters, and the same recorded times and errors up to their
    order. *)
Theorem counters_do_not_depend_on_settle_order (w w' : World)
    (batchNumber : Z) (batchSize : num) (s : Stats.t) :
  (forall i, net w batchNumber i = net w' batchNumber i) ->
  match executeConcurrentRequests w batchNumber batchSize s,
        executeConcurrentRequests w' batchNumber batchSize s with
  | Some (ids, results, s1), Some (ids', results', s1') =>
      ids = ids' /\ results = results'
      /\ Stats.totalRequests s1 = Stats.totalRequests s1'
      /\ Stats.successfulRequests s1 = Stats.successfulRequests s1'
      /\ Stats.failedRequests s1 = Stats.failedRequests s1'
      /\ Stats.responseTimes s1 ≡ₚ Stats.responseTimes s1'
      /\ Stats.errors s1 ≡ₚ Stats.errors s1'
  | None, None => True
  | _, _ => False
  end.
Proof.
  intros Hnet. unfold executeConcurrentRequests.
  destruct (offsets batchSize) as [ofs |]; simpl; [| exact I].
  assert ((fun i => (request_id batchNumber batchSize i, net w batchNumber i))
            <$> settle w batchNumber ofs
          ≡ₚ (fun i => (request_id batchNumber batchSize i, net w' batchNumber i))
               <$> settle w' batchNumber ofs) as Hperm.
  { rewrite (settle_perm w), (settle_perm w').
    erewrite list_fmap_ext; [reflexivity |].
    intros _ i _. simpl. now rewrite Hnet. }
  split; [reflexivity |]. split.
  { apply list_fmap_ext. intros _ i _. simpl. now rewrite Hnet. }
  rewrite !settle_all_total.
  match goal with
  | |- context [settle_all ?l s] =>
      destruct (settle_all_records l s) as (-> & -> & -> & -> & _)
  end.
  match goal with
  | |- context [settle_all ?l s] =>
      destruct (settle_all_records l s) as (-> & -> & -> & -> & _)
  end.
  unfold resolved_times, rejections in *.
  rewrite Hperm. repeat split; reflexivity.
Qed.

Lemma counters_do_not_depend_on_settle_order_witness :
  match executeConcurrentRequests steady 2 (Int 3) stats,
        executeConcurrentRequests reversed 2 (Int 3) stats with
  | Some (ids, results, s1), Some (ids', results', s1') =>
      ids = ids' /\ results = results'
      /\ Stats.totalRequests s1 = Stats.totalRequests s1'
      /\ Stats.successfulRequests s1 = Stats.successfulRequests s1'
      /\ Stats.failedRequests s1 = Stats.failedRequests s1'
      /\ Stats.responseTimes s1 ≡ₚ Stats.responseTimes s1'
      /\ Stats.errors s1 ≡ₚ Stats.errors s1'
  | None, None => True
  | _, _ => False
  end.
Proof.
  apply (counters_do_not_depend_on_settle_order steady reversed 2 (Int 3) stats).
  intros i. reflexivity.
Defined.

(* ===================================================================== *)
(** * More on doubles, the minimum and the percentile *)
(* ===================================================================== *)

(** Comparing the other way round gives the opposite answer. *)
Lemma SFcompare_antisym (x y : spec_float) :
  SFcompare y x = CompOpp <$> SFcompare x y.
Proof.
  destruct x as [[|] | [|] | | [|] mx ex], y as [[|] | [|] | | [|] my ey];
    try reflexivity; simpl;
    rewrite (Z.compare_antisym ex ey), !Pos.compare_cont_spec;
    cbn [Pos.switch_Eq]; rewrite (Pos.compare_antisym mx my);
    destruct (ex ?= ey); simpl; try reflexivity;
    now destruct (mx ?= my)%positive.
Qed.

Lemma SFltb_SFleb (x y : spec_float) :
  SFltb x y = true -> SFleb x y = true.
Proof. unfold SFltb, SFleb. now destruct (SFcompare x y) as [[| |] |]. Qed.

Lemma SFleb_total (x y : spec_float) :
  x <> S754_nan -> y <> S754_nan -> SFltb x y = false -> SFleb y x = true.
Proof.
  intros Hx Hy. unfold SFltb, SFleb. rewrite (SFcompare_antisym x y).
  destruct (SFcompare x y) as [[| |] |] eqn:Hc; try reflexivity; try discriminate.
  destruct x as [[|] | [|] | | [|] mx ex], y as [[|] | [|] | | [|] my ey];
    try discriminate; congruence.
Qed.

Lemma SFleb_refl (x : spec_float) : x <> S754_nan -> SFleb x x = true.
Proof.
  intros Hx. unfold SFleb.
  destruct x as [[|] | [|] | | [|] mx ex]; try reflexivity; try congruence;
    simpl; rewrite Z.compare_refl, Pos.compare_cont_refl; reflexivity.
Qed.

(** Two finite numbers that are below each other are the same number, the
    two zeros apart. *)
Lemma SFleb_antisym (x y : spec_float) :
  SFleb x y = true -> SFleb y x = true ->
  sf_finite x = true -> sf_finite y = true ->
  x = y \/ exists s s', x = S754_zero s /\ y = S754_zero s'.
Proof.
  unfold SFleb. rewrite (SFcompare_antisym x y).
  destruct x as [sx | sx | | sx mx ex], y as [sy | sy | | sy my ey];
    try discriminate; intros Hxy Hyx _ _.
  - right. eauto.
  - simpl in *. now destruct sy.
  - simpl in *. now destruct sx.
  - left. simpl in *.
    destruct sx, sy; try discriminate;
      destruct (Z.compare_spec ex ey); try discriminate; subst;
      destruct (Pos.compare_cont Eq mx my) eqn:Hm; try discriminate;
      apply Pos.compare_eq in Hm; now subst.
Qed.

Lemma is_nan_false (a : float) : is_nan a = false -> Prim2SF a <> S754_nan.
Proof.
  unfold is_nan. rewrite (FloatAxioms.eqb_spec a a). intros H Hnan.
  rewrite Hnan in H. discriminate.
Qed.

Lemma ltb_leb (a b : float) : (a <? b)%float = true -> (a <=? b)%float = true.
Proof. rewrite ltb_spec, leb_spec. apply SFltb_SFleb. Qed.

Lemma leb_total (a b : float) :
  is_nan a = false -> is_nan b = false ->
  (a <? b)%float = false -> (b <=? a)%float = true.
Proof.
  rewrite ltb_spec, leb_spec. intros Ha Hb.
  apply SFleb_total; now apply is_nan_false.
Qed.

Lemma leb_refl (a : float) : is_nan a = false -> (a <=? a)%float = true.
Proof. rewrite leb_spec. intros Ha. now apply SFleb_refl, is_nan_false. Qed.

Lemma leb_antisym (a b : float) :
  (a <=? b)%float = true -> (b <=? a)%float = true ->
  ordinary a = true -> ordinary b = true -> a = b.
Proof.
  rewrite !leb_spec. unfold ordinary, finite, kept_by_or_zero.
  intros Hab Hba Ha Hb.
  apply andb_true_iff in Ha as [Hfa Hka], Hb as [Hfb Hkb].
  apply Prim2SF_inj.
  destruct (SFleb_antisym _ _ Hab Hba Hfa Hfb) as [Heq | (s & s' & Hx & Hy)];
    [exact Heq |].
  rewrite Hx, Hy in *. now destruct s, s'.
Qed.

(** [Math.min] and [Math.max] of two numbers *)
Lemma Math_min_spec (a b : float) :
  is_nan a = false -> is_nan b = false ->
  let m := F64.Math_min a b in
  is_nan m = false /\ (m <=? a)%float = true /\ (m <=? b)%float = true.
Proof.
  intros Ha Hb. unfold F64.Math_min. rewrite Ha, Hb. simpl.
  destruct (a <? b)%float eqn:Hab.
  - auto using leb_refl, ltb_leb.
  - destruct (b <? a)%float eqn:Hba.
    + auto using leb_refl, ltb_leb.
    + destruct (get_sign a); auto using leb_refl, leb_total.
Qed.

Lemma Math_max_spec (a b : float) :
  is_nan a = false -> is_nan b = false ->
  let m := F64.Math_max a b in
  is_nan m = false /\ (a <=? m)%float = true /\ (b <=? m)%float = true.
Proof.
  intros Ha Hb. unfold F64.Math_max. rewrite Ha, Hb. simpl.
  destruct (a <? b)%float eqn:Hab.
  - auto using leb_refl, ltb_leb.
  - destruct (b <? a)%float eqn:Hba.
    + auto using leb_refl, ltb_leb.
    + destruct (get_sign a); auto using leb_refl, leb_total.
Qed.

Lemma makeRequest_bounded_times (requestId : num) (o : Outcome) (s : Stats.t) :
  is_nan (elapsed_time o) = false ->
  bounded_times s -> bounded_times (fst (makeRequest requestId o s)).
Proof.
  unfold bounded_times. intros Ho (Hmin & Hmax & Hall).
  destruct o as [status elapsed | message elapsed]; simpl in *; [| auto].
  destruct (Math_min_spec (Stats.minResponseTime s) elapsed Hmin Ho)
    as (Hn & Hlo & Hle).
  destruct (Math_max_spec (Stats.maxResponseTime s) elapsed Hmax Ho)
    as (Hx & Hhi & Hge).
  split; [exact Hn |]. split; [exact Hx |].
  apply Forall_app. split.
  - eapply Forall_impl; [exact Hall |]. intros x [H1 H2]. simpl.
    split; [exact (leb_trans _ _ _ Hlo H1) | exact (leb_trans _ _ _ H2 Hhi)].
  - repeat constructor; assumption.
Qed.

Lemma settle_all_bounded_times (completions : list (num * Outcome))
    (s : Stats.t) :
  forallb (fun c => negb (is_nan (elapsed_time (snd c)))) completions = true ->
  bounded_times s -> bounded_times (settle_all completions s).
Proof.
  revert s. induction completions as [| [requestId o] completions IH];
    intros s Hnum Hs; [exact Hs |].
  simpl in Hnum. apply andb_true_iff in Hnum as [Ho Hnum].
  rewrite settle_all_cons. apply IH; [exact Hnum |].
  apply makeRequest_bounded_times; [| exact Hs].
  now apply negb_true_iff in Ho.
Qed.

(** X11: as long as no measured time is NaN, after any sequence of
    requests on fresh statistics every recorded response time lies between
    [minResponseTime] and [maxResponseTime]; so the minimum is at most the
    maximum once a time is recorded. *)
Theorem recorded_times_between_minimum_and_maximum
    (completions : list (num * Outcome)) :
  forallb (fun c => negb (is_nan (elapsed_time (snd c)))) completions = true ->
  let s := settle_all completions stats in
  Forall (fun x => (Stats.minResponseTime s <=? x)%float = true
                   /\ (x <=? Stats.maxResponseTime s)%float = true)
         (Stats.responseTimes s)
  /\ (Stats.responseTimes s <> [] ->
      (Stats.minResponseTime s <=? Stats.maxResponseTime s)%float = true).
Proof.
  intros Hnum s.
  assert (bounded_times s) as (Hmin & Hmax & Hall).
  { apply settle_all_bounded_times; [exact Hnum |].
    repeat split; constructor. }
  split; [exact Hall |].
  intros Hne. destruct (Stats.responseTimes s) as [| x l]; [congruence |].
  inversion_clear Hall as [| ? ? [H1 H2] _]. exact (leb_trans _ _ _ H1 H2).
Qed.

Lemma recorded_times_between_minimum_and_maximum_witness :
  let s := settle_all [(Int 1, Resolved 200 12.5%float);
                       (Int 2, Rejected "timeout of 5000ms exceeded" 5000.5%float);
                       (Int 3, Resolved 200 3.25%float)] stats in
  Forall (fun x => (Stats.minResponseTime s <=? x)%float = true
                   /\ (x <=? Stats.maxResponseTime s)%float = true)
         (Stats.responseTimes s)
  /\ (Stats.responseTimes s <> [] ->
      (Stats.minResponseTime s <=? Stats.maxResponseTime s)%float = true).
Proof.
  apply (recorded_times_between_minimum_and_maximum
           [(Int 1, Resolved 200 12.5%float);
            (Int 2, Rejected "timeout of 5000ms exceeded" 5000.5%float);
            (Int 3, Resolved 200 3.25%float)]).
  reflexivity.
Defined.

(** Two arrays with the same elements are the same array once sorted. *)
Lemma sort_ascending_unique (values values' : list float) :
  forallb ordinary values = true -> values ≡ₚ values' ->
  sort_ascending values = sort_ascending values'.
Proof.
  intros Hord Hperm.
  pose proof (forallb_perm _ _ _ Hperm Hord) as Hord'.
  destruct (forallb_ordinary values Hord) as [Hfin _].
  destruct (forallb_ordinary values' Hord') as [Hfin' _].
  apply (StronglySorted_unique_strong (fun a b => (a <=? b)%float = true)).
  - intros a b Ha Hb Hab Hba.
    rewrite sort_ascending_perm in Ha, Hb.
    rewrite forallb_forall in Hord, Hord'.
    apply leb_antisym; auto.
    + apply Hord, list_elem_of_In, Ha.
    + apply Hord', list_elem_of_In, Hb.
  - now apply sort_ascending_ascending.
  - now apply sort_ascending_ascending.
  - now rewrite !sort_ascending_perm.
Qed.

Lemma calculatePercentile_perm (values values' : list float) (p : float) :
  forallb ordinary values = true -> values ≡ₚ values' ->
  calculatePercentile values p = calculatePercentile values' p.
Proof.
  intros Hord Hperm. unfold calculatePercentile.
  now rewrite (sort_ascending_unique values values' Hord Hperm).
Qed.

Lemma calculatePercentile_sorted (values : list float) (p : float) :
  forallb ordinary values = true ->
  calculatePercentile (sort_ascending values) p = calculatePercentile values p.
Proof.
  intros Hord. symmetry. apply calculatePercentile_perm; [exact Hord |].
  symmetry. apply sort_ascending_perm.
Qed.

(** X12: the percentile does not depend on the order in which the times
    were recorded.  Two arrays of elapsed times (finite, not [-0]) with the
    same elements are the same array once sorted, and have the same
    percentiles. *)
Theorem percentile_ignores_recording_order (values values' : list float)
    (percentile : float) :
  forallb ordinary values = true -> values ≡ₚ values' ->
  sort_ascending values = sort_ascending values'
  /\ calculatePercentile values percentile
     = calculatePercentile values' percentile.
Proof.
  intros Hord Hperm. split.
  - now apply sort_ascending_unique.
  - now apply calculatePercentile_perm.
Qed.

Lemma percentile_ignores_recording_order_witness :
  sort_ascending [40; 10.5; 50; 20; 30.25; 20]%float
  = sort_ascending (reverse [40; 10.5; 50; 20; 30.25; 20]%float)
  /\ calculatePercentile [40; 10.5; 50; 20; 30.25; 20]%float 95
     = calculatePercentile (reverse [40; 10.5; 50; 20; 30.25; 20]%float) 95.
Proof.
  apply (percentile_ignores_recording_order
           [40; 10.5; 50; 20; 30.25; 20]%float
           (reverse [40; 10.5; 50; 20; 30.25; 20]%float) 95).
  - reflexivity.
  - symmetry. apply reverse_Permutation.
Defined.

(** X13: [calculatePercentile] sorts [stats.responseTimes] in place, so
    the second to the fourth call in [printStatistics] work on the sorted
    array.  Sorting a sorted array of elapsed times changes nothing, and the
    four lines printed are the 50th, 90th, 95th and 99th percentile of the
    recorded times. *)
Theorem printed_percentiles_are_those_of_the_recorded_times (s : Stats.t) :
  forallb ordinary (Stats.responseTimes s) = true ->
  0 < Stats.successfulRequests s ->
  let times := Stats.responseTimes s in
  sort_ascending (sort_ascending times) = sort_ascending times
  /\ exists lines,
      response_time_statistics (printStatistics s) = Some lines
      /\ percentile_50 lines
         = line "  50th Percentile: " (calculatePercentile times 50) "ms"
      /\ percentile_90 lines
         = line "  90th Percentile: " (calculatePercentile times 90) "ms"
      /\ percentile_95 lines
         = line "  95th Percentile: " (calculatePercentile times 95) "ms"
      /\ percentile_99 lines
         = line "  99th Percentile: " (calculatePercentile times 99) "ms".
Proof.
  intros Hord Hpos times.
  assert (forall l, l ≡ₚ times -> forallb ordinary l = true) as Hl.
  { intros l Hperm. apply (forallb_perm _ times); [now symmetry | exact Hord]. }
  assert (sort_ascending (sort_ascending times) = sort_ascending times) as Hidem.
  { symmetry. apply sort_ascending_unique; [exact Hord |].
    symmetry. apply sort_ascending_perm. }
  split; [exact Hidem |].
  unfold printStatistics. cbv zeta. cbn [response_time_statistics].
  apply Z.ltb_lt in Hpos. rewrite Hpos.
  eexists. split; [reflexivity |].
  cbn [percentile_50 percentile_90 percentile_95 percentile_99].
  fold times. rewrite !Hidem.
  rewrite !(calculatePercentile_sorted times) by exact Hord.
  repeat split.
Qed.

Lemma printed_percentiles_are_those_of_the_recorded_times_witness :
  let s := settle_all [(Int 1, Resolved 200 40%float);
                       (Int 2, Resolved 200 10.5%float);
                       (Int 3, Rejected "timeout of 5000ms exceeded" 5000.5%float);
                       (Int 4, Resolved 200 20%float)] stats in
  let times := Stats.responseTimes s in
  sort_ascending (sort_ascending times) = sort_ascending times
  /\ exists lines,
      response_time_statistics (printStatistics s) = Some lines
      /\ percentile_50 lines
         = line "  50th Percentile: " (calculatePercentile times 50) "ms"
      /\ percentile_90 lines
         = line "  90th Percentile: " (calculatePercentile times 90) "ms"
      /\ percentile_95 lines
         = line "  95th Percentile: " (calculatePercentile times 95) "ms"
      /\ percentile_99 lines
         = line "  99th Percentile: " (calculatePercentile times 99) "ms".
Proof.
  apply (printed_percentiles_are_those_of_the_recorded_times
           (settle_all [(Int 1, Resolved 200 40%float);
                        (Int 2, Resolved 200 10.5%float);
                        (Int 3, Rejected "timeout of 5000ms exceeded" 5000.5%float);
                        (Int 4, Resolved 200 20%float)] stats)).
  - reflexivity.
  - reflexivity.
Defined.

(* ===================================================================== *)
(** * More on the configuration *)
(* ===================================================================== *)

Lemma or_else_truthy (a d : num) :
  Num.truthy d = true -> Num.truthy (Num.or_else a d) = true.
Proof. intros Hd. unfold Num.or_else. now destruct (Num.truthy a) eqn:Ha. Qed.

Lemma str_or_else_nonempty (s : option string) (d : string) :
  d <> "" -> str_or_else s d <> "".
Proof. intros Hd. destruct s as [[| a s] |]; simpl; congruence. Qed.

(** X14: whatever the environment, the configuration built at load time
    has numbers that are neither 0 nor NaN for the concurrency, the total,
    the delay and the time-out, a base URL that is not empty, and the
    endpoint [/pi]. *)
Theorem environment_never_gives_zero_or_NaN (env : Env) :
  let c := CONFIG env in
  Num.truthy (concurrentRequests c) = true
  /\ Num.truthy (totalRequests c) = true
  /\ Num.truthy (delayBetweenBatches c) = true
  /\ Num.truthy (timeout c) = true
  /\ (exists url, baseURL c = Some url /\ url <> "")
  /\ endpoint c = "/pi".
Proof.
  simpl. repeat split; try (now apply or_else_truthy).
  eexists. split; [reflexivity |]. now apply str_or_else_nonempty.
Qed.

Lemma parseArgs_step (c : Config) (arg : string) (rest : list string)
    (c' : Config) (ws : list string) :
  parseArgs c (arg :: rest) = Args c' ws ->
  exists c1 rest1 ws1,
    parseArgs c1 rest1 = Args c' ws1
    /\ (length rest1 <= length rest)%nat
    /\ (forall x, x ∈ rest1 -> x ∈ rest)
    /\ Step c arg c1 ws ws1.
Proof.
  cbn [parseArgs].
  assert (forall (set : option string -> Config),
             match rest with
             | [] => Args (set None) []
             | value :: rest' => parseArgs (set (Some value)) rest'
             end = Args c' ws ->
             exists v rest1,
               parseArgs (set v) rest1 = Args c' ws
               /\ (length rest1 <= length rest)%nat
               /\ (forall x, x ∈ rest1 -> x ∈ rest)) as Hvalue.
  { intros set Hset. destruct rest as [| value rest'].
    - exists None, []. auto.
    - exists (Some value), rest'. split; [exact Hset |].
      split; [simpl; lia |]. intros x Hx. now right. }
  destruct (String.eqb_spec arg "--help") as [-> | Hhelp]; [discriminate |].
  destruct (String.eqb_spec arg "-h") as [-> | Hh]; [discriminate |].
  cbn [orb].
  destruct (String.eqb_spec arg "--concurrent") as [-> | Hconcurrent].
  { intros H. apply (Hvalue (fun v => set_concurrentRequests (parseInt v) c)) in H
      as (v & rest1 & H & Hl & Hin).
    eexists _, rest1, ws. split; [exact H |]. split; [exact Hl |].
    split; [exact Hin |]. now apply (step_concurrent _ _ _ _ _ v). }
  destruct (String.eqb_spec arg "--total") as [-> | Htotal].
  { intros H. apply (Hvalue (fun v => set_totalRequests (parseInt v) c)) in H
      as (v & rest1 & H & Hl & Hin).
    eexists _, rest1, ws. split; [exact H |]. split; [exact Hl |].
    split; [exact Hin |]. now apply (step_total _ _ _ _ _ v). }
  destruct (String.eqb_spec arg "--delay") as [-> | Hdelay].
  { intros H. apply (Hvalue (fun v => set_delayBetweenBatches (parseInt v) c)) in H
      as (v & rest1 & H & Hl & Hin).
    eexists _, rest1, ws. split; [exact H |]. split; [exact Hl |].
    split; [exact Hin |]. now apply (step_delay _ _ _ _ _ v). }
  destruct (String.eqb_spec arg "--timeout") as [-> | Htimeout].
  { intros H. apply (Hvalue (fun v => set_timeout (parseInt v) c)) in H
      as (v & rest1 & H & Hl & Hin).
    eexists _, rest1, ws. split; [exact H |]. split; [exact Hl |].
    split; [exact Hin |]. now apply (step_timeout _ _ _ _ _ v). }
  destruct (String.eqb_spec arg "--base-url") as [-> | Hbase].
  { intros H. apply (Hvalue (fun v => set_baseURL v c)) in H
      as (v & rest1 & H & Hl & Hin).
    eexists _, rest1, ws. split; [exact H |]. split; [exact Hl |].
    split; [exact Hin |]. now apply (step_base_url _ _ _ _ _ v). }
  destruct (String.eqb_spec arg "--verbose") as [-> | Hverbose].
  { intros H. eexists _, rest, ws. split; [exact H |]. split; [lia |].
    split; [auto |]. now apply step_verbose. }
  assert (arg ∉ known_options) as Hunknown.
  { unfold known_options. rewrite !not_elem_of_cons.
    repeat split; auto. apply not_elem_of_nil. }
  destruct (String.prefix "--" arg) eqn:Hprefix.
  - intros H. destruct (parseArgs c rest) as [code | c2 ws2] eqn:Hrest;
      [discriminate |].
    injection H as <- <-. exists c, rest, ws2. split; [exact Hrest |].
    split; [lia |]. split; [auto |]. now apply step_unknown.
  - intros H. exists c, rest, ws. split; [exact H |]. split; [lia |].
    split; [auto |]. now apply step_ignored.
Qed.

Lemma parseArgs_frame (n : nat) :
  forall (args : list string) (c c' : Config) (ws : list string),
    (length args <= n)%nat ->
    parseArgs c args = Args c' ws -> changed_by_flags_only args c c'.
Proof.
  induction n as [| n IH]; intros args c c' ws Hlen Hrun.
  - destruct args; [| simpl in Hlen; lia].
    injection Hrun as <- <-. repeat split; auto.
  - destruct args as [| arg rest].
    { injection Hrun as <- <-. repeat split; auto. }
    simpl in Hlen.
    apply parseArgs_step in Hrun as (c1 & rest1 & ws1 & Hrun & Hl & Hin & Hstep).
    apply IH in Hrun; [| lia].
    destruct Hrun as (He & Hk & Ht & Hd & Hto & Hb & Hv & Hv').
    assert (forall x, x ∉ (arg :: rest) -> (x ∉ rest1) /\ x <> arg) as Hnot.
    { intros x Hx. apply not_elem_of_cons in Hx as [Hne Hx]. split; auto. }
    destruct Hstep; subst; unfold changed_by_flags_only;
      repeat split;
      try (intros Hx; apply Hnot in Hx as [Hx Hne]);
      try congruence;
      rewrite ?He, ?(Hk ltac:(assumption)), ?(Ht ltac:(assumption)),
        ?(Hd ltac:(assumption)), ?(Hto ltac:(assumption)),
        ?(Hb ltac:(assumption)), ?(Hv ltac:(assumption));
      try reflexivity; auto.
Qed.

Lemma parseArgs_warnings (n : nat) :
  forall (args : list string) (c c' : Config) (ws : list string),
    (length args <= n)%nat ->
    parseArgs c args = Args c' ws ->
    Forall (fun w => exists arg,
                w = "Unknown option: " +:+ arg /\ arg ∈ args
                /\ String.prefix "--" arg = true /\ arg ∉ known_options) ws
    /\ (length ws <= length args)%nat.
Proof.
  induction n as [| n IH]; intros args c c' ws Hlen Hrun.
  - destruct args; [| simpl in Hlen; lia].
    injection Hrun as <- <-. split; [constructor | simpl; lia].
  - destruct args as [| arg rest].
    { injection Hrun as <- <-. split; [constructor | simpl; lia]. }
    simpl in Hlen.
    apply parseArgs_step in Hrun as (c1 & rest1 & ws1 & Hrun & Hl & Hin & Hstep).
    apply IH in Hrun as [Hws Hlws]; [| lia].
    assert (Forall (fun w => exists arg0,
                        w = "Unknown option: " +:+ arg0 /\ arg0 ∈ arg :: rest
                        /\ String.prefix "--" arg0 = true
                        /\ arg0 ∉ known_options) ws1) as Hws1.
    { eapply Forall_impl; [exact Hws |].
      intros w (arg0 & -> & Harg0 & Hp & Hu). exists arg0.
      repeat split; auto. right. auto. }
    destruct Hstep; subst; simpl; (split; [| lia]); try exact Hws1.
    constructor; [| exact Hws1].
    exists arg. repeat split; auto. left.
Qed.

(** X15: [parseArgs] changes a setting only if its flag occurs among the
    arguments: without [--total] the total is as before, and so on for
    [--concurrent], [--delay], [--timeout], [--base-url] and [--verbose].  It
    never changes the endpoint and never switches [verbose] off. *)
Theorem settings_change_only_by_their_flag (c c' : Config)
    (args ws : list string) :
  parseArgs c args = Args c' ws ->
  endpoint c' = endpoint c
  /\ ("--concurrent" ∉ args -> concurrentRequests c' = concurrentRequests c)
  /\ ("--total" ∉ args -> totalRequests c' = totalRequests c)
  /\ ("--delay" ∉ args -> delayBetweenBatches c' = delayBetweenBatches c)
  /\ ("--timeout" ∉ args -> timeout c' = timeout c)
  /\ ("--base-url" ∉ args -> baseURL c' = baseURL c)
  /\ ("--verbose" ∉ args -> verbose c' = verbose c)
  /\ (verbose c = true -> verbose c' = true).
Proof. intros Hrun. exact (parseArgs_frame _ args c c' ws (le_n _) Hrun). Qed.

Lemma settings_change_only_by_their_flag_witness :
  let c := CONFIG ∅ in
  let args := ["--total"; "--verbose"; "stray"; "--fast"; "--delay"; "250"] in
  let c' := set_delayBetweenBatches (Int 250) (set_totalRequests NaN c) in
  endpoint c' = endpoint c
  /\ ("--concurrent" ∉ args -> concurrentRequests c' = concurrentRequests c)
  /\ ("--total" ∉ args -> totalRequests c' = totalRequests c)
  /\ ("--delay" ∉ args -> delayBetweenBatches c' = delayBetweenBatches c)
  /\ ("--timeout" ∉ args -> timeout c' = timeout c)
  /\ ("--base-url" ∉ args -> baseURL c' = baseURL c)
  /\ ("--verbose" ∉ args -> verbose c' = verbose c)
  /\ (verbose c = true -> verbose c' = true).
Proof.
  apply (settings_change_only_by_their_flag
           (CONFIG ∅) _
           ["--total"; "--verbose"; "stray"; "--fast"; "--delay"; "250"]
           ["Unknown option: --fast"]).
  reflexivity.
Defined.

(** X16: every warning of [parseArgs] is "Unknown option: " followed by
    one of the arguments, which starts with [--] and is none of the known
    options; there is at most one warning per argument. *)
Theorem warnings_are_for_unknown_options (c c' : Config)
    (args ws : list string) :
  parseArgs c args = Args c' ws ->
  Forall (fun w => exists arg,
              w = "Unknown option: " +:+ arg /\ arg ∈ args
              /\ String.prefix "--" arg = true /\ arg ∉ known_options) ws
  /\ (length ws <= length args)%nat.
Proof. intros Hrun. exact (parseArgs_warnings _ args c c' ws (le_n _) Hrun). Qed.

Lemma warnings_are_for_unknown_options_witness :
  let args := ["--total"; "--verbose"; "stray"; "--fast"; "--delay"; "250"] in
  let ws := ["Unknown option: --fast"] in
  Forall (fun w => exists arg,
              w = "Unknown option: " +:+ arg /\ arg ∈ args
              /\ String.prefix "--" arg = true /\ arg ∉ known_options) ws
  /\ (length ws <= length args)%nat.
Proof.
  apply (warnings_are_for_unknown_options
           (CONFIG ∅)
           (set_delayBetweenBatches (Int 250) (set_totalRequests NaN (CONFIG ∅)))
           ["--total"; "--verbose"; "stray"; "--fast"; "--delay"; "250"]
           ["Unknown option: --fast"]).
  reflexivity.
Defined.

(* ===================================================================== *)
(** * The client, the sections of the report and the error summary *)
(* ===================================================================== *)

(** X17: the command line does not reach the HTTP client.  [api] is
    created when the module is loaded, before [parseArgs] runs: whatever the
    arguments, the run is made with a client that has the base URL and the
    time-out of the environment (or the defaults), while the lines printed
    at its start show the values the command line gave. *)
Theorem command_line_does_not_reach_the_client (env : Env)
    (argv : list string) (c : Config) (ws : list string) (fuel : nat)
    (w : World) :
  parseArgs (CONFIG env) argv = Args c ws ->
  main fuel w env argv
  = Completed (api (CONFIG env)) ws (banner c) <$> runStressTest fuel w c stats
  /\ client_baseURL (api (CONFIG env))
     = Some (str_or_else (env !! "BASE_URL") "http://localhost:3000")
  /\ client_timeout (api (CONFIG env))
     = Num.or_else (parseInt (env !! "TIMEOUT")) (Int 5000)
  /\ banner c !! 0%nat
     = Some ("Target: " +:+ default "undefined" (baseURL c) +:+ "/pi")
  /\ banner c !! 4%nat
     = Some ("Timeout: " +:+ Num.to_string (timeout c) +:+ "ms").
Proof.
  intros Hargs. unfold main. rewrite Hargs.
  repeat split.
  destruct (parseArgs_frame _ argv (CONFIG env) c ws (le_n _) Hargs) as (He & _).
  simpl. now rewrite He.
Qed.

Lemma command_line_does_not_reach_the_client_witness :
  let argv := ["--base-url"; "http://example.test"; "--timeout"; "250"] in
  let c := set_timeout (Int 250) (set_baseURL (Some "http://example.test") (CONFIG ∅)) in
  main 11 steady ∅ argv
  = Completed (api (CONFIG ∅)) [] (banner c) <$> runStressTest 11 steady c stats
  /\ client_baseURL (api (CONFIG ∅)) = Some "http://localhost:3000"
  /\ client_timeout (api (CONFIG ∅)) = Int 5000
  /\ banner c !! 0%nat = Some "Target: http://example.test/pi"
  /\ banner c !! 4%nat = Some "Timeout: 250ms".
Proof.
  exact (command_line_does_not_reach_the_client
           ∅ ["--base-url"; "http://example.test"; "--timeout"; "250"]
           (set_timeout (Int 250)
              (set_baseURL (Some "http://example.test") (CONFIG ∅)))
           [] 11 steady eq_refl).
Defined.

(** X18: in the report of a run started on fresh statistics, the
    response-time section is left out exactly when no response time was
    recorded, which is when [successfulRequests] is 0; so the percentiles
    are never computed on an empty array. *)
Theorem response_times_printed_when_recorded (fuel : nat) (w : World)
    (c : Config) (run : Run) :
  runStressTest fuel w c stats = Some run ->
  (response_time_statistics (report run) = None
   <-> Stats.responseTimes (final run) = [])
  /\ (Stats.successfulRequests (final run) = 0
      <-> Stats.responseTimes (final run) = []).
Proof.
  intros Hrun.
  destruct (runStressTest_consistent fuel w c run Hrun) as (Hlen & _).
  assert (report run = printStatistics (final run)) as ->.
  { unfold runStressTest in Hrun.
    destruct (batch_loop fuel w c (numBatches c) (requestsPerBatch c) 0 _)
      as [[s' events] |]; [| discriminate].
    now injection Hrun as <-. }
  unfold printStatistics. cbn [response_time_statistics].
  rewrite <- Hlen.
  destruct (Stats.responseTimes (final run)) as [| x l]; simpl.
  - repeat split; auto.
  - repeat split; intros; try discriminate; lia.
Qed.

Lemma response_times_printed_when_recorded_witness :
  exists run,
    runStressTest 4 flaky (configured 4 10) stats = Some run
    /\ (response_time_statistics (report run) = None
        <-> Stats.responseTimes (final run) = [])
    /\ (Stats.successfulRequests (final run) = 0
        <-> Stats.responseTimes (final run) = []).
Proof.
  eexists. split; [reflexivity |].
  apply (response_times_printed_when_recorded 4 flaky (configured 4 10) _ eq_refl).
Defined.

Lemma count_key_occurrences (key : string) (l : list (string * Z)) :
  occurrences (count_key key l) = occurrences l + 1.
Proof.
  induction l as [| [k n] l IH]; [reflexivity |].
  simpl. destruct (String.eqb k key); simpl; [| rewrite IH]; lia.
Qed.

Lemma count_key_keys (key : string) (l : list (string * Z)) :
  (count_key key l).*1 = if decide (key ∈ l.*1) then l.*1 else (l.*1 ++ [key])%list.
Proof.
  induction l as [| [k n] l IH]; [reflexivity |].
  cbn [count_key]. destruct (String.eqb_spec k key) as [-> | Hne];
    rewrite !fmap_cons; cbn [fst].
  - rewrite decide_True by left. reflexivity.
  - rewrite IH. destruct (decide (key ∈ l.*1)) as [Hin | Hout].
    + rewrite decide_True by now right. reflexivity.
    + rewrite decide_False; [reflexivity |].
      rewrite not_elem_of_cons. split; congruence.
Qed.

Lemma count_key_positive (key : string) (l : list (string * Z)) :
  Forall (fun entry => 1 <= snd entry) l ->
  Forall (fun entry => 1 <= snd entry) (count_key key l).
Proof.
  induction 1 as [| [k n] l Hn Hl IH]; cbn [count_key].
  - repeat constructor. simpl. lia.
  - destruct (String.eqb k key); constructor; simpl in *; auto; lia.
Qed.

Lemma errorTypes_snoc (errors : list ErrorEntry) (e : ErrorEntry) :
  errorTypes (errors ++ [e]) = count_key (error_key e) (errorTypes errors).
Proof. unfold errorTypes. now rewrite foldl_app. Qed.

Lemma errorTypes_spec (errors : list ErrorEntry) :
  occurrences (errorTypes errors) = Z.of_nat (length errors)
  /\ NoDup (errorTypes errors).*1
  /\ (forall key, key ∈ (errorTypes errors).*1 <-> key ∈ error_key <$> errors)
  /\ Forall (fun entry => 1 <= snd entry) (errorTypes errors).
Proof.
  induction errors as [| e errors IH] using rev_ind.
  - repeat split; try constructor; intros H; inversion H.
  - destruct IH as (Hsum & Hnodup & Hkeys & Hpos).
    rewrite errorTypes_snoc, count_key_occurrences, count_key_keys.
    rewrite length_app, fmap_app. simpl.
    split; [lia |].
    destruct (decide (error_key e ∈ (errorTypes errors).*1)) as [Hin | Hout].
    + split; [exact Hnodup |]. split; [| now apply count_key_positive].
      intros key. rewrite elem_of_app, <- Hkeys, list_elem_of_singleton.
      split; [tauto |]. intros [H | ->]; assumption.
    + split.
      { apply NoDup_app. repeat split; auto.
        - intros x Hx Hx'. apply list_elem_of_singleton in Hx'. now subst.
        - apply NoDup_singleton. }
      split; [| now apply count_key_positive].
      intros key. now rewrite !elem_of_app, <- Hkeys.
Qed.

(** X19: the error summary counts every error once: it has one line per
    key, the counts add up to the number of errors, no key is listed twice,
    the keys are those of the errors, and every count is at least 1.  Keys
    that are names inherited from [Object.prototype] are excluded: for them
    [errorTypes[key]] is not [undefined] on the fresh object. *)
Theorem error_summary_counts_every_error (s : Stats.t) :
  forallb (fun e => own_key (error_key e)) (Stats.errors s) = true ->
  let summary := errorTypes (Stats.errors s) in
  length (error_summary (printStatistics s)) = length summary
  /\ occurrences summary = Z.of_nat (length (Stats.errors s))
  /\ NoDup summary.*1
  /\ (forall key, key ∈ summary.*1 <-> key ∈ error_key <$> Stats.errors s)
  /\ Forall (fun entry => 1 <= snd entry) summary.
Proof.
  intros _ summary. split.
  - unfold printStatistics. cbn [error_summary]. now rewrite length_fmap.
  - apply errorTypes_spec.
Qed.

Lemma error_summary_counts_every_error_witness :
  let s := settle_all [(Int 1, Rejected "timeout of 5000ms exceeded" 5000.5%float);
                       (Int 2, Rejected "connect ECONNREFUSED: 127.0.0.1:3000" 1.5%float);
                       (Int 3, Rejected "timeout of 5000ms exceeded" 5000.25%float)]
                      stats in
  let summary := errorTypes (Stats.errors s) in
  length (error_summary (printStatistics s)) = length summary
  /\ occurrences summary = Z.of_nat (length (Stats.errors s))
  /\ NoDup summary.*1
  /\ (forall key, key ∈ summary.*1 <-> key ∈ error_key <$> Stats.errors s)
  /\ Forall (fun entry => 1 <= snd entry) summary.
Proof.
  apply (error_summary_counts_every_error
           (settle_all [(Int 1, Rejected "timeout of 5000ms exceeded" 5000.5%float);
                        (Int 2, Rejected "connect ECONNREFUSED: 127.0.0.1:3000" 1.5%float);
                        (Int 3, Rejected "timeout of 5000ms exceeded" 5000.25%float)]
                       stats)).
  reflexivity.
Defined.

(* ===================================================================== *)
(** * Even batches, the results of a batch, and the service's endpoints *)
(* ===================================================================== *)

(** X20: when the concurrency [k >= 1] divides the total [t >= 1], a run
    issues [t / k] batches of exactly [k] requests each, which is what
    cutting by the concurrency level gives, and the identifiers are [1] to
    [t] in order. *)
Theorem even_split_when_concurrency_divides_total (w : World) (c : Config)
    (s : Stats.t) (k t : Z) (fuel : nat) :
  concurrentRequests c = Int k -> totalRequests c = Int t ->
  safe k = true -> safe t = true ->
  1 <= k -> 1 <= t -> t mod k = 0 -> (Z.to_nat t < fuel)%nat ->
  numBatches c = Int (t / k) /\ requestsPerBatch c = Int k
  /\ exists run,
      runStressTest fuel w c s = Some run
      /\ batch_sizes (trace run) = replicate (Z.to_nat (t / k)) (Int k)
      /\ batch_sizes (trace run) = Int <$> naive_chunks k t
      /\ dispatched_ids (trace run) = Int <$> seqZ 1 t.
Proof.
  intros Hk Ht _ _ Hk1 Ht1 Hmod Hfuel.
  destruct (plan_bounds k t Hk1 Ht1) as (Hn & Hr & Hall).
  pose proof (ceiling_bounds t k ltac:(lia)) as Hcn.
  pose proof (Z.div_mod t k ltac:(lia)) as Hdiv. rewrite Hmod in Hdiv.
  assert (ceiling t k = t / k) as En by nia.
  pose proof (ceiling_bounds t (ceiling t k) ltac:(lia)) as Hcr.
  assert (ceiling t (ceiling t k) = k) as Er by nia.
  destruct (requestsPerBatch_Int c k t Hk Ht Hk1 Ht1) as (Hrpb & _).
  rewrite (numBatches_Int c k t Hk Ht Hk1), Hrpb, Er, En.
  split; [reflexivity |]. split; [reflexivity |].
  destruct (runStressTest_trace w c s k t fuel Hk Ht Hk1 Ht1 Hfuel)
    as (run & line & Hrun & Htrace).
  rewrite En in Htrace, Hall, Hn, Hr, Er. rewrite Er in Htrace, Hall, Hr.
  exists run. split; [exact Hrun |]. rewrite Htrace.
  change (batch_sizes (Log "INFO" line :: ?l)) with (batch_sizes l).
  change (dispatched_ids (Log "INFO" line :: ?l)) with (dispatched_ids l).
  rewrite batch_sizes_iterations, dispatched_ids_iterations.
  rewrite planned_sizes, planned_ids by lia.
  replace (t - (t / k - 1) * k) with k by lia.
  assert (Int <$> (replicate (Z.to_nat (t / k - 1)) k ++ [k])%list
          = replicate (Z.to_nat (t / k)) (Int k)) as Hsizes.
  { replace (Z.to_nat (t / k)) with (S (Z.to_nat (t / k - 1))) by lia.
    now rewrite replicate_S_end, fmap_app, fmap_replicate. }
  split; [exact Hsizes |]. split.
  - rewrite Hsizes. unfold naive_chunks. rewrite Hmod. simpl.
    now rewrite app_nil_r, fmap_replicate.
  - f_equal. transitivity (seqZ 1 ((t / k - 1) * k + k)); [| f_equal; lia].
    rewrite seqZ_app by nia. f_equal. f_equal. lia.
Qed.

Lemma even_split_when_concurrency_divides_total_witness :
  numBatches (CONFIG ∅) = Int (100 / 10) /\ requestsPerBatch (CONFIG ∅) = Int 10
  /\ exists run,
      runStressTest 101 steady (CONFIG ∅) stats = Some run
      /\ batch_sizes (trace run) = replicate (Z.to_nat (100 / 10)) (Int 10)
      /\ batch_sizes (trace run) = Int <$> naive_chunks 10 100
      /\ dispatched_ids (trace run) = Int <$> seqZ 1 100.
Proof.
  apply (even_split_when_concurrency_divides_total steady (CONFIG ∅) stats
           10 100 101);
    [reflexivity | reflexivity | reflexivity | reflexivity | lia | lia | reflexivity | lia].
Defined.

Lemma results_of_outcomes (requestId : Z -> num) (outcome : Z -> Outcome)
    (s : Stats.t) (ofs : list Z) :
  let results := (fun i => snd (makeRequest (requestId i) (outcome i) s)) <$> ofs in
  let completions := (fun i => (requestId i, outcome i)) <$> ofs in
  successes results = Z.of_nat (length (resolved_times completions))
  /\ failures results = Z.of_nat (length (rejections completions)).
Proof.
  unfold successes, failures, resolved_times, rejections.
  induction ofs as [| i ofs [IHs IHf]]; [split; reflexivity |].
  rewrite !fmap_cons. cbn [omap list_omap snd fst List.filter].
  destruct (outcome i) as [status elapsed | message elapsed];
    cbn [makeRequest snd success negb length]; rewrite ?Nat2Z.inj_succ;
    split; lia.
Qed.

(** X21: the results [Promise.all] gives for a batch agree with the
    statistics: there is one result per request dispatched, and the batch
    adds the number of successes among them to [successfulRequests], the
    number of failures to [failedRequests] and their number to
    [totalRequests]. *)
Theorem results_of_a_batch_agree_with_the_statistics (w : World)
    (batchNumber : Z) (batchSize : num) (s s' : Stats.t) (ids : list num)
    (results : list Result) :
  executeConcurrentRequests w batchNumber batchSize s = Some (ids, results, s') ->
  length results = length ids
  /\ Stats.successfulRequests s' = Stats.successfulRequests s + successes results
  /\ Stats.failedRequests s' = Stats.failedRequests s + failures results
  /\ Stats.totalRequests s' = Stats.totalRequests s + Z.of_nat (length results).
Proof.
  unfold executeConcurrentRequests. intros Hrun.
  destruct (offsets batchSize) as [ofs |]; simpl in Hrun; [| discriminate].
  injection Hrun as <- <- <-.
  rewrite !length_fmap. split; [reflexivity |].
  destruct (results_of_outcomes (request_id batchNumber batchSize)
              (net w batchNumber) s ofs) as [-> ->].
  rewrite settle_all_total, length_fmap.
  match goal with
  | |- context [settle_all ?l s] =>
      destruct (settle_all_records l s) as (_ & _ & -> & -> & _)
  end.
  unfold resolved_times, rejections.
  rewrite !(fmap_Permutation _ _ _ (settle_perm w batchNumber ofs)).
  now rewrite (Permutation_length (settle_perm w batchNumber ofs)).
Qed.

Lemma results_of_a_batch_agree_with_the_statistics_witness :
  exists ids results s',
    executeConcurrentRequests reversed 2 (Int 3) stats = Some (ids, results, s')
    /\ length results = length ids
    /\ Stats.successfulRequests s' = Stats.successfulRequests stats + successes results
    /\ Stats.failedRequests s' = Stats.failedRequests stats + failures results
    /\ Stats.totalRequests s' = Stats.totalRequests stats + Z.of_nat (length results).
Proof.
  eexists _, _, _. split; [reflexivity |].
  apply (results_of_a_batch_agree_with_the_statistics reversed 2 (Int 3) stats).
  reflexivity.
Defined.

(** X22: every endpoint that the 404 response lists under
    [availableEndpoints], and every endpoint that [/] lists under
    [endpoints], is routed: a GET of it is answered with status 200. *)
Theorem advertised_endpoints_are_served (p : Service.Process)
    (req : Service.Request) (endpoint : string) :
  endpoint ∈ default [] (advertised <$> (Service.body (Service.not_found p req Service.res)
                                           ≫= Service.field "availableEndpoints"))
  \/ endpoint ∈ default [] (advertised <$> (Service.body (Service.root p req Service.res)
                                              ≫= Service.field "endpoints")) ->
  Service.statusCode (Service.app p (Service.mkRequest "GET" endpoint)) = 200
  /\ is_Some (Service.assoc endpoint Service.routes).
Proof.
  simpl. rewrite !elem_of_cons, !elem_of_nil.
  intros [[-> | [-> | [-> | []]]] | [-> | [-> | []]]]; split; try reflexivity; eauto.
Qed.

Lemma advertised_endpoints_are_served_witness :
  Service.statusCode
    (Service.app (Service.mkProcess "2026-01-01T00:00:00.000Z" 1.5 None)
                 (Service.mkRequest "GET" "/health")) = 200
  /\ is_Some (Service.assoc "/health" Service.routes).
Proof.
  apply (advertised_endpoints_are_served
           (Service.mkProcess "2026-01-01T00:00:00.000Z" 1.5 None)
           (Service.mkRequest "POST" "/nowhere") "/health").
  left. simpl. left.
Defined.

(* ===================================================================== *)
(** * Rounding, and the index of the percentile *)
(* ===================================================================== *)

(** The index [ceil(percentile / 100 * count) - 1] is computed in doubles: a
    quotient, a product, a ceiling and a difference, each rounded to the
    nearest double.  This part follows the rounding of binary64 through
    them.  The value of a positive double [m * 2^e] is read as the integer
    [val m e], so that values are compared as integers. *)

(** ** Values as integers *)

Lemma bias_large : 2200 <= bias.
Proof. unfold bias. lia. Qed.

Lemma pow2_pos (x : Z) : 0 <= x -> 0 < 2 ^ x.
Proof. intros Hx. apply Z.pow_pos_nonneg; lia. Qed.

(** Digits can be moved between the mantissa and the exponent. *)
Lemma val_shift (m e n : Z) :
  0 <= n -> - bias <= e -> val (m * 2 ^ n) e = val m (e + n).
Proof.
  intros Hn He. unfold val.
  replace (e + n + bias) with (n + (e + bias)) by lia.
  rewrite (Z.pow_add_r 2 n (e + bias)) by lia. ring.
Qed.

(** At one exponent, values are ordered as their mantissas are. *)
Lemma val_le (m m' e : Z) : - bias <= e -> (val m e <= val m' e <-> m <= m').
Proof.
  intros He. unfold val. pose proof (pow2_pos (e + bias) ltac:(lia)). nia.
Qed.

Lemma val_lt (m m' e : Z) : - bias <= e -> (val m e < val m' e <-> m < m').
Proof.
  intros He. unfold val. pose proof (pow2_pos (e + bias) ltac:(lia)). nia.
Qed.

(** The mantissa that is left after [n] digits are shifted out. *)
Lemma val_div (m e n : Z) :
  0 <= m -> 0 <= n -> - bias <= e ->
  val (m / 2 ^ n) (e + n) <= val m e < val (m / 2 ^ n + 1) (e + n)
  /\ (m mod 2 ^ n = 0 -> val (m / 2 ^ n) (e + n) = val m e)
  /\ (m mod 2 ^ n <> 0 -> val (m / 2 ^ n) (e + n) < val m e).
Proof.
  intros Hm Hn He.
  rewrite <- !val_shift by lia.
  pose proof (pow2_pos n Hn) as Hp.
  pose proof (Z.div_mod m (2 ^ n) ltac:(lia)) as Hdiv.
  pose proof (Z.mod_pos_bound m (2 ^ n) Hp) as Hmod.
  rewrite !val_le, !val_lt by lia.
  repeat split; try lia; intros H; try nia.
  f_equal. nia.
Qed.

Lemma digits_unique (p : positive) (d : Z) :
  2 ^ (d - 1) <= Z.pos p < 2 ^ d -> Z.pos (digits2_pos p) = d.
Proof.
  intros [Hlo Hhi]. pose proof (digits2_pos_bounds p) as [Hlo' Hhi'].
  assert (0 < d) as Hd.
  { destruct (Z.lt_ge_cases 0 d) as [H | H]; [exact H |].
    destruct (Z.eq_dec d 0) as [-> | Hne].
    - simpl in Hhi. lia.
    - rewrite Z.pow_neg_r in Hhi by lia. lia. }
  assert (d - 1 < Z.pos (digits2_pos p)).
  { apply (Z.pow_lt_mono_r_iff 2); lia. }
  assert (Z.pos (digits2_pos p) - 1 < d).
  { apply (Z.pow_lt_mono_r_iff 2); lia. }
  lia.
Qed.

(** What is shifted out is remembered: a shift is exact when the digits
    that go are all zero and nothing was lost before. *)
Lemma shr_1_sticky (mrs : shr_record) :
  0 <= shr_m mrs ->
  shr_r (shr_1 mrs) || shr_s (shr_1 mrs)
  = (shr_r mrs || shr_s mrs) || negb (shr_m mrs mod 2 ^ 1 =? 0).
Proof.
  destruct mrs as [m r s]. cbn [shr_m]. intros Hm.
  change (2 ^ 1) with 2. rewrite Zmod_odd.
  destruct m as [| [p | p |] | p]; cbn [shr_1 shr_r shr_s]; try lia;
    simpl; now destruct r, s.
Qed.

Lemma mod_pow2_split (m a b : Z) :
  0 <= m -> 0 <= a -> 0 <= b ->
  (m mod 2 ^ (a + b) =? 0)
  = (m mod 2 ^ a =? 0) && ((m / 2 ^ a) mod 2 ^ b =? 0).
Proof.
  intros Hm Ha Hb.
  pose proof (pow2_pos a Ha) as Hpa. pose proof (pow2_pos b Hb) as Hpb.
  rewrite Z.pow_add_r by lia.
  rewrite Z.rem_mul_r by lia.
  pose proof (Z.mod_pos_bound m (2 ^ a) Hpa).
  pose proof (Z.mod_pos_bound (m / 2 ^ a) (2 ^ b) Hpb).
  destruct (Z.eqb_spec (m mod 2 ^ a) 0), (Z.eqb_spec ((m / 2 ^ a) mod 2 ^ b) 0);
    simpl; apply Z.eqb_eq || apply Z.eqb_neq; nia.
Qed.

Lemma iter_pos_shr_1_sticky (p : positive) :
  forall mrs, 0 <= shr_m mrs ->
    shr_r (SpecFloat.iter_pos shr_1 p mrs) || shr_s (SpecFloat.iter_pos shr_1 p mrs)
    = (shr_r mrs || shr_s mrs) || negb (shr_m mrs mod 2 ^ Z.pos p =? 0).
Proof.
  induction p as [p IH | p IH |]; intros mrs Hm; simpl SpecFloat.iter_pos.
  - assert (0 <= shr_m (shr_1 mrs)) as H1
        by (rewrite shr_1_half by exact Hm; apply Z.div_pos; lia).
    assert (0 <= shr_m (SpecFloat.iter_pos shr_1 p (shr_1 mrs))) as H2
        by (rewrite iter_pos_shr_1 by exact H1; apply Z.div_pos;
            [lia | apply Z.pow_pos_nonneg; lia]).
    rewrite IH by exact H2. rewrite IH by exact H1.
    rewrite shr_1_sticky by exact Hm.
    rewrite iter_pos_shr_1 by exact H1. rewrite shr_1_half by exact Hm.
    change (Z.pos p~1) with (2 * Z.pos p + 1).
    replace (2 * Z.pos p + 1) with (1 + (Z.pos p + Z.pos p)) by lia.
    rewrite (mod_pow2_split (shr_m mrs) 1 (Z.pos p + Z.pos p)) by lia.
    change (2 ^ 1) with 2.
    rewrite (mod_pow2_split (shr_m mrs / 2) (Z.pos p) (Z.pos p))
      by (try lia; apply Z.div_pos; lia).
    rewrite !negb_andb.
    repeat match goal with |- context [?a =? 0] => destruct (a =? 0) end;
      now destruct (shr_r mrs), (shr_s mrs).
  - assert (0 <= shr_m (SpecFloat.iter_pos shr_1 p mrs)) as H2
        by (rewrite iter_pos_shr_1 by exact Hm; apply Z.div_pos;
            [lia | apply Z.pow_pos_nonneg; lia]).
    rewrite IH by exact H2. rewrite IH by exact Hm.
    rewrite iter_pos_shr_1 by exact Hm.
    change (Z.pos p~0) with (2 * Z.pos p).
    replace (2 * Z.pos p) with (Z.pos p + Z.pos p) by lia.
    rewrite (mod_pow2_split (shr_m mrs) (Z.pos p) (Z.pos p)) by lia.
    rewrite !negb_andb.
    repeat match goal with |- context [?a =? 0] => destruct (a =? 0) end;
      now destruct (shr_r mrs), (shr_s mrs).
  - apply shr_1_sticky, Hm.
Qed.

Lemma loc_of_shr_record_exact (mrs : shr_record) :
  loc_of_shr_record mrs = loc_Exact <-> shr_r mrs || shr_s mrs = false.
Proof. destruct mrs as [m [|] [|]]; simpl; split; congruence. Qed.

Lemma shr_record_of_loc_sticky (m : Z) (l : location) :
  shr_r (shr_record_of_loc m l) || shr_s (shr_record_of_loc m l) = false
  <-> l = loc_Exact.
Proof. destruct l as [| []]; simpl; split; congruence. Qed.

(** Bringing a mantissa to its precision: the exponent it ends at, the
    mantissa that is left, and when nothing is lost. *)
Lemma shr_fexp_spec (m e : Z) (l : location) :
  0 <= m ->
  let e1 := snd (shr_fexp prec emax m e l) in
  let mrs := fst (shr_fexp prec emax m e l) in
  e1 = Z.max e (fexp prec emax (Zdigits2 m + e))
  /\ shr_m mrs = m / 2 ^ (e1 - e)
  /\ (loc_of_shr_record mrs = loc_Exact
      <-> l = loc_Exact /\ m mod 2 ^ (e1 - e) = 0).
Proof.
  intros Hm. unfold shr_fexp, shr.
  destruct (fexp prec emax (Zdigits2 m + e) - e) as [| n | n] eqn:Hn;
    cbn [fst snd].
  - split; [lia |]. replace (e - e) with 0 by lia.
    rewrite shr_m_of_loc, Z.div_1_r, Z.mod_1_r.
    split; [reflexivity |].
    rewrite loc_of_shr_record_exact, shr_record_of_loc_sticky. tauto.
  - split; [lia |]. replace (e + Z.pos n - e) with (Z.pos n) by lia.
    rewrite iter_pos_shr_1 by (rewrite shr_m_of_loc; exact Hm).
    rewrite shr_m_of_loc. split; [reflexivity |].
    rewrite loc_of_shr_record_exact.
    rewrite iter_pos_shr_1_sticky by (rewrite shr_m_of_loc; exact Hm).
    rewrite shr_m_of_loc, orb_false_iff, shr_record_of_loc_sticky.
    rewrite negb_false_iff, Z.eqb_eq. tauto.
  - split; [lia |]. replace (e - e) with 0 by lia.
    rewrite shr_m_of_loc, Z.div_1_r, Z.mod_1_r.
    split; [reflexivity |].
    rewrite loc_of_shr_record_exact, shr_record_of_loc_sticky. tauto.
Qed.

(** ** The digits of a mantissa, and what rounding does to it *)

(** The exponent that binary64 gives a number of [k] digits. *)
Lemma fexp_eq (k : Z) : fexp prec emax k = Z.max (k - 53) (-1074).
Proof. reflexivity. Qed.

Lemma Zdigits2_bounds (m : Z) :
  0 < m -> 0 < Zdigits2 m /\ 2 ^ (Zdigits2 m - 1) <= m < 2 ^ Zdigits2 m.
Proof.
  intros Hm. destruct m as [| p | p]; try lia.
  split; [simpl; lia |]. apply digits2_pos_bounds.
Qed.

Lemma Zdigits2_le (m k : Z) : 0 <= m < 2 ^ k -> 0 <= k -> Zdigits2 m <= k.
Proof.
  intros [Hm Hlt] Hk. destruct (Z.eq_dec m 0) as [-> | Hne]; [simpl; lia |].
  destruct (Zdigits2_bounds m ltac:(lia)) as (Hd & Hlo & _).
  assert (Zdigits2 m - 1 < k); [| lia].
  apply (Z.pow_lt_mono_r_iff 2); lia.
Qed.

Lemma Zdigits2_unique (m d : Z) : 2 ^ (d - 1) <= m < 2 ^ d -> 0 < m -> Zdigits2 m = d.
Proof.
  intros H Hm. destruct m as [| p | p]; try lia.
  now apply digits_unique.
Qed.

Lemma div_pow2_bounds (m d n : Z) :
  0 <= n -> 0 <= d -> 0 <= m < 2 ^ d -> d - 53 <= n -> m / 2 ^ n < 2 ^ 53.
Proof.
  intros Hn Hd [Hm Hlt] Hdn.
  pose proof (pow2_pos n Hn) as Hp.
  apply Z.div_lt_upper_bound; [exact Hp |].
  rewrite <- Z.pow_add_r by lia.
  apply Z.lt_le_trans with (2 ^ d); [exact Hlt |].
  apply Z.pow_le_mono_r; lia.
Qed.

Lemma div_pow2_lower (m d : Z) :
  53 <= d -> 2 ^ (d - 1) <= m -> 2 ^ 52 <= m / 2 ^ (d - 53).
Proof.
  intros Hd Hlo.
  pose proof (pow2_pos (d - 53) ltac:(lia)) as Hp.
  apply Z.div_le_lower_bound; [exact Hp |].
  rewrite <- Z.pow_add_r by lia.
  replace (d - 53 + 52) with (d - 1) by lia. exact Hlo.
Qed.

(** Rounding to nearest: the truncated mantissa or the next one, and the next
    one only when something was lost. *)
Lemma round_nearest_even_cases (m : Z) (l : location) :
  round_nearest_even m l = m
  \/ round_nearest_even m l = m + 1 /\ l <> loc_Exact.
Proof.
  destruct l as [| []]; simpl;
    try destruct (Z.even m); auto; right; split; reflexivity || discriminate.
Qed.

(** What [binary_round_aux] gives on a mantissa that has at least the digits
    of the format (or sits below the smallest exponent): a canonical mantissa
    [m3] at [e3] that is the truncation [m1] at [e1] or the number after
    it. *)
Lemma binary_round_aux_spec (m e : Z) (l : location) :
  0 <= m -> - bias <= e -> e <= fexp prec emax (Zdigits2 m + e) ->
  exists m1 e1 m3 e3,
    (e <= e1 /\ -1074 <= e1 /\ m1 = m / 2 ^ (e1 - e)
     /\ (-1074 < e1 -> 2 ^ 52 <= m1) /\ 0 <= m1 < 2 ^ 53)
    /\ (-1074 <= e3 /\ 0 <= m3 < 2 ^ 53 /\ (-1074 < e3 -> 2 ^ 52 <= m3))
    /\ (val m3 e3 = val m1 e1
        \/ val m3 e3 = val (m1 + 1) e1
           /\ ~ (l = loc_Exact /\ m mod 2 ^ (e1 - e) = 0))
    /\ binary_round_aux prec emax false m e l
       = match m3 with
         | Z0 => S754_zero false
         | Zpos p => if e3 <=? 971 then S754_finite false p e3
                     else S754_infinity false
         | Zneg _ => S754_nan
         end.
Proof.
  intros Hm He Hpre. pose proof bias_large as Hbias.
  unfold binary_round_aux.
  destruct (shr_fexp_spec m e l Hm) as (He1 & Hm1 & Hl1).
  destruct (shr_fexp prec emax m e l) as [mrs1 e1]. cbn [fst snd] in He1, Hm1, Hl1.
  rewrite fexp_eq in Hpre, He1.
  set (m1 := shr_m mrs1) in *.
  (* the truncation *)
  assert (e <= e1 /\ -1074 <= e1) as [Hee1 Hemin] by (clear - He1 Hpre; lia).
  assert (0 <= m1 < 2 ^ 53 /\ (-1074 < e1 -> 2 ^ 52 <= m1)) as [Hm1b Hm1lo].
  { destruct (Z.eq_dec m 0) as [-> | Hne].
    - rewrite Z.div_0_l in Hm1 by (pose proof (pow2_pos (e1 - e)); lia).
      change (Zdigits2 0) with 0 in He1, Hpre. split; [lia |]. intros H. lia.
    - destruct (Zdigits2_bounds m ltac:(lia)) as (Hd & Hlo & Hhi).
      split; [split |].
      + rewrite Hm1. apply Z.div_pos; [lia | apply pow2_pos; lia].
      + rewrite Hm1. apply (div_pow2_bounds m (Zdigits2 m)); lia.
      + intros H. rewrite Hm1.
        replace (e1 - e) with (Zdigits2 m - 53) by lia.
        apply div_pow2_lower; lia. }
  (* rounding *)
  set (m2 := round_nearest_even m1 (loc_of_shr_record mrs1)).
  assert (m2 = m1 \/ m2 = m1 + 1 /\ ~ (l = loc_Exact /\ m mod 2 ^ (e1 - e) = 0))
    as Hm2.
  { destruct (round_nearest_even_cases m1 (loc_of_shr_record mrs1)) as [H | [H Hl]];
      [left; exact H | right]. split; [exact H |]. now rewrite <- Hl1. }
  assert (0 <= m2 <= 2 ^ 53) as Hm2b by lia.
  (* the carry *)
  destruct (shr_fexp_spec m2 e1 loc_Exact ltac:(lia)) as (He3 & Hm3 & _).
  destruct (shr_fexp prec emax m2 e1 loc_Exact) as [mrs3 e3].
  cbn [fst snd] in He3, Hm3. rewrite fexp_eq in He3.
  exists m1, e1.
  destruct (Z.eq_dec m2 (2 ^ 53)) as [Hcarry | Hnocarry].
  - assert (Zdigits2 m2 = 54) as Hd2.
    { apply Zdigits2_unique; rewrite Hcarry; simpl; lia. }
    assert (e3 = e1 + 1) as -> by lia.
    replace (e1 + 1 - e1) with 1 in Hm3 by lia.
    assert (shr_m mrs3 = 2 ^ 52) as Hm3' by (rewrite Hm3, Hcarry; reflexivity).
    exists (2 ^ 52), (e1 + 1).
    split; [repeat split; auto; lia |].
    split; [repeat split; simpl; lia |].
    split.
    + right. destruct Hm2 as [H | [H Hl]]; [lia |]. split; [| exact Hl].
      rewrite <- H, Hcarry.
      rewrite <- (val_shift (2 ^ 52) e1 1) by lia. reflexivity.
    + rewrite Hm3'. reflexivity.
  - assert (Zdigits2 m2 <= 53) as Hd2 by (apply Zdigits2_le; lia).
    assert (e3 = e1) as -> by lia.
    replace (e1 - e1) with 0 in Hm3 by lia.
    rewrite Z.div_1_r in Hm3.
    exists m2, e1.
    split; [repeat split; auto; lia |].
    split; [repeat split; try lia; intros H; specialize (Hm1lo H); lia |].
    split.
    + destruct Hm2 as [-> | [-> Hl]]; auto.
    + rewrite Hm3. reflexivity.
Qed.

(** ** Rounding keeps the order *)

(** The order of two positive finite numbers is the order of their values. *)
Lemma SFleb_val (mx my : positive) (ex ey : Z) :
  bounded prec emax mx ex = true -> bounded prec emax my ey = true ->
  SFleb (S754_finite false mx ex) (S754_finite false my ey)
  = (val (Z.pos mx) ex <=? val (Z.pos my) ey).
Proof.
  intros Hx Hy. rewrite (SFleb_finite false false mx my ex ey Hx Hy).
  cbn [cond_Zopp]. pose proof bias_large as Hbias.
  destruct (bounded_facts mx ex Hx) as (Hex & _).
  destruct (bounded_facts my ey Hy) as (Hey & _).
  set (c := Z.min ex ey).
  assert (Z.pos mx * 2 ^ (ex - c) <= Z.pos my * 2 ^ (ey - c)
          <-> val (Z.pos mx) ex <= val (Z.pos my) ey) as Hiff.
  { rewrite <- (val_le _ _ c) by lia.
    rewrite !val_shift by lia.
    replace (c + (ex - c)) with ex by lia.
    replace (c + (ey - c)) with ey by lia. tauto. }
  destruct (Z.leb_spec (val (Z.pos mx) ex) (val (Z.pos my) ey));
    [apply Z.leb_le | apply Z.leb_gt]; lia.
Qed.

(** No number of the format lies strictly between a canonical mantissa and
    the next one. *)
Lemma no_double_between (m1 e1 : Z) (my : positive) (ey : Z) :
  -1074 <= e1 -> 0 <= m1 -> (-1074 < e1 -> 2 ^ 52 <= m1) ->
  bounded prec emax my ey = true ->
  val (Z.pos my) ey < val (m1 + 1) e1 -> val (Z.pos my) ey <= val m1 e1.
Proof.
  intros He1 Hm1 Hlo Hy. pose proof bias_large as Hbias.
  destruct (bounded_facts my ey Hy) as (Hey & Hdy & _).
  pose proof (digits2_pos_bounds my) as [_ Hmy].
  assert (Z.pos my < 2 ^ 53) as Hmy53.
  { apply Z.lt_le_trans with (1 := Hmy). apply Z.pow_le_mono_r; lia. }
  destruct (Z.le_gt_cases e1 ey) as [Hle | Hgt].
  - replace ey with (e1 + (ey - e1)) by lia.
    rewrite <- !val_shift by lia.
    rewrite val_lt, val_le by lia. lia.
  - intros _. replace e1 with (ey + (e1 - ey)) by lia.
    rewrite <- val_shift by lia. rewrite val_le by lia.
    specialize (Hlo ltac:(lia)).
    assert (2 ^ 1 <= 2 ^ (e1 - ey)) as Hp by (apply Z.pow_le_mono_r; lia).
    change (2 ^ 1) with 2 in Hp.
    change (2 ^ 52) with 4503599627370496 in Hlo.
    change (2 ^ 53) with 9007199254740992 in Hmy53. nia.
Qed.

(** A mantissa of 53 digits, or less at the smallest exponent, is one of the
    format. *)
Lemma canonical_bounded (p : positive) (e : Z) :
  -1074 <= e <= 971 -> Z.pos p < 2 ^ 53 -> (-1074 < e -> 2 ^ 52 <= Z.pos p) ->
  bounded prec emax p e = true.
Proof.
  intros He Hp Hlo. unfold bounded, canonical_mantissa.
  rewrite fexp_eq. change (emax - prec) with 971.
  apply andb_true_iff. split; [apply Z.eqb_eq | apply Z.leb_le; lia].
  assert (Z.pos (digits2_pos p) <= 53) as Hd
      by (apply (Zdigits2_le (Z.pos p)); lia).
  destruct (Z.eq_dec e (-1074)) as [-> | Hne]; [lia |].
  rewrite (digits_unique p 53); [lia |].
  split; [apply Hlo; lia | exact Hp].
Qed.

(** What [binary_round_aux] gives is a number of the format. *)
Lemma binary_round_aux_valid (m e : Z) (l : location) :
  0 <= m -> - bias <= e -> e <= fexp prec emax (Zdigits2 m + e) ->
  valid_binary (binary_round_aux prec emax false m e l) = true.
Proof.
  intros Hm He Hpre.
  destruct (binary_round_aux_spec m e l Hm He Hpre)
    as (m1 & e1 & m3 & e3 & _ & (He3 & Hm3 & Hlo3) & _ & ->).
  destruct m3 as [| p | p]; try reflexivity.
  destruct (Z.leb_spec e3 971); [| reflexivity].
  apply canonical_bounded; lia.
Qed.

(** Rounding is monotone, part one: a number of the format that is at most
    the exact value is at most the rounded value. *)
Lemma binary_round_aux_ge (m e : Z) (l : location) (my : positive) (ey : Z) :
  0 <= m -> - bias <= e -> e <= fexp prec emax (Zdigits2 m + e) ->
  bounded prec emax my ey = true ->
  val (Z.pos my) ey <= val m e ->
  SFleb (S754_finite false my ey) (binary_round_aux prec emax false m e l) = true.
Proof.
  intros Hm He Hpre Hy Hle. pose proof bias_large as Hbias.
  destruct (binary_round_aux_spec m e l Hm He Hpre)
    as (m1 & e1 & m3 & e3 & (Hee1 & He1 & Hm1 & Hlo1 & Hm1b)
        & (He3 & Hm3 & Hlo3) & Hval & ->).
  destruct (val_div m e (e1 - e) Hm ltac:(lia) He) as ([_ Hhi] & _).
  replace (e + (e1 - e)) with e1 in Hhi by lia. rewrite <- Hm1 in Hhi.
  pose proof (no_double_between m1 e1 my ey He1 ltac:(lia) Hlo1 Hy ltac:(lia))
    as Hlo.
  assert (val m1 e1 <= val (m1 + 1) e1) as Hstep
      by (apply val_le; lia).
  assert (val (Z.pos my) ey <= val m3 e3) as Hres by (destruct Hval as [-> | [-> _]]; lia).
  assert (0 < val (Z.pos my) ey) as Hpos.
  { unfold val. pose proof (pow2_pos (ey + bias)).
    destruct (bounded_facts my ey Hy) as (Hey & _).
    apply Z.mul_pos_pos; [lia | apply pow2_pos; lia]. }
  destruct m3 as [| p | p]; try lia.
  - unfold val in Hres, Hpos. lia.
  - destruct (Z.leb_spec e3 971); [| reflexivity].
    rewrite SFleb_val; [apply Z.leb_le; exact Hres | exact Hy |].
    apply canonical_bounded; lia.
Qed.

(** Part two: a number of the format that is at least the exact value is at
    least the rounded value.  When something was lost before the rounding,
    the mantissa [m] is below the exact value, and has to be strictly below
    the number. *)
Lemma binary_round_aux_le (m e : Z) (l : location) (my : positive) (ey : Z) :
  0 <= m -> - bias <= e -> e <= fexp prec emax (Zdigits2 m + e) ->
  bounded prec emax my ey = true ->
  val m e <= val (Z.pos my) ey ->
  (l <> loc_Exact -> val m e < val (Z.pos my) ey) ->
  SFleb (binary_round_aux prec emax false m e l) (S754_finite false my ey) = true.
Proof.
  intros Hm He Hpre Hy Hle Hlt. pose proof bias_large as Hbias.
  destruct (binary_round_aux_spec m e l Hm He Hpre)
    as (m1 & e1 & m3 & e3 & (Hee1 & He1 & Hm1 & Hlo1 & Hm1b)
        & (He3 & Hm3 & Hlo3) & Hval & ->).
  destruct (val_div m e (e1 - e) Hm ltac:(lia) He) as ([Hlo _] & Hexact & Hinexact).
  replace (e + (e1 - e)) with e1 in Hlo, Hexact, Hinexact by lia.
  rewrite <- Hm1 in Hlo, Hexact, Hinexact.
  destruct (bounded_facts my ey Hy) as (Hey & Hdy & _).
  assert (val m3 e3 <= val (Z.pos my) ey) as Hres.
  { destruct Hval as [-> | [-> Hnot]]; [lia |].
    destruct (Z.lt_ge_cases (val (Z.pos my) ey) (val (m1 + 1) e1)) as [H | H];
      [| exact H].
    pose proof (no_double_between m1 e1 my ey He1 ltac:(lia) Hlo1 Hy H) as Hbelow.
    exfalso. apply Hnot.
    destruct l as [| c]; [| specialize (Hlt ltac:(discriminate)); lia].
    split; [reflexivity |].
    destruct (Z.eq_dec (m mod 2 ^ (e1 - e)) 0) as [Hz | Hnz]; [exact Hz |].
    specialize (Hinexact Hnz). lia. }
  destruct m3 as [| p | p]; try lia; [reflexivity |].
  destruct (Z.leb_spec e3 971) as [Hfin | Hinf].
  - rewrite SFleb_val; [apply Z.leb_le; exact Hres | | exact Hy].
    apply canonical_bounded; lia.
  - (* the rounded value would be above every number of the format *)
    exfalso.
    pose proof (digits2_pos_bounds my) as [_ Hmy].
    assert (Z.pos my < 2 ^ 53) as Hmy53.
    { apply Z.lt_le_trans with (1 := Hmy). apply Z.pow_le_mono_r; lia. }
    specialize (Hlo3 ltac:(lia)).
    assert (bounded prec emax my ey = true) as Hy' by exact Hy.
    unfold bounded in Hy'. apply andb_true_iff in Hy' as [_ Hey'].
    apply Z.leb_le in Hey'. change (emax - prec) with 971 in Hey'.
    revert Hres. replace e3 with (ey + (e3 - ey)) by lia.
    rewrite <- val_shift by lia. rewrite val_le by lia.
    assert (2 ^ 1 <= 2 ^ (e3 - ey)) as Hp by (apply Z.pow_le_mono_r; lia).
    change (2 ^ 1) with 2 in Hp.
    change (2 ^ 52) with 4503599627370496 in Hlo3.
    change (2 ^ 53) with 9007199254740992 in Hmy53. nia.
Qed.

(** ** Products and quotients *)

(** The number one. *)
Lemma bounded_one : bounded prec emax 4503599627370496 (-52) = true.
Proof. reflexivity. Qed.

Lemma val_one : val 4503599627370496 (-52) = 2 ^ bias.
Proof.
  change 4503599627370496 with (1 * 2 ^ 52).
  rewrite val_shift by (pose proof bias_large; lia).
  unfold val. replace (-52 + 52 + bias) with bias by lia. lia.
Qed.

Lemma val_integer (c : Z) : val c 0 = c * 2 ^ bias.
Proof. reflexivity. Qed.

(** The value of a product. *)
Lemma val_mul (a b ea eb : Z) :
  - bias <= ea -> - bias <= eb -> - bias <= ea + eb ->
  val (a * b) (ea + eb) * 2 ^ bias = val a ea * val b eb.
Proof.
  intros Ha Hb Hab. unfold val.
  replace (2 ^ (ea + bias) ) with (2 ^ (ea + bias)) by reflexivity.
  transitivity (a * b * (2 ^ (ea + eb + bias) * 2 ^ bias)); [ring |].
  rewrite <- Z.pow_add_r by (pose proof bias_large; lia).
  replace (ea + eb + bias + bias) with ((ea + bias) + (eb + bias)) by lia.
  rewrite Z.pow_add_r by lia. ring.
Qed.

Lemma val_pos (p : positive) (e : Z) : - bias <= e -> 0 < val (Z.pos p) e.
Proof.
  intros He. unfold val. apply Z.mul_pos_pos; [lia | apply pow2_pos; lia].
Qed.

(** The digits of a product. *)
Lemma digits_mul (a b : positive) :
  Z.pos (digits2_pos a) + Z.pos (digits2_pos b) - 1
  <= Z.pos (digits2_pos (a * b)).
Proof.
  pose proof (digits2_pos_bounds a) as [Ha _].
  pose proof (digits2_pos_bounds b) as [Hb _].
  pose proof (digits2_pos_bounds (a * b)) as [_ Hab].
  set (da := Z.pos (digits2_pos a)) in *.
  set (db := Z.pos (digits2_pos b)) in *.
  assert (2 ^ (da - 1 + (db - 1)) <= Z.pos (a * b)) as Hlo.
  { rewrite Z.pow_add_r by lia. rewrite Pos2Z.inj_mul.
    pose proof (pow2_pos (da - 1) ltac:(lia)).
    pose proof (pow2_pos (db - 1) ltac:(lia)). nia. }
  assert (da - 1 + (db - 1) < Z.pos (digits2_pos (a * b))); [| lia].
  apply (Z.pow_lt_mono_r_iff 2); lia.
Qed.

(** The product of two positive numbers of the format is rounded from a
    mantissa with enough digits. *)
Lemma mul_precise (mx my : positive) (ex ey : Z) :
  bounded prec emax mx ex = true -> bounded prec emax my ey = true ->
  ex + ey <= fexp prec emax (Zdigits2 (Z.pos (mx * my)) + (ex + ey)).
Proof.
  intros Hx Hy. rewrite fexp_eq. cbn [Zdigits2].
  destruct (bounded_facts mx ex Hx) as (Hex & Hdx & Hnx).
  destruct (bounded_facts my ey Hy) as (Hey & Hdy & Hny).
  pose proof (digits_mul mx my) as Hd.
  assert (0 < Z.pos (digits2_pos mx)) as Hpx by lia.
  assert (0 < Z.pos (digits2_pos my)) as Hpy by lia.
  destruct (Z.le_gt_cases (ex + ey) (-1074)) as [Hs | Hs]; [lia |].
  destruct (Z.eq_dec ex (-1074)) as [-> | Hne].
  - specialize (Hny ltac:(lia)). lia.
  - specialize (Hnx ltac:(lia)). lia.
Qed.

(** A product with a number that is at most one is at most the other
    factor; a product with a number that is at least one is at least the
    other factor. *)
Lemma SFmul_bounds (mx my : positive) (ex ey : Z) :
  bounded prec emax mx ex = true -> bounded prec emax my ey = true ->
  let product := SFmul prec emax (S754_finite false mx ex) (S754_finite false my ey) in
  valid_binary product = true
  /\ (val (Z.pos mx) ex <= 2 ^ bias ->
      SFleb product (S754_finite false my ey) = true)
  /\ (2 ^ bias <= val (Z.pos my) ey ->
      SFleb (S754_finite false mx ex) product = true).
Proof.
  intros Hx Hy. cbn [SFmul xorb]. pose proof bias_large as Hbias.
  destruct (bounded_facts mx ex Hx) as (Hex & _).
  destruct (bounded_facts my ey Hy) as (Hey & _).
  pose proof (mul_precise mx my ex ey Hx Hy) as Hpre.
  pose proof (val_mul (Z.pos mx) (Z.pos my) ex ey ltac:(lia) ltac:(lia) ltac:(lia))
    as Hmul.
  pose proof (val_pos mx ex ltac:(lia)) as Hpx.
  pose proof (val_pos my ey ltac:(lia)) as Hpy.
  pose proof (pow2_pos bias ltac:(lia)) as Hpk.
  rewrite <- Pos2Z.inj_mul in Hmul.
  split; [| split].
  - apply binary_round_aux_valid; lia.
  - intros Hle. apply binary_round_aux_le; try lia; [exact Hy | | congruence].
    nia.
  - intros Hge. apply binary_round_aux_ge; try lia; [exact Hx |].
    nia.
Qed.

(** The quotient of two positive numbers of the format. *)
Lemma div_eucl_spec (a b : Z) :
  0 < b ->
  let '(q, r) := Z.div_eucl a b in a = b * q + r /\ 0 <= r < b.
Proof.
  intros Hb. pose proof (Z.div_eucl_eq a b ltac:(lia)) as Heq.
  pose proof (Z.mod_pos_bound a b Hb) as Hr.
  unfold Z.modulo in Hr. destruct (Z.div_eucl a b) as [q r]. auto.
Qed.

(** A quotient is exact when there is no remainder only. *)
Lemma new_location_exact (m r : Z) : new_location m r <> loc_Exact -> r <> 0.
Proof.
  intros H ->. apply H. unfold new_location, new_location_even, new_location_odd.
  now destruct (Z.even m).
Qed.

(** The quotient of a positive number of the format by one that is not
    smaller is a number of the format from 0 to 1. *)
Lemma SFdiv_le_one (mx my : positive) (ex ey : Z) :
  bounded prec emax mx ex = true -> bounded prec emax my ey = true ->
  val (Z.pos mx) ex <= val (Z.pos my) ey ->
  let quotient := SFdiv prec emax (S754_finite false mx ex) (S754_finite false my ey) in
  valid_binary quotient = true
  /\ SFleb quotient (S754_finite false 4503599627370496 (-52)) = true
  /\ (quotient = S754_zero false
      \/ exists m e, quotient = S754_finite false m e).
Proof.
  intros Hx Hy Hle. cbn [SFdiv xorb]. pose proof bias_large as Hbias.
  destruct (bounded_facts mx ex Hx) as (Hex & Hdx & _).
  destruct (bounded_facts my ey Hy) as (Hey & Hdy & _).
  assert (ex <= 971 /\ ey <= 971) as [Hex' Hey'].
  { unfold bounded in Hx, Hy.
    apply andb_true_iff in Hx as [_ Hx], Hy as [_ Hy].
    apply Z.leb_le in Hx, Hy. change (emax - prec) with 971 in *. lia. }
  unfold SFdiv_core_binary. cbn [Zdigits2]. rewrite fexp_eq.
  pose proof (digits2_pos_bounds mx) as [Hxlo Hxhi].
  pose proof (digits2_pos_bounds my) as [Hylo Hyhi].
  set (dx := Z.pos (digits2_pos mx)) in *.
  set (dy := Z.pos (digits2_pos my)) in *.
  assert (0 < dx /\ 0 < dy) as [Hdx0 Hdy0] by (unfold dx, dy; lia).
  remember (Z.min (Z.max (dx + ex - (dy + ey) - 53) (-1074)) (ex - ey)) as e'
    eqn:Ee'.
  remember (ex - ey - e') as s eqn:Es.
  assert (0 <= s) as Hs by lia.
  assert (match s with
          | 0 => Z.pos mx
          | Z.pos _ => Z.shiftl (Z.pos mx) s
          | Z.neg _ => 0
          end = Z.pos mx * 2 ^ s) as Hm'.
  { destruct s as [| ps | ps]; try lia.
    rewrite Z.shiftl_mul_pow2 by lia. reflexivity. }
  remember (match s with
            | 0 => Z.pos mx
            | Z.pos _ => Z.shiftl (Z.pos mx) s
            | Z.neg _ => 0
            end) as m' eqn:Em'. clear Em'.
  pose proof (div_eucl_spec m' (Z.pos my) ltac:(lia)) as Hdiv.
  destruct (Z.div_eucl m' (Z.pos my)) as [q r]. destruct Hdiv as [Hq Hr].
  pose proof (pow2_pos s Hs) as Hps.
  assert (0 <= q) as Hq0 by nia.
  assert (- bias <= e') as He' by lia.
  (* enough digits *)
  assert (e' <= fexp prec emax (Zdigits2 q + e')) as Hpre.
  { rewrite fexp_eq.
    destruct (Z.le_gt_cases e' (-1074)) as [H | H]; [lia |].
    assert (53 - dx + dy <= s) as Hs' by lia.
    assert (2 ^ (52 + dy) <= m') as Hm'lo.
    { rewrite Hm'.
      apply Z.le_trans with (2 ^ (dx - 1) * 2 ^ s); [| nia].
      rewrite <- Z.pow_add_r by lia. apply Z.pow_le_mono_r; lia. }
    rewrite Z.pow_add_r in Hm'lo by lia.
    change (2 ^ 52) with 4503599627370496 in Hm'lo.
    assert (4503599627370496 <= q) as Hq52 by nia.
    assert (53 <= Zdigits2 q); [| lia].
    destruct (Zdigits2_bounds q ltac:(lia)) as (_ & _ & Hqhi).
    assert (52 < Zdigits2 q); [| lia].
    apply (Z.pow_lt_mono_r_iff 2); [lia | |].
    - destruct q; simpl; lia.
    - change (2 ^ 52) with 4503599627370496. lia. }
  (* at most one *)
  assert (val q e' <= 2 ^ bias /\ (r <> 0 -> val q e' < 2 ^ bias)) as [Hone Hless].
  { pose proof (val_pos my ey ltac:(lia)) as Hpy.
    pose proof (pow2_pos bias ltac:(lia)) as Hpk.
    assert (val q e' * 2 ^ s * val (Z.pos my) ey
            = q * Z.pos my * 2 ^ (ex + bias) * 2 ^ bias) as Hrel.
    { unfold val.
      transitivity (q * Z.pos my * (2 ^ (e' + bias) * 2 ^ s * 2 ^ (ey + bias)));
        [ring |].
      rewrite <- !Z.pow_add_r by lia.
      replace (e' + bias + s + (ey + bias)) with (ex + bias + bias) by lia.
      rewrite Z.pow_add_r by lia. ring. }
    pose proof (pow2_pos (ex + bias) ltac:(lia)) as Hpx.
    assert (q * Z.pos my * 2 ^ (ex + bias) <= 2 ^ s * val (Z.pos my) ey) as Hup.
    { apply Z.le_trans with (Z.pos mx * 2 ^ s * 2 ^ (ex + bias)); [nia |].
      unfold val in Hle |- *. nia. }
    assert (r <> 0 ->
            q * Z.pos my * 2 ^ (ex + bias) < 2 ^ s * val (Z.pos my) ey) as Hup'.
    { intros Hnz.
      apply Z.lt_le_trans with (Z.pos mx * 2 ^ s * 2 ^ (ex + bias)); [nia |].
      unfold val in Hle |- *. nia. }
    assert (0 < 2 ^ s * val (Z.pos my) ey) as Hfac by nia.
    split; [| intros Hnz; specialize (Hup' Hnz)]; nia. }
  rewrite <- val_one in Hone, Hless.
  assert (valid_binary (binary_round_aux prec emax false q e' (new_location (Z.pos my) r))
          = true) as Hvalid
      by (apply binary_round_aux_valid; lia).
  assert (SFleb (binary_round_aux prec emax false q e' (new_location (Z.pos my) r))
                (S754_finite false 4503599627370496 (-52)) = true) as Hres.
  { apply binary_round_aux_le; try lia; [exact bounded_one |].
    intros Hl. apply Hless. now apply new_location_exact in Hl. }
  split; [exact Hvalid |]. split; [exact Hres |].
  destruct (binary_round_aux_spec q e' (new_location (Z.pos my) r) Hq0 He' Hpre)
    as (m1 & e1 & m3 & e3 & _ & (He3 & Hm3 & _) & _ & Hshape).
  rewrite Hshape in Hres |- *.
  destruct m3 as [| p | p]; try lia; [now left |].
  destruct (e3 <=? 971); [right; eauto | discriminate].
Qed.

(** ** Integers as doubles *)

(** [binary_round] first gives the mantissa the digits of the format. *)
Lemma binary_round_aligned (m : positive) (e : Z) :
  - bias <= e ->
  exists mz ez,
    binary_round prec emax false m e
    = binary_round_aux prec emax false (Z.pos mz) ez loc_Exact
    /\ val (Z.pos mz) ez = val (Z.pos m) e
    /\ - bias <= ez
    /\ ez <= fexp prec emax (Zdigits2 (Z.pos mz) + ez).
Proof.
  intros He. pose proof bias_large as Hbias. unfold binary_round.
  rewrite fexp_eq.
  pose proof (digits2_pos_bounds m) as [Hlo Hhi].
  set (d := Z.pos (digits2_pos m)) in *.
  assert (0 < d) as Hd by (unfold d; lia).
  set (t := Z.max (d + e - 53) (-1074)).
  destruct (Z.lt_ge_cases t e) as [Hlt | Hge].
  - destruct (shl_align_spec m e t ltac:(lia)) as [Hmz Hez].
    destruct (shl_align m e t) as [mz ez]. cbn [fst snd] in Hmz, Hez. subst ez.
    exists mz, t. split; [reflexivity |].
    assert (Z.pos (digits2_pos mz) = d + (e - t)) as Hdz.
    { apply digits_unique. rewrite Hmz.
      replace (d + (e - t) - 1) with (d - 1 + (e - t)) by lia.
      rewrite !Z.pow_add_r by lia.
      pose proof (pow2_pos (e - t) ltac:(lia)). nia. }
    split; [| split; [lia |]].
    + rewrite Hmz, val_shift by lia. f_equal. lia.
    + cbn [Zdigits2]. rewrite Hdz, fexp_eq.
      replace (d + (e - t) + t) with (d + e) by lia. unfold t. lia.
  - exists m, e.
    assert (shl_align m e t = (m, e)) as ->.
    { unfold shl_align. destruct (t - e) eqn:E; try reflexivity. lia. }
    split; [reflexivity |]. split; [reflexivity |]. split; [lia |].
    cbn [Zdigits2]. rewrite fexp_eq. fold d. unfold t in Hge. lia.
Qed.

(** Rounding a number of the format gives that number. *)
Lemma binary_round_exact (m my : positive) (e ey : Z) :
  - bias <= e -> bounded prec emax my ey = true ->
  val (Z.pos m) e = val (Z.pos my) ey ->
  binary_round prec emax false m e = S754_finite false my ey.
Proof.
  intros He Hy Hval.
  destruct (binary_round_aligned m e He) as (mz & ez & -> & Hvz & Hez & Hpre).
  pose proof (binary_round_aux_valid (Z.pos mz) ez loc_Exact ltac:(lia) Hez Hpre)
    as Hvalid.
  pose proof (binary_round_aux_le (Z.pos mz) ez loc_Exact my ey ltac:(lia) Hez Hpre
                Hy ltac:(lia) ltac:(congruence)) as Hle.
  pose proof (binary_round_aux_ge (Z.pos mz) ez loc_Exact my ey ltac:(lia) Hez Hpre
                Hy ltac:(lia)) as Hge.
  destruct (binary_round_aux prec emax false (Z.pos mz) ez loc_Exact)
    as [s | s | | s m3 e3] eqn:ER.
  - discriminate.
  - destruct s; discriminate.
  - discriminate.
  - destruct (SFleb_antisym _ _ Hle Hge eq_refl eq_refl) as [H | (s1 & s2 & H & _)];
      [exact H | discriminate].
Qed.

(** Every integer from 1 to below 2^53 is a number of the format. *)
Lemma integer_representable (c : Z) :
  1 <= c < 2 ^ 53 ->
  exists m e, bounded prec emax m e = true /\ val (Z.pos m) e = val c 0.
Proof.
  intros Hc. pose proof bias_large as Hbias.
  destruct (Zdigits2_bounds c ltac:(lia)) as (Hd & Hlo & Hhi).
  assert (Zdigits2 c <= 53) as Hd53 by (apply Zdigits2_le; lia).
  set (d := Zdigits2 c) in *.
  pose proof (pow2_pos (53 - d) ltac:(lia)) as Hp.
  assert (2 ^ 52 <= c * 2 ^ (53 - d) < 2 ^ 53) as Hm.
  { assert (2 ^ 52 = 2 ^ (d - 1) * 2 ^ (53 - d)) as ->
        by (rewrite <- Z.pow_add_r by lia; f_equal; lia).
    assert (2 ^ 53 = 2 ^ d * 2 ^ (53 - d)) as ->
        by (rewrite <- Z.pow_add_r by lia; f_equal; lia).
    nia. }
  exists (Z.to_pos (c * 2 ^ (53 - d))), (d - 53).
  assert (Z.pos (Z.to_pos (c * 2 ^ (53 - d))) = c * 2 ^ (53 - d)) as Hid
      by (apply Z2Pos.id; nia).
  split.
  - apply canonical_bounded; rewrite ?Hid; lia.
  - rewrite Hid, val_shift by lia. f_equal. lia.
Qed.

(** The double made of such an integer is that integer. *)
Lemma of_Z_represents (c : Z) :
  1 <= c < 2 ^ 53 -> represents (Prim2SF (F64.of_Z c)) c.
Proof.
  intros Hc. pose proof bias_large as Hbias.
  destruct (integer_representable c Hc) as (m & e & Hb & Hval).
  exists m, e. split; [| auto].
  unfold F64.of_Z. destruct c as [| p | p]; try lia.
  cbn [binary_normalize].
  rewrite (binary_round_exact p m 0 e ltac:(lia) Hb ltac:(now rewrite Hval)).
  apply Prim2SF_SF2Prim. exact Hb.
Qed.

(** A double that is an integer is the index that integer denotes. *)
Lemma index_represents (a : float) (c : Z) :
  represents (Prim2SF a) c -> F64.index a = Some c.
Proof.
  intros (m & e & Ha & Hb & Hval). unfold F64.index. rewrite Ha.
  pose proof bias_large as Hbias.
  destruct (bounded_facts m e Hb) as (He & _).
  destruct (Z.leb_spec 0 e) as [Hpos | Hneg].
  - f_equal. replace e with (0 + e) in Hval by lia.
    rewrite <- (val_shift (Z.pos m) 0 e) in Hval by lia.
    unfold val in Hval. pose proof (pow2_pos (0 + bias) ltac:(lia)). nia.
  - assert (Z.pos m = c * 2 ^ (- e)) as Hm.
    { replace 0 with (e + - e) in Hval by lia.
      rewrite <- (val_shift c e (- e)) in Hval by lia.
      unfold val in Hval. pose proof (pow2_pos (e + bias) ltac:(lia)). nia. }
    pose proof (pow2_pos (- e) ltac:(lia)) as Hp.
    rewrite Hm, Z.mod_mul, Z.div_mul by lia. reflexivity.
Qed.

(** ** One less, and the ceiling *)

(** One less than a double that is a positive integer below 2^53 is the
    double that is the integer before it. *)
Lemma index_minus_one (a : float) (c : Z) :
  represents (Prim2SF a) c -> 1 <= c < 2 ^ 53 ->
  F64.index (a - 1)%float = Some (c - 1).
Proof.
  intros (m & e & Ha & Hb & Hval) Hc. pose proof bias_large as Hbias.
  destruct (bounded_facts m e Hb) as (He & _).
  assert (Prim2SF (a - 1)%float
          = SFsub prec emax (S754_finite false m e)
                  (S754_finite false 4503599627370496 (-52))) as Hsub.
  { rewrite sub_spec, Ha. reflexivity. }
  cbn [SFsub cond_Zopp negb] in Hsub.
  set (ez := Z.min e (-52)) in *.
  destruct (shl_align_spec m e ez ltac:(lia)) as [Hm _].
  destruct (shl_align_spec 4503599627370496 (-52) ez ltac:(lia)) as [H1 _].
  set (ma := fst (shl_align m e ez)) in *.
  set (m1 := fst (shl_align 4503599627370496 (-52) ez)) in *.
  assert (val (Z.pos ma - Z.pos m1) ez = val (c - 1) 0) as Hdiff.
  { rewrite Hm, H1.
    transitivity (val (Z.pos m * 2 ^ (e - ez)) ez
                  - val (4503599627370496 * 2 ^ (-52 - ez)) ez);
      [unfold val; ring |].
    rewrite !val_shift by lia.
    replace (ez + (e - ez)) with e by lia.
    replace (ez + (-52 - ez)) with (-52) by lia.
    rewrite Hval, val_one, !val_integer. ring. }
  destruct (Z.pos ma - Z.pos m1) as [| p | p] eqn:Ez.
  - unfold F64.index. rewrite Hsub. cbn [binary_normalize]. f_equal.
    rewrite val_integer in Hdiff. unfold val in Hdiff.
    pose proof (pow2_pos bias ltac:(lia)). nia.
  - cbn [binary_normalize] in Hsub.
    assert (1 <= c - 1 < 2 ^ 53) as Hc1.
    { assert (0 < val (c - 1) 0) as Hpos
          by (rewrite <- Hdiff; apply val_pos; lia).
      rewrite val_integer in Hpos. pose proof (pow2_pos bias ltac:(lia)). nia. }
    destruct (integer_representable (c - 1) Hc1) as (m' & e' & Hb' & Hval').
    rewrite (binary_round_exact p m' ez e' ltac:(lia) Hb'
               ltac:(now rewrite Hdiff, Hval')) in Hsub.
    apply index_represents. exists m', e'. auto.
  - exfalso. rewrite val_integer in Hdiff. unfold val in Hdiff.
    pose proof (pow2_pos bias ltac:(lia)).
    pose proof (pow2_pos (ez + bias) ltac:(lia)). nia.
Qed.

(** The ceiling of a positive double that is at most the integer [n] is an
    integer from 1 to [n]. *)
Lemma Math_ceil_represents (x : float) (m : positive) (e n : Z) :
  Prim2SF x = S754_finite false m e -> bounded prec emax m e = true ->
  1 <= n < 2 ^ 53 -> val (Z.pos m) e <= val n 0 ->
  exists c, 1 <= c <= n /\ represents (Prim2SF (F64.Math_ceil x)) c.
Proof.
  intros Hx Hb Hn Hle. pose proof bias_large as Hbias.
  destruct (bounded_facts m e Hb) as (He & _).
  unfold F64.Math_ceil. rewrite Hx.
  destruct (Z.leb_spec 0 e) as [Hpos | Hneg].
  - pose proof (pow2_pos e Hpos) as Hp.
    exists (Z.pos m * 2 ^ e). split.
    + split; [nia |]. apply (val_le _ _ 0); [lia |].
      rewrite val_shift by lia. exact Hle.
    + exists m, e. rewrite Hx. split; [reflexivity |]. split; [exact Hb |].
      rewrite val_shift by lia. reflexivity.
  - pose proof (pow2_pos (- e) ltac:(lia)) as Hp.
    assert (Z.pos m <= n * 2 ^ (- e)) as Hmn.
    { apply (val_le _ _ e); [lia |].
      rewrite val_shift by lia. now replace (e + - e) with 0 by lia. }
    pose proof (Z.div_mod (Z.pos m) (2 ^ (- e)) ltac:(lia)) as Hdm.
    pose proof (Z.mod_pos_bound (Z.pos m) (2 ^ (- e)) ltac:(lia)) as Hr.
    set (q := Z.pos m / 2 ^ (- e)) in *.
    set (r := Z.pos m mod 2 ^ (- e)) in *.
    assert (1 <= (if r =? 0 then q else q + 1) <= n) as Hc.
    { destruct (Z.eqb_spec r 0) as [Hr0 | Hr0]; nia. }
    exists (if r =? 0 then q else q + 1). split; [exact Hc |].
    apply of_Z_represents. lia.
Qed.

(** ** The index is one of the list *)

(** The number 100. *)
Lemma Prim2SF_hundred : Prim2SF 100 = S754_finite false 7036874417766400 (-46).
Proof. reflexivity. Qed.

Lemma bounded_hundred : bounded prec emax 7036874417766400 (-46) = true.
Proof. reflexivity. Qed.

Lemma val_hundred : val 7036874417766400 (-46) = val 100 0.
Proof.
  change 7036874417766400 with (100 * 2 ^ 46).
  rewrite val_shift by (pose proof bias_large; lia). reflexivity.
Qed.

(** A double above 0 and at most 100 is a positive finite number. *)
Lemma percentile_positive (percentile : float) :
  (0 <? percentile)%float = true -> (percentile <=? 100)%float = true ->
  exists m e,
    Prim2SF percentile = S754_finite false m e
    /\ bounded prec emax m e = true
    /\ val (Z.pos m) e <= val 100 0.
Proof.
  rewrite ltb_spec, leb_spec, Prim2SF_hundred.
  change (Prim2SF 0) with (S754_zero false).
  pose proof (Prim2SF_valid percentile) as Hvalid.
  destruct (Prim2SF percentile) as [s | s | | s m e]; try discriminate.
  - destruct s; discriminate.
  - destruct s; [discriminate |]. intros _ Hle.
    exists m, e. split; [reflexivity |]. split; [exact Hvalid |].
    rewrite (SFleb_val m _ e _ Hvalid bounded_hundred) in Hle.
    rewrite <- val_hundred. now apply Z.leb_le.
Qed.

(** [percentile / 100] is at most 1 then, and positive unless it is rounded
    to 0. *)
Lemma percentile_fraction (percentile : float) :
  (0 <? percentile)%float = true -> (percentile <=? 100)%float = true ->
  (percentile / 100 =? 0)%float = false ->
  exists m e,
    Prim2SF (percentile / 100)%float = S754_finite false m e
    /\ bounded prec emax m e = true
    /\ val (Z.pos m) e <= 2 ^ bias.
Proof.
  intros Hpos Hle Hne.
  destruct (percentile_positive percentile Hpos Hle) as (m & e & Hp & Hb & Hval).
  rewrite <- val_hundred in Hval.
  destruct (SFdiv_le_one m 7036874417766400 e (-46) Hb bounded_hundred Hval)
    as (Hvalid & Hone & Hshape).
  assert (Prim2SF (percentile / 100)%float
          = SFdiv prec emax (S754_finite false m e)
                  (S754_finite false 7036874417766400 (-46))) as Hq.
  { rewrite div_spec, Hp, Prim2SF_hundred. reflexivity. }
  rewrite FloatAxioms.eqb_spec, Hq in Hne.
  change (Prim2SF 0) with (S754_zero false) in Hne.
  destruct Hshape as [Hzero | (mq & eq & Hfin)].
  - rewrite Hzero in Hne. discriminate.
  - rewrite Hfin in Hq, Hvalid, Hone. exists mq, eq.
    split; [exact Hq |]. split; [exact Hvalid |].
    rewrite (SFleb_val mq _ eq _ Hvalid bounded_one) in Hone.
    rewrite <- val_one. now apply Z.leb_le.
Qed.

(** For a percentile above 0 and at most 100 whose hundredth is not rounded
    to 0, and a count from 1 to below 2^53,
    [ceil(percentile / 100 * count) - 1] is an index below the count. *)
Lemma percentile_index_in_range (percentile : float) (count : nat) :
  (0 <? percentile)%float = true -> (percentile <=? 100)%float = true ->
  (percentile / 100 =? 0)%float = false ->
  (0 < count)%nat -> Z.of_nat count < 2 ^ 53 ->
  exists i : Z,
    F64.index (percentile_index percentile count) = Some i
    /\ 0 <= i < Z.of_nat count.
Proof.
  intros Hpos Hle Hne Hcount Hmax. pose proof bias_large as Hbias.
  destruct (percentile_fraction percentile Hpos Hle Hne)
    as (mq & eq & Hq & Hbq & Hvq).
  assert (1 <= Z.of_nat count < 2 ^ 53) as Hn by lia.
  destruct (of_Z_represents (Z.of_nat count) Hn) as (mn & en & HN & Hbn & Hvn).
  fold (F64.of_nat count) in HN.
  destruct (SFmul_bounds mq mn eq en Hbq Hbn) as (Hvalid & Hupper & Hlower).
  specialize (Hupper Hvq).
  assert (2 ^ bias <= val (Z.pos mn) en) as H1.
  { rewrite Hvn, val_integer. pose proof (pow2_pos bias ltac:(lia)). nia. }
  specialize (Hlower H1).
  assert (Prim2SF (percentile / 100 * F64.of_nat count)%float
          = SFmul prec emax (S754_finite false mq eq) (S754_finite false mn en))
    as Hx.
  { rewrite mul_spec, Hq, HN. reflexivity. }
  destruct (SFmul prec emax (S754_finite false mq eq) (S754_finite false mn en))
    as [s | s | | s mx ex]; try discriminate.
  - destruct s; discriminate.
  - destruct s; [discriminate |].
    rewrite (SFleb_val mx mn ex en Hvalid Hbn) in Hupper.
    apply Z.leb_le in Hupper. rewrite Hvn in Hupper.
    destruct (Math_ceil_represents _ mx ex (Z.of_nat count) Hx Hvalid Hn Hupper)
      as (c & Hc & Hrep).
    exists (c - 1). split; [| lia].
    apply index_minus_one; [exact Hrep | lia].
Qed.

(** A number other than NaN equals itself. *)
Lemma eqb_refl_not_NaN (v : float) : not_NaN v = true -> (v =? v)%float = true.
Proof.
  unfold not_NaN, is_nan. now rewrite negb_involutive.
Qed.

(** [v || 0] is [v] as [===] compares them, when [v] is not NaN. *)
Lemma or_zero_same (v : float) :
  not_NaN v = true -> (or_zero (Some v) =? v)%float = true.
Proof.
  intros Hv. unfold or_zero, F64.truthy.
  destruct (Prim2SF v) as [s | s | | s m e] eqn:E.
  - rewrite FloatAxioms.eqb_spec, E. reflexivity.
  - now apply eqb_refl_not_NaN.
  - apply eqb_refl_not_NaN in Hv.
    rewrite FloatAxioms.eqb_spec, E in Hv. discriminate.
  - now apply eqb_refl_not_NaN.
Qed.

(** ** The smallest percentiles *)

(** A double that equals 0 is one of the two zeros. *)
Lemma eqb_zero (x : float) :
  (x =? 0)%float = true -> exists s, Prim2SF x = S754_zero s.
Proof.
  rewrite FloatAxioms.eqb_spec. change (Prim2SF 0) with (S754_zero false).
  destruct (Prim2SF x) as [s | s | | s m e]; try discriminate;
    [eauto | destruct s; discriminate ..].
Qed.

(** When [percentile / 100] is rounded to 0 the index is [-1] (NaN for a
    count that is infinite as a double), which is no index: the result is 0
    whatever the values. *)
Lemma percentile_rounded_to_zero (values : list float) (percentile : float) :
  (percentile / 100 =? 0)%float = true ->
  calculatePercentile values percentile = 0%float.
Proof.
  intros Hzero. destruct (eqb_zero _ Hzero) as [s Hq].
  unfold calculatePercentile, percentile_index.
  set (count := F64.of_nat (length (sort_ascending values))).
  assert (F64.index (F64.Math_ceil (percentile / 100 * count) - 1)%float = None)
    as Hindex.
  { assert (Prim2SF (percentile / 100 * count)%float = S754_nan
            \/ exists s', Prim2SF (percentile / 100 * count)%float = S754_zero s')
      as Hx.
    { rewrite mul_spec, Hq.
      destruct (Prim2SF count) as [sc | sc | | sc mc ec]; simpl; eauto. }
    assert (F64.Math_ceil (percentile / 100 * count)%float
            = (percentile / 100 * count)%float) as ->.
    { unfold F64.Math_ceil. destruct Hx as [-> | [s' ->]]; reflexivity. }
    unfold F64.index. rewrite sub_spec.
    change (Prim2SF 1) with (S754_finite false 4503599627370496 (-52)).
    destruct Hx as [-> | [s' ->]]; reflexivity. }
  unfold F64.get. rewrite Hindex. reflexivity.
Qed.

(** The quotient by 100 of a number of the format that is at least
    [51 * 2^-1074] is not rounded to 0: it is at least half of the smallest
    positive double, [2^-1074], and above it. *)
Lemma SFdiv_hundred_not_zero (mx : positive) (ex : Z) :
  bounded prec emax mx ex = true ->
  val 51 (-1074) <= val (Z.pos mx) ex ->
  SFdiv prec emax (S754_finite false mx ex)
        (S754_finite false 7036874417766400 (-46)) <> S754_zero false.
Proof.
  intros Hx Hle. pose proof bias_large as Hbias.
  destruct (bounded_facts mx ex Hx) as (Hex & Hdx & _).
  assert (Z.pos 7036874417766400 = 100 * 2 ^ 46) as Hmy by reflexivity.
  assert (Z.pos (digits2_pos 7036874417766400) = 53) as Hdy by reflexivity.
  assert (Z.even (Z.pos 7036874417766400) = true) as Heven by reflexivity.
  remember 7036874417766400%positive as my eqn:Emy. clear Emy.
  cbn [SFdiv xorb]. unfold SFdiv_core_binary. cbn [Zdigits2]. rewrite fexp_eq.
  rewrite Hdy.
  pose proof (digits2_pos_bounds mx) as [Hxlo Hxhi].
  set (dx := Z.pos (digits2_pos mx)) in *.
  assert (0 < dx) as Hdx0 by (unfold dx; lia).
  remember (Z.min (Z.max (dx + ex - (53 + -46) - 53) (-1074)) (ex - -46)) as e'
    eqn:Ee'.
  remember (ex - -46 - e') as s eqn:Es.
  assert (0 <= s) as Hs by lia.
  assert (match s with
          | 0 => Z.pos mx
          | Z.pos _ => Z.shiftl (Z.pos mx) s
          | Z.neg _ => 0
          end = Z.pos mx * 2 ^ s) as Hm'.
  { destruct s as [| ps | ps]; try lia.
    rewrite Z.shiftl_mul_pow2 by lia. reflexivity. }
  remember (match s with
            | 0 => Z.pos mx
            | Z.pos _ => Z.shiftl (Z.pos mx) s
            | Z.neg _ => 0
            end) as m' eqn:Em'. clear Em'.
  pose proof (div_eucl_spec m' (Z.pos my) ltac:(lia)) as Hdiv.
  destruct (Z.div_eucl m' (Z.pos my)) as [q r]. destruct Hdiv as [Hq Hr].
  pose proof (pow2_pos s Hs) as Hps.
  assert (0 <= q) as Hq0 by nia.
  assert (- bias <= e') as He' by lia.
  assert (2 ^ (dx - 1) * 2 ^ s <= m') as Hm'lo by nia.
  rewrite <- Z.pow_add_r in Hm'lo by lia.
  destruct (Z.eq_dec q 0) as [-> | Hq1].
  - (* the quotient is below [2^-1074] *)
    assert (e' = -1074) as ->.
    { destruct (Z.eq_dec e' (-1074)) as [| Hne]; [assumption | exfalso].
      assert (2 ^ 105 <= 2 ^ (dx - 1 + s)) as Hbig
          by (apply Z.pow_le_mono_r; lia).
      change (2 ^ 105) with 40564819207303340847894502572032 in Hbig.
      change (2 ^ 46) with 70368744177664 in Hmy. lia. }
    assert (Z.pos my < 2 * r) as Hhalf.
    { assert (s = ex + 1074 + 46) as -> by lia.
      rewrite Z.pow_add_r in Hm' by lia.
      unfold val in Hle.
      replace (ex + bias) with (ex + 1074 + (bias - 1074)) in Hle by lia.
      replace (-1074 + bias) with (bias - 1074) in Hle by lia.
      rewrite Z.pow_add_r in Hle by lia.
      pose proof (pow2_pos (bias - 1074) ltac:(lia)) as Hk.
      pose proof (pow2_pos (ex + 1074) ltac:(lia)) as Ha.
      assert (51 <= Z.pos mx * 2 ^ (ex + 1074)) as H51 by nia.
      change (2 ^ 46) with 70368744177664 in *. nia. }
    unfold new_location. rewrite Heven. unfold new_location_even.
    match goal with
    | |- context [if ?b then _ else _] =>
        replace b with false by (destruct r; [lia | reflexivity | lia])
    end.
    assert ((2 * r ?= Z.pos my) = Gt) as -> by (apply Z.compare_gt_iff; lia).
    vm_compute. discriminate.
  - (* the quotient is at least [2^-1074] *)
    assert (e' <= fexp prec emax (Zdigits2 q + e')) as Hpre.
    { rewrite fexp_eq.
      destruct (Z.le_gt_cases e' (-1074)) as [H | H]; [lia |].
      assert (2 ^ (52 + 53) <= 2 ^ (dx - 1 + s)) as Hbig
          by (apply Z.pow_le_mono_r; lia).
      rewrite Z.pow_add_r in Hbig by lia.
      assert (Z.pos my < 2 ^ 53) as Hmy53 by (rewrite Hmy; reflexivity).
      assert (2 ^ 52 <= q) as Hq52.
      { pose proof (pow2_pos 52 ltac:(lia)). pose proof (pow2_pos 53 ltac:(lia)).
        nia. }
      assert (52 < Zdigits2 q); [| lia].
      destruct (Zdigits2_bounds q ltac:(lia)) as (_ & _ & Hqhi).
      apply (Z.pow_lt_mono_r_iff 2); [lia | | lia].
      destruct q; simpl; lia. }
    pose proof (binary_round_aux_ge q e' (new_location (Z.pos my) r) 1 (-1074)
                  Hq0 He' Hpre eq_refl) as Hge.
    intros Hzero. rewrite Hzero in Hge.
    assert (val 1 (-1074) <= val q e') as Hv.
    { unfold val.
      apply Z.le_trans with (1 * 2 ^ (e' + bias)); [| nia].
      rewrite !Z.mul_1_l. apply Z.pow_le_mono_r; lia. }
    specialize (Hge Hv). discriminate.
Qed.

(** The numbers [51 * 2^-1074] and [50 * 2^-1074]. *)
Lemma Prim2SF_smallest_percentile :
  Prim2SF 0x33p-1074 = S754_finite false 51 (-1074).
Proof. reflexivity. Qed.

(** [percentile / 100] is not rounded to 0 from [51 * 2^-1074] on, which is
    about 2.5e-322. *)
Lemma hundredth_not_zero (percentile : float) :
  (0x33p-1074 <=? percentile)%float = true ->
  (percentile <=? 100)%float = true ->
  (0 <? percentile)%float = true
  /\ (percentile / 100 =? 0)%float = false.
Proof.
  rewrite ltb_spec, !leb_spec, Prim2SF_hundred, Prim2SF_smallest_percentile.
  rewrite FloatAxioms.eqb_spec, div_spec, Prim2SF_hundred.
  change (Prim2SF 0) with (S754_zero false).
  pose proof (Prim2SF_valid percentile) as Hvalid.
  destruct (Prim2SF percentile) as [s | s | | s m e]; try discriminate.
  - destruct s; discriminate.
  - destruct s; [discriminate |]. intros Hlo Hhi. split; [reflexivity |].
    rewrite (SFleb_val 51 m (-1074) e eq_refl Hvalid) in Hlo.
    rewrite (SFleb_val m _ e _ Hvalid bounded_hundred) in Hhi.
    apply Z.leb_le in Hlo, Hhi.
    pose proof (SFdiv_hundred_not_zero m e Hvalid Hlo) as Hnz.
    destruct (SFdiv_le_one m 7036874417766400 e (-46) Hvalid bounded_hundred Hhi)
      as (_ & _ & [Hzero | (mq & eq & Hfin)]); [contradiction |].
    change SF64div with (SFdiv prec emax). rewrite Hfin. reflexivity.
Qed.

Lemma Prim2SF_largest_lost_percentile :
  Prim2SF 0x32p-1074 = S754_finite false 50 (-1074).
Proof. reflexivity. Qed.

(** Up to [50 * 2^-1074] it is rounded to 0: these are fifty doubles. *)
Lemma hundredth_zero (percentile : float) :
  (0 <? percentile)%float = true ->
  (percentile <=? 0x32p-1074)%float = true ->
  (percentile / 100 =? 0)%float = true.
Proof.
  rewrite ltb_spec, !leb_spec, Prim2SF_largest_lost_percentile.
  rewrite FloatAxioms.eqb_spec, div_spec, Prim2SF_hundred.
  change (Prim2SF 0) with (S754_zero false).
  pose proof (Prim2SF_valid percentile) as Hvalid.
  pose proof bias_large as Hbias.
  destruct (Prim2SF percentile) as [s | s | | s m e]; try discriminate.
  - destruct s; discriminate.
  - destruct s; [discriminate |]. intros _ Hhi.
    rewrite (SFleb_val m 50 e (-1074) Hvalid eq_refl) in Hhi.
    apply Z.leb_le in Hhi.
    destruct (bounded_facts m e Hvalid) as (He & _ & Hnormal).
    assert (e = -1074) as ->.
    { destruct (Z.eq_dec e (-1074)) as [| Hne]; [assumption | exfalso].
      specialize (Hnormal ltac:(lia)).
      pose proof (digits2_pos_bounds m) as [Hlo _]. rewrite Hnormal in Hlo.
      change (2 ^ (53 - 1)) with 4503599627370496 in Hlo.
      unfold val in Hhi.
      assert (2 ^ (-1074 + bias) <= 2 ^ (e + bias)) as Hpow
          by (apply Z.pow_le_mono_r; lia).
      pose proof (pow2_pos (-1074 + bias) ltac:(lia)). nia. }
    apply val_le in Hhi; [| lia].
    assert (forallb (fun k =>
                       SFeqb (SF64div (S754_finite false (Z.to_pos k) (-1074))
                                      (S754_finite false 7036874417766400 (-46)))
                             (S754_zero false))
                    (seqZ 1 50) = true) as Hall by (vm_compute; reflexivity).
    rewrite forallb_forall in Hall.
    specialize (Hall (Z.pos m)). rewrite Pos2Z.id in Hall.
    apply Hall, list_elem_of_In, elem_of_seqZ. lia.
Qed.

(** There is no double between [50 * 2^-1074] and [51 * 2^-1074]. *)
Lemma small_percentiles (percentile : float) :
  (0 <? percentile)%float = true ->
  (percentile <=? 0x32p-1074)%float = true
  \/ (0x33p-1074 <=? percentile)%float = true.
Proof.
  rewrite ltb_spec, !leb_spec, Prim2SF_largest_lost_percentile,
    Prim2SF_smallest_percentile.
  change (Prim2SF 0) with (S754_zero false).
  pose proof (Prim2SF_valid percentile) as Hvalid.
  pose proof bias_large as Hbias.
  destruct (Prim2SF percentile) as [s | s | | s m e]; try discriminate.
  - destruct s; [discriminate | now right].
  - destruct s; [discriminate |]. intros _.
    rewrite (SFleb_val m 50 e (-1074) Hvalid eq_refl).
    rewrite (SFleb_val 51 m (-1074) e eq_refl Hvalid).
    rewrite Z.leb_le, Z.leb_le.
    destruct (bounded_facts m e Hvalid) as (He & _ & _).
    assert (val 50 (-1074) + 2 ^ (-1074 + bias) = val 51 (-1074)) as Hnext
        by (unfold val; ring).
    assert (val (Z.pos m) e = Z.pos m * 2 ^ (e + 1074) * 2 ^ (-1074 + bias))
      as ->.
    { unfold val. rewrite <- Z.mul_assoc, <- Z.pow_add_r by lia.
      do 2 f_equal. lia. }
    unfold val. pose proof (pow2_pos (-1074 + bias) ltac:(lia)).
    pose proof (pow2_pos (e + 1074) ltac:(lia)).
    destruct (Z.le_gt_cases (Z.pos m * 2 ^ (e + 1074)) 50); [left | right]; nia.
Qed.

(** So, for a percentile above 0 and at most 100, [percentile / 100] is
    rounded to 0 exactly up to [50 * 2^-1074]. *)
Lemma hundredth_zero_iff (percentile : float) :
  (0 <? percentile)%float = true -> (percentile <=? 100)%float = true ->
  (percentile / 100 =? 0)%float = true
  <-> (percentile <=? 0x32p-1074)%float = true.
Proof.
  intros Hpos Hle. split.
  - intros Hzero. destruct (small_percentiles percentile Hpos) as [H | H];
      [exact H |].
    destruct (hundredth_not_zero percentile H Hle) as [_ Hnz]. congruence.
  - now apply hundredth_zero.
Qed.

(** ** The element at the index *)

(** C10, as the code has it.  For the empty list the result is 0.  For a
    list without NaN the result is, whatever the percentile, 0 or an element
    of the list.  For a list that is not empty and holds no NaN, and a
    percentile above 0 and at most 100 whose hundredth [percentile / 100] is
    not rounded to 0, [ceil(percentile / 100 * count) - 1] is an index of the
    list, and the result is the element [v] at that index of the values in
    ascending order: an element of the list, which the result equals as
    [===] compares numbers, and which it is unless [v] is [-0] (the result
    is 0 then).  The count is below 2^53: an array has fewer than 2^32
    elements. *)
Theorem percentile_is_an_element_or_zero (values : list float)
    (percentile : float) :
  calculatePercentile [] percentile = 0%float
  /\ (forallb not_NaN values = true ->
      calculatePercentile values percentile = 0%float
      \/ calculatePercentile values percentile ∈ values)
  /\ (values <> [] -> Z.of_nat (length values) < 2 ^ 53 ->
      forallb not_NaN values = true ->
      (0 <? percentile)%float = true -> (percentile <=? 100)%float = true ->
      (percentile / 100 =? 0)%float = false ->
      exists (i : Z) (v : float),
        F64.index (percentile_index percentile (length values)) = Some i
        /\ 0 <= i < Z.of_nat (length values)
        /\ sort_ascending values !! Z.to_nat i = Some v
        /\ v ∈ values
        /\ (calculatePercentile values percentile =? v)%float = true
        /\ (kept_by_or_zero v = true ->
            calculatePercentile values percentile = v)).
Proof.
  split; [apply percentile_of_nothing |].
  split; [intros _; apply percentile_element_or_zero |].
  intros Hne Hmax Hnan Hpos Hle Hq.
  assert (0 < length values)%nat as Hcount
      by (destruct values; simpl; [easy | lia]).
  destruct (percentile_index_in_range percentile (length values)
              Hpos Hle Hq Hcount Hmax) as (i & Hi & Hrange).
  pose proof (sort_ascending_perm values) as Hperm.
  pose proof Hrange as [_ Hlt]. rewrite <- (Permutation_length Hperm) in Hlt.
  rewrite <- (Permutation_length Hperm) in Hi.
  destruct (get_in_range (sort_ascending values) _ i Hi Hlt) as [Hget [v Hv]].
  assert (v ∈ values) as Hin
      by (rewrite <- Hperm; exact (list_elem_of_lookup_2 _ _ _ Hv)).
  rewrite (Permutation_length Hperm) in Hi.
  exists i, v. unfold calculatePercentile. rewrite Hget, Hv.
  repeat split; try easy.
  - apply or_zero_same. rewrite forallb_forall in Hnan.
    now apply Hnan, list_elem_of_In.
  - apply or_zero_kept.
Qed.

(** The 90th percentile of six values is the last of them in ascending
    order, the one at index 5. *)
Lemma percentile_is_an_element_or_zero_witness :
  let values := [40; 10.5; 50; 20; 30.25; 20]%float in
  exists (i : Z) (v : float),
    F64.index (percentile_index 90 (length values)) = Some i
    /\ 0 <= i < Z.of_nat (length values)
    /\ sort_ascending values !! Z.to_nat i = Some v
    /\ v ∈ values
    /\ (calculatePercentile values 90 =? v)%float = true
    /\ (kept_by_or_zero v = true -> calculatePercentile values 90 = v).
Proof.
  apply (proj2 (proj2 (percentile_is_an_element_or_zero
                         [40; 10.5; 50; 20; 30.25; 20]%float 90)));
    [discriminate | simpl; lia | reflexivity | reflexivity | reflexivity
    | reflexivity].
Defined.
